(** * audio2text-app: the chunker, the merger and the rename transform

    A shallow embedding of [app.py].  The functions below follow the Python
    source line by line:

    - [segment_audio] (the chunk planner and slicer),
    - [transcribe_audio] (per-chunk transcription and temporary-file cleanup),
    - [assign_speakers_to_transcription] (the merger),
    - the handlers of [main]: the transcription run, the result display and
      the speaker renaming.

    Modelling conventions.

    - Python [float] values (durations, offsets, timestamps) are rationals
      [Q].  Where a property rests on comparisons only, or on a single slice
      of the whole recording, the arithmetic is the exact one: comparisons
      of doubles are exact, and [rounded_single_slice] shows that binary64
      arithmetic gives the same single slice unless the quotient
      duration / max_duration is rounded to zero, which needs a duration far
      below the microsecond that ffprobe resolves.  The slice plan of several
      chunks rests on rounding: for it the arithmetic is that of IEEE 754
      binary64, each operation being the exact one followed by rounding to
      the nearest double ([Binary64]).
    - Python [str] values are [string]s (byte strings); the whitespace removed
      by [str.strip] is the ASCII whitespace of [str.isspace].
    - A Python exception is a value of type [exn]; effectful code lives in a
      state-and-exception monad over the [World], and the state reached when
      an exception escapes is kept, so that leaked files stay visible.
    - The file system is a finite map from paths to files; the session state
      of the user interface is a record. *)

From Stdlib Require Import QArith Qround Qminmax Qpower Lqa Lia.
From Stdlib Require Import Strings.String Strings.Ascii Sorting.Sorted Structures.OrderedTypeEx.
From stdpp Require Import gmap strings list pretty.

Open Scope string_scope.

(** ** Python string primitives *)

Module PyStr.

(** [str.isspace] on one ASCII character: TAB, LF, VT, FF, CR, the four
    separators FS, GS, RS, US, and the blank. *)
Definition is_space (c : ascii) : bool :=
  let n := nat_of_ascii c in
  ((9 <=? n)%nat && (n <=? 13)%nat) || ((28 <=? n)%nat && (n <=? 32)%nat).

Fixpoint lstrip (s : string) : string :=
  match s with
  | EmptyString => EmptyString
  | String c s' => if is_space c then lstrip s' else s
  end.

Fixpoint rstrip (s : string) : string :=
  match s with
  | EmptyString => EmptyString
  | String c s' =>
      match rstrip s' with
      | EmptyString => if is_space c then EmptyString else String c EmptyString
      | r => String c r
      end
  end.

(** [s.strip()] *)
Definition strip (s : string) : string := lstrip (rstrip s).

(** [sep.join(l)] *)
Fixpoint join (sep : string) (l : list string) : string :=
  match l with
  | [] => EmptyString
  | [x] => x
  | x :: xs => x ++ sep ++ join sep xs
  end.

(** [drop n s] is the slice [s[n:]]. *)
Fixpoint drop (n : nat) (s : string) : string :=
  match n, s with
  | O, _ => s
  | S _, EmptyString => EmptyString
  | S k, String _ s' => drop k s'
  end.

(** The scan of [str.replace] for a non-empty pattern: [skip] counts the
    characters of a match that was just replaced and that the scan still
    has to step over. *)
Fixpoint replace_scan (old new : string) (skip : nat) (s : string) : string :=
  match s with
  | EmptyString => EmptyString
  | String c s' =>
      match skip with
      | S k => replace_scan old new k s'
      | O =>
          if String.prefix old s
          then new ++ replace_scan old new (String.length old - 1) s'
          else String c (replace_scan old new 0 s')
      end
  end.

(** With an empty pattern Python inserts [new] before every character and
    at the end. *)
Fixpoint intersperse (new : string) (s : string) : string :=
  match s with
  | EmptyString => new
  | String c s' => new ++ String c (intersperse new s')
  end.

(** [s.replace(old, new)]: every non-overlapping occurrence of [old],
    found from left to right, becomes [new]. *)
Definition replace (old new s : string) : string :=
  match old with
  | EmptyString => intersperse new s
  | _ => replace_scan old new 0 s
  end.

(** [old in s] *)
Fixpoint occurs (old s : string) : bool :=
  String.prefix old s ||
  match s with
  | EmptyString => false
  | String _ s' => occurs old s'
  end.

End PyStr.

(** ** The merger: data *)

(** A transcript segment is a Python dict.  The keys ["start"] and ["end"]
    are read with [seg[...]], the keys ["text"] and ["speaker"] with
    [seg.get(..., default)], so the latter two may be absent. *)
Record Segment := mkSegment {
  seg_start : Q;
  seg_end : Q;
  seg_text : option string;
  seg_speaker : option string
}.

(** A diarization interval is a dict with the keys ["Start (sec)"],
    ["End (sec)"] and ["Speaker"].  The first two fields hold the numbers
    that [float(d[...])] returns. *)
Record Interval := mkInterval {
  d_start : Q;
  d_end : Q;
  d_speaker : string
}.

(** [d_start <= midpoint <= d_end] *)
Definition in_interval (midpoint : Q) (d : Interval) : bool :=
  Qle_bool (d_start d) midpoint && Qle_bool midpoint (d_end d).

(** The inner loop of the assignment: the intervals are scanned in order and
    the scan stops ([break]) at the first one that contains the midpoint. *)
Fixpoint scan_intervals (midpoint : Q) (diarization_results : list Interval)
  : option string :=
  match diarization_results with
  | [] => None
  | d :: rest =>
      if in_interval midpoint d then Some (d_speaker d)
      else scan_intervals midpoint rest
  end.

(** [assigned_speaker if assigned_speaker else "Unknown"]: [None] and the
    empty string are both falsy. *)
Definition speaker_or_unknown (assigned_speaker : option string) : string :=
  match assigned_speaker with
  | None => "Unknown"
  | Some EmptyString => "Unknown"
  | Some s => s
  end.

Definition midpoint (seg : Segment) : Q := (seg_start seg + seg_end seg) / 2.

(** One iteration of the first loop: [seg["speaker"] = ...]. *)
Definition assign_speaker (diarization_results : list Interval) (seg : Segment)
  : Segment :=
  {| seg_start := seg_start seg;
     seg_end := seg_end seg;
     seg_text := seg_text seg;
     seg_speaker :=
       Some (speaker_or_unknown (scan_intervals (midpoint seg) diarization_results)) |}.

(** ** The merger: coalescing *)

(** The loop state of the second loop. *)
Record MergeState := mkMergeState {
  merged_lines : list string;
  current_speaker : option string;
  current_text : string
}.

(** [f"{current_speaker}: {current_text.strip()}"]; an unset speaker is
    printed as [None]. *)
Definition format_line (speaker : option string) (text : string) : string :=
  default "None" speaker ++ ": " ++ PyStr.strip text.

Definition merge_step (st : MergeState) (seg : Segment) : MergeState :=
  let speaker := default "Unknown" (seg_speaker seg) in
  let text := PyStr.strip (default "" (seg_text seg)) in
  if decide (current_speaker st = Some speaker)
  then {| merged_lines := merged_lines st;
          current_speaker := current_speaker st;
          current_text := current_text st ++ text ++ " " |}
  else {| merged_lines :=
            match current_speaker st with
            | Some _ => merged_lines st ++ [format_line (current_speaker st) (current_text st)]
            | None => merged_lines st
            end;
          current_speaker := Some speaker;
          current_text := text ++ " " |}.

Definition merge_init : MergeState :=
  {| merged_lines := []; current_speaker := None; current_text := "" |}.

Definition merge_finish (st : MergeState) : list string :=
  match current_text st with
  | EmptyString => merged_lines st
  | _ => merged_lines st ++ [format_line (current_speaker st) (current_text st)]
  end.

(** The second loop and the final join, on segments that carry a speaker. *)
Definition merge_segments (segs : list Segment) : string :=
  PyStr.join (String "010" (String "010" "")) (merge_finish (foldl merge_step merge_init segs)).

(** [assign_speakers_to_transcription]: the segments are updated in place,
    so the function returns them next to the text. *)
Definition assign_speakers_to_transcription
    (transcription_segments : list Segment) (diarization_results : list Interval)
  : list Segment * string :=
  match transcription_segments with
  | [] => ([], "")
  | _ =>
      let segs := map (assign_speaker diarization_results) transcription_segments in
      (segs, merge_segments segs)
  end.

(** ** Exceptions, files and the world *)

Inductive exn : Type :=
| ValueError                          (* [float] of an unparsable ffprobe output *)
| ZeroDivisionError
| FileNotFoundError (path : string)   (* [os.path.getsize], [os.remove] *)
| KeyError (key : string)
| OverflowError                       (* [int] of an infinite float *)
| ExternalError (msg : string).       (* raised by a model or another collaborator *)

(** What the code can observe of a file: the duration that ffprobe prints
    ([None] when the output is not a number) and the size in bytes. *)
Record File := mkFile {
  file_duration : option Q;
  file_size : Z
}.

(** The two ffmpeg invocations of the program. *)
Inductive Command : Type :=
| FfmpegSlice (input : string) (ss t : Q) (output : string)
| FfmpegConvert (input : string) (sr : Z) (output : string).

(** The user-interface calls that the modelled handlers make. *)
Inductive UiEvent : Type :=
| Spinner (msg : string)
| Progress (percent : Z)
| StWarning (msg : string)
| StError (e : exn)
| StSuccess (msg : string)
| Markdown (msg : string)
| Info (msg : string)
| Subheader (msg : string)
| Table (rows : list Interval)
| TextArea (label value : string).

(** [st.session_state]: the attributes that [main] creates. *)
Record SessionState := mkSessionState {
  transcription_done : bool;
  transcription_text : string;
  transcription_segments : list Segment;
  diarization_results : list Interval;
  final_transcript : string;
  speaker_map : gmap string string
}.

(** The values that [main] stores on the first run and before every new
    transcription. *)
Definition cleared_session : SessionState :=
  {| transcription_done := false;
     transcription_text := "";
     transcription_segments := [];
     diarization_results := [];
     final_transcript := "";
     speaker_map := ∅ |}.

Record World := mkWorld {
  fs : gmap string File;
  commands : list Command;
  ui : list UiEvent;
  session : option SessionState   (* [None]: the attributes do not exist yet *)
}.

(** State and exceptions.  The world reached at the raise is returned with
    the exception. *)
Definition M (A : Type) : Type := World -> World * (exn + A).

#[global] Instance M_ret : MRet M := fun A a w => (w, inr a).
#[global] Instance M_bind : MBind M := fun A B k m w =>
  match m w with
  | (w', inl e) => (w', inl e)
  | (w', inr a) => k a w'
  end.

Definition raise {A} (e : exn) : M A := fun w => (w, inl e).

(** [try: m except Exception as e: h e] *)
Definition try_except {A} (m : M A) (h : exn -> M A) : M A := fun w =>
  match m w with
  | (w', inl e) => h e w'
  | r => r
  end.

Definition lift_result {A} (r : exn + A) : M A := fun w => (w, r).

Definition get_fs : M (gmap string File) := fun w => (w, inr (fs w)).

Definition put_fs (f : gmap string File) : M unit := fun w =>
  ({| fs := f; commands := commands w; ui := ui w; session := session w |}, inr tt).

(** [subprocess.run(cmd, stdout=PIPE, stderr=PIPE)]: the command is issued
    and its exit status is not looked at.  The programs ffprobe and ffmpeg
    are taken to be installed, so that the call itself does not raise. *)
Definition subprocess_run (c : Command) : M unit := fun w =>
  ({| fs := fs w; commands := commands w ++ [c]; ui := ui w; session := session w |},
   inr tt).

Definition emit (e : UiEvent) : M unit := fun w =>
  ({| fs := fs w; commands := commands w; ui := ui w ++ [e]; session := session w |},
   inr tt).

Definition get_session : M SessionState := fun w =>
  (w, inr (default cleared_session (session w))).

Definition put_session (s : SessionState) : M unit := fun w =>
  ({| fs := fs w; commands := commands w; ui := ui w; session := Some s |}, inr tt).

(** A [for] loop threading the loop variables [s]. *)
Fixpoint for_each {A S} (l : list A) (body : S -> A -> M S) (s : S) : M S :=
  match l with
  | [] => mret s
  | x :: rest => s' ← body s x; for_each rest body s'
  end.

(** [tempfile.NamedTemporaryFile(delete=False, ...)]: a new empty file under
    a name that is not in use; [content] is what is written before closing.
    The temporary directory is taken to be writable. *)
Definition named_temporary_file (content : File) : M string :=
  f ← get_fs;
  let name := fresh (dom f) in
  put_fs (<[name := content]> f);;
  mret name.

Definition empty_file : File := {| file_duration := None; file_size := 0 |}.

(** [os.remove(path)] *)
Definition os_remove (path : string) : M unit :=
  f ← get_fs;
  match f !! path with
  | Some _ => put_fs (delete path f)
  | None => raise (FileNotFoundError path)
  end.

(** [os.path.getsize(path)] *)
Definition os_path_getsize (path : string) : M Z :=
  f ← get_fs;
  match f !! path with
  | Some file => mret (file_size file)
  | None => raise (FileNotFoundError path)
  end.

(** [get_audio_duration]: ffprobe prints the duration, or an error text on
    which [float] raises.  What ffprobe prints for a path is a datum of the
    file system; the number is returned as it is printed. *)
Definition get_audio_duration (file_path : string) : M Q :=
  f ← get_fs;
  match f !! file_path with
  | Some {| file_duration := Some d |} => mret d
  | _ => raise ValueError
  end.

(** ** The chunker *)

(** Python's [/] on numbers. *)
Definition py_div (x y : Q) : M Q :=
  if Qeq_bool y 0 then raise ZeroDivisionError else mret (x / y)%Q.

(** Python's [min(a, b)]: the first argument wins a tie. *)
Definition py_min (a b : Q) : Q := if Qle_bool a b then a else b.

(** [range(n)] *)
Definition py_range (n : Z) : list Z := map Z.of_nat (seq 0 (Z.to_nat n)).

Definition default_max_duration : Q := 600.
Definition default_max_file_size : Z := 100 * 1024 * 1024.

(** One iteration of the slicing loop. *)
Definition segment_audio_body (file_path : string) (total_duration segment_duration : Q)
    (segments : list (string * Q)) (i : Z) : M (list (string * Q)) :=
  let chunk_start := (inject_Z i * segment_duration)%Q in
  let current_duration := py_min segment_duration (total_duration - chunk_start)%Q in
  segment_path ← named_temporary_file empty_file;
  subprocess_run (FfmpegSlice file_path chunk_start current_duration segment_path);;
  mret (segments ++ [(segment_path, chunk_start)])%list.

Definition segment_audio (file_path : string) (max_duration : Q) (max_file_size : Z)
  : M (list (string * Q)) :=
  total_duration ← get_audio_duration file_path;
  file_size ← os_path_getsize file_path;
  if Qle_bool total_duration max_duration && (file_size <=? max_file_size)%Z
  then mret [(file_path, 0%Q)]
  else
    ratio ← py_div total_duration max_duration;
    let num_segments := Qceiling ratio in
    segment_duration ← py_div total_duration (inject_Z num_segments);
    for_each (py_range num_segments)
             (segment_audio_body file_path total_duration segment_duration) [].

(** The (offset, duration) plan that a run of [segment_audio] carried out:
    the [-ss] and [-t] arguments of its slicing commands. *)
Definition slice_plan (cs : list Command) : list (Q * Q) :=
  omap (fun c => match c with
                 | FfmpegSlice _ ss t _ => Some (ss, t)
                 | FfmpegConvert _ _ _ => None
                 end) cs.

(** ** The chunker in binary64 arithmetic *)

(** Python's [float] is an IEEE 754 binary64 number.  A finite double is
    modelled by the rational that it denotes, and an operation on doubles by
    the exact operation followed by [round]: rounding to the nearest double,
    a tie going to the even significand.  The doubles of a binade
    [2^k <= x < 2^(k+1)] are the multiples of [2^(k-52)], and below the
    normal range the multiples of [2^-1074].  [round] does not saturate: a
    rounded value beyond [max_float] stands for Python's [inf]; [nan] and
    the sign of zero are not represented. *)
Module Binary64.

Definition prec : Z := 53.
Definition emin : Z := -1074.

Definition pow2 (e : Z) : Q := (2 ^ e)%Q.

(** The integer nearest to [y], a tie going to the even one. *)
Definition round_half_even (y : Q) : Z :=
  let f := Qfloor y in
  match Qcompare (y - inject_Z f) (1 # 2) with
  | Lt => f
  | Gt => (f + 1)%Z
  | Eq => if Z.even f then f else (f + 1)%Z
  end.

(** For [x > 0] the exponent [e] with [2^52 <= x / 2^e < 2^53]; the binary
    logarithms of numerator and denominator give it up to one. *)
Definition binade (x : Q) : Z :=
  let e0 := (Z.log2 (Qnum x) - Z.log2 (Zpos (Qden x)) - prec)%Z in
  if (Qfloor (x * pow2 (- e0)) <? 2 ^ prec)%Z then e0 else (e0 + 1)%Z.

(** The exponent of the unit in the last place at [x]. *)
Definition exponent (x : Q) : Z := Z.max (binade x) emin.

Definition round_pos (x : Q) : Q :=
  let e := exponent x in
  (inject_Z (round_half_even (x * pow2 (- e))) * pow2 e)%Q.

Definition round (x : Q) : Q :=
  match Qcompare x 0 with
  | Eq => 0%Q
  | Gt => round_pos x
  | Lt => (- round_pos (- x))%Q
  end.

(** The largest double, [(2^53 - 1) * 2^971]. *)
Definition max_float : Q := (inject_Z (2 ^ 53 - 1) * pow2 971)%Q.

(** [float(x)] of a number, and of an [int] in an operation with a float. *)
Definition of_number (x : Q) : Q := round x.
Definition of_int (i : Z) : Q := round (inject_Z i).

Definition add (x y : Q) : Q := round (x + y).
Definition sub (x y : Q) : Q := round (x - y).
Definition mul (x y : Q) : Q := round (x * y).

(** [x / y] on floats. *)
Definition div (x y : Q) : M Q :=
  if Qeq_bool y 0 then raise ZeroDivisionError else mret (round (x / y)).

(** [int(np.ceil(x))]: [int] raises on an infinite float. *)
Definition int_ceil (x : Q) : M Z :=
  if Qle_bool (- max_float) x && Qle_bool x max_float
  then mret (Qceiling x)
  else raise OverflowError.

(** [float(result.stdout.strip())]: the double nearest to the number that
    ffprobe prints, which is what [get_audio_duration] above returns. *)
Definition get_audio_duration (file_path : string) : M Q :=
  printed ← get_audio_duration file_path;
  mret (round printed).

(** [segment_audio] with the arithmetic of lines 90 to 96 as the interpreter
    carries it out; the control flow and the effects are those of
    [segment_audio] above.  [max_duration] is an [int], as the default 600,
    or a float: it enters the division as a double.  [i * segment_duration]
    multiplies the double of [i]. *)
Definition segment_audio_body (file_path : string) (total_duration segment_duration : Q)
    (segments : list (string * Q)) (i : Z) : M (list (string * Q)) :=
  let chunk_start := mul (of_int i) segment_duration in
  let current_duration := py_min segment_duration (sub total_duration chunk_start) in
  segment_path ← named_temporary_file empty_file;
  subprocess_run (FfmpegSlice file_path chunk_start current_duration segment_path);;
  mret (segments ++ [(segment_path, chunk_start)])%list.

Definition segment_audio (file_path : string) (max_duration : Q) (max_file_size : Z)
  : M (list (string * Q)) :=
  total_duration ← get_audio_duration file_path;
  file_size ← os_path_getsize file_path;
  if Qle_bool total_duration max_duration && (file_size <=? max_file_size)%Z
  then mret [(file_path, 0%Q)]
  else
    ratio ← div total_duration (of_number max_duration);
    num_segments ← int_ceil ratio;
    segment_duration ← div total_duration (of_int num_segments);
    for_each (py_range num_segments)
             (segment_audio_body file_path total_duration segment_duration) [].

End Binary64.

(** ** Transcription *)

(** The dict returned by [model.transcribe]: ["text"] is read with
    [result[...]], ["segments"] with [result.get("segments", [])]. *)
Record WhisperResult := mkWhisperResult {
  res_text : string;
  res_segments : option (list Segment)
}.

(** [s["start"] += chunk_start; s["end"] += chunk_start] *)
Definition shift_segment (chunk_start : Q) (s : Segment) : Segment :=
  {| seg_start := (seg_start s + chunk_start)%Q;
     seg_end := (seg_end s + chunk_start)%Q;
     seg_text := seg_text s;
     seg_speaker := seg_speaker s |}.

Definition decimal (n : nat) : string := pretty n.

Section Transcription.

(** The transcription model: [model.transcribe(path, fp16=False)]. *)
Variable model_transcribe : string -> exn + WhisperResult.

Definition transcribe_audio_body (file_path : string) (total_segments : nat)
    (acc : string * list Segment) (item : nat * (string * Q))
  : M (string * list Segment) :=
  let '(full_text, transcription_segments) := acc in
  let '(i, (seg, chunk_start)) := item in
  emit (Spinner ("Transcribing segment " ++ decimal (i + 1) ++ "/"
                 ++ decimal total_segments ++ "..."));;
  result ← lift_result (model_transcribe seg);
  let seg_text := PyStr.strip (res_text result) in
  let full_text := full_text ++ seg_text ++ " " in
  let seg_segments := default [] (res_segments result) in
  let transcription_segments :=
    (transcription_segments ++ map (shift_segment chunk_start) seg_segments)%list in
  emit (Progress (Qfloor ((inject_Z (Z.of_nat (i + 1)) / inject_Z (Z.of_nat total_segments)) * 100)));;
  (if decide (seg = file_path) then mret tt else os_remove seg);;
  mret (full_text, transcription_segments).

Definition transcribe_audio (file_path : string) : M (string * list Segment) :=
  segments ← segment_audio file_path default_max_duration default_max_file_size;
  if decide (length segments = 1%nat)
  then
    emit (Spinner "Transcribing audio...");;
    result ← lift_result (model_transcribe file_path);
    emit (Progress 100);;
    mret (PyStr.strip (res_text result), default [] (res_segments result))
  else
    '(full_text, transcription_segments) ←
      for_each (imap (fun i s => (i, s)) segments)
               (transcribe_audio_body file_path (length segments)) ("", []);
    mret (PyStr.strip full_text, transcription_segments).

End Transcription.

(** [convert_to_wav] *)
Definition convert_to_wav (input_path : string) (sr : Z) : M string :=
  wav_path ← named_temporary_file empty_file;
  subprocess_run (FfmpegConvert input_path sr wav_path);;
  mret wav_path.

(** ** Speaker renaming *)

(** [sorted({...})]: ascending order of the strings, duplicates dropped. *)
Fixpoint insert_sorted (x : string) (l : list string) : list string :=
  match l with
  | [] => [x]
  | y :: rest =>
      if String.ltb x y then x :: l
      else if String.eqb x y then l
      else y :: insert_sorted x rest
  end.

Definition sorted_set (l : list string) : list string := foldr insert_sorted [] l.

(** [sorted({d["Speaker"] for d in st.session_state.diarization_results})] *)
Definition speaker_labels_of (results : list Interval) : list string :=
  sorted_set (map d_speaker results).

(** [m[key]] on a dict. *)
Definition dict_get (m : gmap string string) (key : string) : exn + string :=
  match m !! key with
  | Some v => inr v
  | None => inl (KeyError key)
  end.

(** The body of the renaming loop:
    [updated_text = updated_text.replace(lbl + ":", new_name + ":")]. *)
Definition rename_step (speaker_map : gmap string string)
    (updated_text : exn + string) (lbl : string) : exn + string :=
  match updated_text with
  | inl e => inl e
  | inr t =>
      match dict_get speaker_map lbl with
      | inl e => inl e
      | inr new_name => inr (PyStr.replace (lbl ++ ":") (new_name ++ ":") t)
      end
  end.

(** The renaming loop over [speaker_labels], one label after the other, each
    on the text that the previous replacement produced. *)
Definition rename_speakers (speaker_labels : list string)
    (speaker_map : gmap string string) (transcript : string) : exn + string :=
  foldl (rename_step speaker_map) (inr transcript) speaker_labels.

(** ** The handlers of [main] *)

(** The widget values of one run of the script. *)
Record Inputs := mkInputs {
  uploaded_file : option File;          (* the bytes of the upload *)
  model_choice : string;
  enable_diarization : bool;
  transcribe_button : bool;
  apply_rename_button : bool;
  text_input : string -> option string  (* what the user typed for a label *)
}.

Section Main.

(** The selected entry of [LANG_DICT]. *)
Variable text : string -> string.
(** [whisper.load_model] and the model that it returns. *)
Variable whisper_load_model : string -> exn + (string -> exn + WhisperResult).
(** ["Pipeline" in globals()]: whether pyannote could be imported. *)
Variable pipeline_imported : bool.
(** [Pipeline.from_pretrained] and the pipeline that it returns; the
    pipeline maps a wav path to the rows built from [itertracks]. *)
Variable pipeline_from_pretrained : exn + (string -> exn + list Interval).

Definition modify_session (f : SessionState -> SessionState) : M unit :=
  s ← get_session; put_session (f s).

(** The [try] block of the diarization step. *)
Definition diarization_try (file_path : string) : M unit :=
  pipeline ← lift_result pipeline_from_pretrained;
  diarization_wav ← convert_to_wav file_path 16000;
  results ← lift_result (pipeline diarization_wav);
  modify_session (fun s =>
    {| transcription_done := transcription_done s;
       transcription_text := transcription_text s;
       transcription_segments := transcription_segments s;
       diarization_results := results;
       final_transcript := final_transcript s;
       speaker_map := speaker_map s |});;
  os_remove diarization_wav.

(** [if st.button(text["transcribe_button"]): ...] *)
Definition transcribe_handler (inp : Inputs) : M unit :=
  match uploaded_file inp with
  | None => emit (StWarning (text "warn_upload"))
  | Some content =>
      put_session cleared_session;;
      file_path ← named_temporary_file content;
      emit (Progress 0);;
      emit (Spinner "Loading Whisper model...");;
      model ← lift_result (whisper_load_model (model_choice inp));
      '(t, segs) ← transcribe_audio model file_path;
      put_session
        {| transcription_done := true;
           transcription_text := t;
           transcription_segments := segs;
           diarization_results := [];
           final_transcript := t;
           speaker_map := ∅ |};;
      (if enable_diarization inp && pipeline_imported
       then
         emit (Spinner "Performing diarization. This may take some time...");;
         try_except (diarization_try file_path) (fun e => emit (StError e))
       else mret tt);;
      os_remove file_path;;
      emit (StSuccess (text "transcription_done"))
  end.

Definition set_final_transcript (t : string) : M unit :=
  modify_session (fun s =>
    {| transcription_done := transcription_done s;
       transcription_text := transcription_text s;
       transcription_segments := transcription_segments s;
       diarization_results := diarization_results s;
       final_transcript := t;
       speaker_map := speaker_map s |}).

(** The display of the transcript. *)
Definition display_results : M unit :=
  s ← get_session;
  match diarization_results s with
  | _ :: _ =>
      emit (Subheader (text "diarization_results"));;
      emit (Table (diarization_results s));;
      (match transcription_segments s with
       | _ :: _ =>
           let '(segs, merged_transcript) :=
             assign_speakers_to_transcription (transcription_segments s)
                                              (diarization_results s) in
           put_session
             {| transcription_done := transcription_done s;
                transcription_text := transcription_text s;
                transcription_segments := segs;
                diarization_results := diarization_results s;
                final_transcript := merged_transcript;
                speaker_map := speaker_map s |}
       | [] => set_final_transcript (transcription_text s)
       end);;
      emit (Subheader (text "speaker_labeled_transcript"));;
      s' ← get_session;
      emit (TextArea "Transcript" (final_transcript s'))
  | [] =>
      emit (Subheader (text "transcript_no_diar"));;
      emit (TextArea "Transcript" (transcription_text s));;
      set_final_transcript (transcription_text s)
  end.

Definition set_speaker_map (m : gmap string string) : M unit :=
  modify_session (fun s =>
    {| transcription_done := transcription_done s;
       transcription_text := transcription_text s;
       transcription_segments := transcription_segments s;
       diarization_results := diarization_results s;
       final_transcript := final_transcript s;
       speaker_map := m |}).

(** [st.session_state.speaker_map[lbl] = st.text_input(f"{lbl}:",
    value=st.session_state.speaker_map[lbl], ...)] *)
Definition rename_input (inp : Inputs) (_ : unit) (lbl : string) : M unit :=
  s ← get_session;
  value ← lift_result (dict_get (speaker_map s) lbl);
  set_speaker_map (<[lbl := default value (text_input inp lbl)]> (speaker_map s)).

(** The speaker renaming section. *)
Definition rename_section (inp : Inputs) : M unit :=
  s ← get_session;
  let speaker_labels := speaker_labels_of (diarization_results s) in
  match speaker_labels with
  | [] => mret tt
  | _ =>
      emit (Markdown "---");;
      emit (Markdown ("### " ++ text "rename_speakers_header"));;
      emit (Info (text "rename_speakers_info"));;
      (if decide (speaker_map s = ∅)
       then set_speaker_map (foldl (fun m lbl => <[lbl := lbl]> m) (speaker_map s) speaker_labels)
       else mret tt);;
      for_each speaker_labels (rename_input inp) tt;;
      (if apply_rename_button inp
       then
         s' ← get_session;
         updated_text ← lift_result
           (rename_speakers speaker_labels (speaker_map s') (final_transcript s'));
         set_final_transcript updated_text;;
         emit (StSuccess "Done!")
       else mret tt);;
      s'' ← get_session;
      emit (Subheader (text "renamed_transcript"));;
      emit (TextArea "Transcript (Renamed)" (final_transcript s''))
  end.

(** One run of [main].  The widgets that only draw (title, uploader, audio
    player, selectors) and the document downloads after the renaming
    section are not part of the model. *)
Definition main (inp : Inputs) : M unit :=
  (fun w => match session w with
            | None => put_session cleared_session w
            | Some _ => (w, inr tt)
            end);;
  (if transcribe_button inp then transcribe_handler inp else mret tt);;
  s ← get_session;
  if transcription_done s
  then display_results;; rename_section inp
  else mret tt.

End Main.

(** ** Notions used to state the properties *)

(** The closed time range of [d] contains [m]. *)
Definition contains (d : Interval) (m : Q) : Prop :=
  (d_start d <= m)%Q /\ (m <= d_end d)%Q.

(** [d] is the first interval of [ds], in the order given, that contains [m]. *)
Definition first_containing (m : Q) (ds : list Interval) (d : Interval) : Prop :=
  exists pre post,
    ds = (pre ++ d :: post)%list /\ Forall (fun p => ~ contains p m) pre /\ contains d m.

(** The assignment rule read literally: the label of the first containing
    interval, whatever it is, and ["Unknown"] when no interval contains the
    midpoint. *)
Definition first_match_rule (ds : list Interval) (seg seg' : Segment) : Prop :=
  (forall d, first_containing (midpoint seg) ds d ->
             seg_speaker seg' = Some (d_speaker d)) /\
  (Forall (fun d => ~ contains d (midpoint seg)) ds ->
   seg_speaker seg' = Some "Unknown").

(** The assignment rule of the code: an empty label counts as no label. *)
Definition first_match_rule_nonempty (ds : list Interval) (seg seg' : Segment) : Prop :=
  (forall d, first_containing (midpoint seg) ds d -> d_speaker d <> "" ->
             seg_speaker seg' = Some (d_speaker d)) /\
  (forall d, first_containing (midpoint seg) ds d -> d_speaker d = "" ->
             seg_speaker seg' = Some "Unknown") /\
  (Forall (fun d => ~ contains d (midpoint seg)) ds ->
   seg_speaker seg' = Some "Unknown").

(** Only the speaker changes. *)
Definition same_span_and_text (seg seg' : Segment) : Prop :=
  seg_start seg' = seg_start seg /\ seg_end seg' = seg_end seg /\
  seg_text seg' = seg_text seg.

(** Maximal runs of consecutive entries with the same speaker: a run is the
    speaker and the texts of its entries, in order. *)
Definition cons_run (r : string * list string) (rs : list (string * list string))
  : list (string * list string) :=
  match rs with
  | (sp', ts') :: rest =>
      if decide (r.1 = sp') then (r.1, (r.2 ++ ts')%list) :: rest else r :: rs
  | [] => [r]
  end.

Definition runs (l : list (string * string)) : list (string * list string) :=
  foldr (fun e rs => cons_run (e.1, [e.2]) rs) [] l.

(** What the second loop reads of a segment: its speaker and its trimmed text. *)
Definition labelled (seg : Segment) : string * string :=
  (default "Unknown" (seg_speaker seg), PyStr.strip (default "" (seg_text seg))).

Definition blank_line : string := String "010" (String "010" "").

(** The paragraph of a run read literally: the trimmed texts joined by
    single spaces. *)
Definition paragraph_joined (r : string * list string) : string :=
  r.1 ++ ": " ++ PyStr.join " " r.2.

(** The paragraph of a run as the code prints it: the joined text is trimmed
    once more. *)
Definition paragraph_trimmed (r : string * list string) : string :=
  r.1 ++ ": " ++ PyStr.strip (PyStr.join " " r.2).

Definition coalesce (paragraph : string * list string -> string)
    (segs : list Segment) : string :=
  PyStr.join blank_line (map paragraph (runs (map labelled segs))).

(** The text that the second loop has accumulated for the texts [ts] of the
    current run: each one followed by a blank. *)
Definition spaced (ts : list string) : string :=
  foldr (fun t r => t ++ " " ++ r) "" ts.

(** The file system after temporary files [ps] were created, empty, in it. *)
Definition with_temps (f : gmap string File) (ps : list string) : gmap string File :=
  foldl (fun m p => <[p := empty_file]> m) f ps.

(** The start offset and the duration of chunk [i], as the loop body
    computes them. *)
Definition chunk_start_of (segment_duration : Q) (i : Z) : Q :=
  (inject_Z i * segment_duration)%Q.

Definition current_duration_of (total_duration segment_duration : Q) (i : Z) : Q :=
  py_min segment_duration (total_duration - chunk_start_of segment_duration i)%Q.

Definition Qsum (l : list Q) : Q := foldr Qplus 0%Q l.

(** The start offset and the duration of chunk [i], as the loop body
    computes them in binary64. *)
Definition rounded_chunk_start (segment_duration : Q) (i : Z) : Q :=
  Binary64.mul (Binary64.of_int i) segment_duration.

Definition rounded_duration (total_duration segment_duration : Q) (i : Z) : Q :=
  py_min segment_duration
         (Binary64.sub total_duration (rounded_chunk_start segment_duration i)).

(** Half the distance from 1 to the next double, [2^-53]: the relative error
    of one rounding in the normal range, which starts at [2^-1022]. *)
Definition unit_roundoff : Q := 1 # 9007199254740992.
Definition min_normal : Q := Binary64.pow2 (-1022).

(** The floating tolerance of a plan for a recording of [total_duration]
    seconds: the relative error [2^-48]. *)
Definition tolerance (total_duration : Q) : Q :=
  (total_duration * (1 # 281474976710656))%Q.

(** [a] and [b] agree within the tolerance [t]. *)
Definition within (t a b : Q) : Prop := (- t <= a - b <= t)%Q.

(** A world that holds one recording, ["in.mp3"], and nothing else. *)
Definition recording (d : Q) (sz : Z) : World :=
  mkWorld {["in.mp3" := mkFile (Some d) sz]} [] [] None.

(** Simultaneous substitution, for comparison with the loop of the code:
    the text is scanned once; where the pattern "<label>:" of a label starts,
    the pattern is replaced by "<new name>:" and the scan goes on behind it,
    so that replaced text is never looked at again.  [match_label] picks the
    first label, in the order of [labels], whose pattern starts at [s]. *)
Fixpoint match_label (labels : list string) (m : gmap string string) (s : string)
  : option (string * string) :=
  match labels with
  | [] => None
  | lbl :: rest =>
      match m !! lbl with
      | Some new_name =>
          if String.prefix (lbl ++ ":") s then Some (lbl ++ ":", new_name ++ ":")
          else match_label rest m s
      | None => match_label rest m s
      end
  end.

Fixpoint simultaneous_scan (labels : list string) (m : gmap string string)
    (skip : nat) (s : string) : string :=
  match s with
  | EmptyString => EmptyString
  | String c s' =>
      match skip with
      | S k => simultaneous_scan labels m k s'
      | O =>
          match match_label labels m s with
          | Some (old, new) => new ++ simultaneous_scan labels m (String.length old - 1) s'
          | None => String c (simultaneous_scan labels m 0 s')
          end
      end
  end.

Definition rename_simultaneous (labels : list string) (m : gmap string string)
    (transcript : string) : string :=
  simultaneous_scan labels m 0 transcript.

(** Ascending order of labels. *)
Definition label_lt (a b : string) : Prop := String.ltb a b = true.

(** A diarization of two speakers, a transcript of two segments, and a user
    who renames SPEAKER_00 to SPEAKER_01 and SPEAKER_01 to Bob. *)
Definition two_speakers : list Interval :=
  [mkInterval 0 2 "SPEAKER_00"; mkInterval 2 4 "SPEAKER_01"].

Definition two_segments : list Segment :=
  [mkSegment 0 2 (Some "hi") None; mkSegment 2 4 (Some "there") None].

Definition swap_map : gmap string string :=
  <["SPEAKER_01" := "Bob"]> (<["SPEAKER_00" := "SPEAKER_01"]> ∅).

Definition swap_inputs : Inputs :=
  {| uploaded_file := None;
     model_choice := "base";
     enable_diarization := true;
     transcribe_button := false;
     apply_rename_button := true;
     text_input := fun lbl => swap_map !! lbl |}.

Definition transcribed_session : SessionState :=
  {| transcription_done := true;
     transcription_text := "hi there";
     transcription_segments := two_segments;
     diarization_results := two_speakers;
     final_transcript := "hi there";
     speaker_map := ∅ |}.

(** No file is left behind by a transcription: every file that exists
    afterwards existed before. *)
Definition no_temp_leak (model : string -> exn + WhisperResult) (fp : string)
    (w : World) : Prop :=
  forall p, is_Some (fs (transcribe_audio model fp w).1 !! p) -> is_Some (fs w !! p).

(** A model that transcribes every file, and one that fails on the file [bad]. *)
Definition model_ok : string -> exn + WhisperResult :=
  fun _ => inr (mkWhisperResult "ok" (Some [])).

Definition model_failing_on (bad : string) : string -> exn + WhisperResult :=
  fun p => if decide (p = bad) then inl (ExternalError "out of memory") else model_ok p.

(** The world in which [main] starts the transcription of an upload: the
    session is cleared, the upload is stored in a new temporary file, and the
    progress bar and the loading spinner are shown. *)
Definition uploaded (w : World) (content : File) : World :=
  {| fs := <[fresh (dom (fs w)) := content]> (fs w);
     commands := commands w;
     ui := (ui w ++ [Progress 0]) ++ [Spinner "Loading Whisper model..."];
     session := Some cleared_session |}.

(** The session after a transcription without diarization results. *)
Definition plain_session (t : string) (segs : list Segment) : SessionState :=
  {| transcription_done := true;
     transcription_text := t;
     transcription_segments := segs;
     diarization_results := [];
     final_transcript := t;
     speaker_map := ∅ |}.

(** A first run of the application: nothing stored yet, a short recording
    uploaded, diarization enabled. *)
Definition fresh_world : World := mkWorld ∅ [] [] None.

Definition upload_inputs : Inputs :=
  {| uploaded_file := Some (mkFile (Some 100%Q) 10);
     model_choice := "base";
     enable_diarization := true;
     transcribe_button := true;
     apply_rename_button := false;
     text_input := fun _ => None |}.

(** The value that a computation returned, [dflt] when it raised. *)
Definition returned {A} (r : exn + A) (dflt : A) : A :=
  match r with
  | inr a => a
  | inl _ => dflt
  end.

(** What [transcribe_audio] returns for one result of the model. *)
Definition whisper_output (r : WhisperResult) : string * list Segment :=
  (PyStr.strip (res_text r), default [] (res_segments r)).

(** The result of the model on [p], for the paths on which it succeeds. *)
Definition transcript_of (model : string -> exn + WhisperResult) (p : string)
  : WhisperResult :=
  returned (model p) (mkWhisperResult "" None).

(** A model whose transcript of a file is the name of the file, in one
    segment from 0 to 1. *)
Definition model_echo : string -> exn + WhisperResult :=
  fun p => inr (mkWhisperResult (" " ++ p ++ " ") (Some [mkSegment 0 1 (Some p) None])).

(** A string without whitespace at either end. *)
Definition trimmed (s : string) : Prop := PyStr.lstrip s = s /\ PyStr.rstrip s = s.

(** The session that the handlers read: the stored one, or the cleared one
    when nothing is stored. *)
Definition session_of (w : World) : SessionState := default cleared_session (session w).

(** The computation [m] leaves the observation [f] of the world as it is,
    whether it returns or raises. *)
Definition preserves {A B} (f : World -> B) (m : M A) : Prop :=
  forall w, f (m w).1 = f w.

(** The part of the world that lies outside the user interface: the files
    and the commands issued. *)
Definition outside (w : World) : gmap string File * list Command := (fs w, commands w).

(** The session after the display of the transcript: the merged transcript
    when there are diarization results and segments, the plain one otherwise. *)
Definition displayed (s : SessionState) : SessionState :=
  match diarization_results s, transcription_segments s with
  | _ :: _, _ :: _ =>
      {| transcription_done := transcription_done s;
         transcription_text := transcription_text s;
         transcription_segments :=
           (assign_speakers_to_transcription (transcription_segments s)
                                             (diarization_results s)).1;
         diarization_results := diarization_results s;
         final_transcript :=
           (assign_speakers_to_transcription (transcription_segments s)
                                             (diarization_results s)).2;
         speaker_map := speaker_map s |}
  | _, _ =>
      {| transcription_done := transcription_done s;
         transcription_text := transcription_text s;
         transcription_segments := transcription_segments s;
         diarization_results := diarization_results s;
         final_transcript := transcription_text s;
         speaker_map := speaker_map s |}
  end.

(** The speaker map after the text inputs of the rename section were read:
    an empty map is first filled with every label as its own name, then the
    entry of each label becomes what the user typed for it, if anything. *)
Definition update_name (inp : Inputs) (m : gmap string string) (lbl : string)
  : gmap string string :=
  match m !! lbl with
  | Some v => <[lbl := default v (text_input inp lbl)]> m
  | None => m
  end.

Definition typed_names (inp : Inputs) (labels : list string) (m : gmap string string)
  : gmap string string :=
  foldl (update_name inp)
        (if decide (m = ∅) then foldl (fun m lbl => <[lbl := lbl]> m) m labels else m)
        labels.

(** The speaker map is empty or has an entry for every label of the
    diarization results. *)
Definition map_covers (s : SessionState) : Prop :=
  speaker_map s = ∅ \/
  forall lbl, lbl ∈ speaker_labels_of (diarization_results s) -> is_Some (speaker_map s !! lbl).

(** A session in which the renaming of [swap_map] was applied, and a run in
    which no button is pressed. *)
Definition renamed_session : SessionState :=
  {| transcription_done := true;
     transcription_text := "hi there";
     transcription_segments := two_segments;
     diarization_results := two_speakers;
     final_transcript := "Bob: hi" ++ blank_line ++ "Bob: there";
     speaker_map := swap_map |}.

Definition idle_inputs : Inputs :=
  {| uploaded_file := None;
     model_choice := "base";
     enable_diarization := true;
     transcribe_button := false;
     apply_rename_button := false;
     text_input := fun _ => None |}.

(** The inputs of a run, with the transcribe button released. *)
Definition no_transcribe (inp : Inputs) : Inputs :=
  {| uploaded_file := uploaded_file inp;
     model_choice := model_choice inp;
     enable_diarization := enable_diarization inp;
     transcribe_button := false;
     apply_rename_button := apply_rename_button inp;
     text_input := text_input inp |}.

(** The first part of [main]: the session is created if need be, and the
    transcribe button is handled. *)
Definition first_stage (text : string -> string)
    (load : string -> exn + (string -> exn + WhisperResult)) (pimp : bool)
    (pfp : exn + (string -> exn + list Interval)) (inp : Inputs) : M unit :=
  (fun w => match session w with
            | None => put_session cleared_session w
            | Some _ => (w, inr tt)
            end);;
  (if transcribe_button inp then transcribe_handler text load pimp pfp inp else mret tt).

(** The computation [m] keeps the property [P] of the world, whether it
    returns or raises. *)
Definition keeps {A} (P : World -> Prop) (m : M A) : Prop :=
  forall w, P w -> P (m w).1.

(** A session is stored and its speaker map is empty. *)
Definition map_empty (w : World) : Prop :=
  exists s, session w = Some s /\ speaker_map s = ∅.

(** The world after the upload of [upload_inputs] was transcribed by
    [model_ok] in a first run. *)
Definition transcribed_upload : World :=
  (transcribe_audio model_ok (fresh (dom (fs fresh_world)))
     (uploaded fresh_world (mkFile (Some 100%Q) 10))).1.

(** ** The documents *)

(** [s.split(sep)] for a non-empty separator: the pieces between the
    occurrences of [sep] met from left to right.  [cur] is the piece that
    is being read, [skip] counts the characters of a separator that was just
    found. *)
Fixpoint split_scan (sep : string) (skip : nat) (cur : string) (s : string)
  : list string :=
  match s with
  | EmptyString => [cur]
  | String c s' =>
      match skip with
      | S k => split_scan sep k cur s'
      | O =>
          if String.prefix sep s
          then cur :: split_scan sep (String.length sep - 1) "" s'
          else split_scan sep 0 (cur ++ String c "") s'
      end
  end.

Definition str_split (sep s : string) : list string := split_scan sep 0 "" s.

(** The styles used in the PDF: [styles['Title']], [styles['Normal']] and
    the 11 point Helvetica style made for the body. *)
Inductive PdfStyle : Type := StyleTitle | StyleNormal | StyleBody.

Inductive Flowable : Type :=
| PdfParagraph (text : string) (style : PdfStyle)
| PdfSpacer (width height : Z).

Inductive DocxBlock : Type :=
| DocxHeading (text : string) (level : Z)
| DocxParagraph (text : string).

(** The [elements] list of [generate_pdf]; [now] is the formatted time. *)
Definition pdf_elements (now text : string) : list Flowable :=
  foldl (fun elements para =>
           ((elements ++ [PdfParagraph para StyleBody]) ++ [PdfSpacer 1 12])%list)
        [PdfParagraph "Audio Transcription" StyleTitle;
         PdfParagraph ("Generated on " ++ now) StyleNormal;
         PdfSpacer 1 20]
        (str_split blank_line text).

(** The blocks that [generate_docx] adds to the document. *)
Definition docx_blocks (now text : string) : list DocxBlock :=
  foldl (fun doc para => (doc ++ [DocxParagraph para])%list)
        [DocxHeading "Audio Transcription" 0;
         DocxParagraph ("Generated on " ++ now)]
        (str_split blank_line text).

(** A renderer writes its output to a file: only the size of the content is
    kept in the file system, the content itself is handed on. *)
Definition write_file (path : string) (content : string) : M unit :=
  f ← get_fs;
  put_fs (<[path := {| file_duration := None;
                       file_size := Z.of_nat (String.length content) |}]> f).

Section Documents.

(** [pdf.build(elements)] and [doc.save(path)]: the bytes written, or the
    exception of the renderer. *)
Variable pdf_build : list Flowable -> exn + string.
Variable docx_save : list DocxBlock -> exn + string.

Definition generate_pdf (now text : string) : M string :=
  temp_pdf ← named_temporary_file empty_file;
  pdf_bytes ← lift_result (pdf_build (pdf_elements now text));
  write_file temp_pdf pdf_bytes;;
  os_remove temp_pdf;;
  mret pdf_bytes.

Definition generate_docx (now text : string) : M string :=
  let doc := docx_blocks now text in
  temp_docx ← named_temporary_file empty_file;
  docx_bytes ← lift_result (docx_save doc);
  write_file temp_docx docx_bytes;;
  os_remove temp_docx;;
  mret docx_bytes.

(** The download section at the end of [main]: both documents are made from
    the final transcript in every run in which a transcription is stored. *)
Definition downloads (now_pdf now_docx : string) : M (option (string * string)) :=
  s ← get_session;
  if transcription_done s
  then
    pdf_bytes ← generate_pdf now_pdf (final_transcript s);
    docx_bytes ← generate_docx now_docx (final_transcript s);
    mret (Some (pdf_bytes, docx_bytes))
  else mret None.

(** One run of the whole script: [main] as modelled above, followed by the
    download section. *)
Definition main_with_downloads (text : string -> string)
    (load : string -> exn + (string -> exn + WhisperResult)) (pimp : bool)
    (pfp : exn + (string -> exn + list Interval)) (now_pdf now_docx : string)
    (inp : Inputs) : M (option (string * string)) :=
  main text load pimp pfp inp;;
  downloads now_pdf now_docx.

End Documents.

(** The character LF does not occur in [s]. *)
Fixpoint free_of_newline (s : string) : bool :=
  match s with
  | EmptyString => true
  | String c s' => negb (Ascii.eqb c "010"%char) && free_of_newline s'
  end.

(** Renderers that always succeed, and a PDF renderer that rejects every
    document. *)
Definition pdf_ok : list Flowable -> exn + string := fun _ => inr "%PDF".
Definition docx_ok : list DocxBlock -> exn + string := fun _ => inr "PK".
Definition pdf_failing : list Flowable -> exn + string :=
  fun _ => inl (ExternalError "paraparser: syntax error").

(** * Properties *)

(** ** Strings *)

Lemma rstrip_app_blank s : PyStr.rstrip (s ++ " ") = PyStr.rstrip s.
Proof.
  induction s as [|c s IH]; [reflexivity|].
  simpl. now rewrite IH.
Qed.

Lemma strip_app_blank s : PyStr.strip (s ++ " ") = PyStr.strip s.
Proof. unfold PyStr.strip. now rewrite rstrip_app_blank. Qed.

Lemma string_app_cons (x : ascii) (a b : string) :
  String x a ++ b = String x (a ++ b).
Proof. reflexivity. Qed.

Lemma string_app_assoc (a b c : string) : (a ++ b) ++ c = a ++ (b ++ c).
Proof.
  induction a as [|x a IH]; [reflexivity|].
  rewrite !string_app_cons. now rewrite IH.
Qed.

Lemma string_app_nil_r (a : string) : a ++ "" = a.
Proof.
  induction a as [|x a IH]; [reflexivity|].
  rewrite string_app_cons. now rewrite IH.
Qed.

(** ** The merger *)

Lemma scan_intervals_none m ds :
  Forall (fun d => ~ contains d m) ds -> scan_intervals m ds = None.
Proof.
  induction 1 as [|d ds Hd _ IH]; [reflexivity|].
  simpl. destruct (in_interval m d) eqn:E; [|exact IH].
  exfalso. apply Hd. unfold in_interval in E.
  apply andb_true_iff in E as [E1 E2].
  split; now apply Qle_bool_iff.
Qed.

Lemma scan_intervals_first m ds d :
  first_containing m ds d -> scan_intervals m ds = Some (d_speaker d).
Proof.
  intros (pre & post & -> & Hpre & [H1 H2]).
  induction Hpre as [|p pre Hp _ IH]; simpl.
  - unfold in_interval.
    apply Qle_bool_iff in H1, H2. now rewrite H1, H2.
  - destruct (in_interval m p) eqn:E; [|exact IH].
    exfalso. apply Hp. unfold in_interval in E.
    apply andb_true_iff in E as [E1 E2].
    split; now apply Qle_bool_iff.
Qed.

Lemma speaker_or_unknown_nonempty s :
  s <> "" -> speaker_or_unknown (Some s) = s.
Proof. destruct s; [congruence | reflexivity]. Qed.

Lemma assign_speaker_rule ds seg :
  first_match_rule_nonempty ds seg (assign_speaker ds seg).
Proof.
  unfold first_match_rule_nonempty, assign_speaker; simpl.
  repeat split.
  - intros d Hd Hne. rewrite (scan_intervals_first _ _ _ Hd).
    now rewrite speaker_or_unknown_nonempty.
  - intros d Hd He. rewrite (scan_intervals_first _ _ _ Hd), He. reflexivity.
  - intros Hnone. now rewrite scan_intervals_none.
Qed.

Lemma assign_speakers_segments segs ds :
  (assign_speakers_to_transcription segs ds).1 = map (assign_speaker ds) segs.
Proof. destruct segs; reflexivity. Qed.

(** C1, as the code has it.  For every list of segments and every list of
    intervals the merger keeps the segments in place, changing only their
    speaker: a segment gets the label of the first interval, in the order
    given, whose closed range contains its midpoint when that label is not
    empty, and "Unknown" when that label is empty or when no interval
    contains the midpoint. *)
Theorem assign_first_match_nonempty (segs : list Segment) (ds : list Interval) :
  Forall2 (fun seg seg' => same_span_and_text seg seg' /\
                           first_match_rule_nonempty ds seg seg')
          segs (assign_speakers_to_transcription segs ds).1.
Proof.
  rewrite assign_speakers_segments.
  induction segs as [|seg segs IH]; simpl; constructor; [|exact IH].
  split; [now repeat split | apply assign_speaker_rule].
Qed.

(** C1 as stated fails: an interval with an empty label that contains the
    midpoint yields "Unknown", not the interval's label. *)
Lemma assign_first_match_empty_label :
  ~ Forall2 (first_match_rule [mkInterval 0 5 ""])
            [mkSegment 0 2 (Some "hi") None]
            (assign_speakers_to_transcription
               [mkSegment 0 2 (Some "hi") None] [mkInterval 0 5 ""]).1.
Proof.
  intros H. apply Forall2_cons_1 in H as [[H _] _].
  specialize (H (mkInterval 0 5 "")).
  assert (Hf : first_containing (midpoint (mkSegment 0 2 (Some "hi") None))
                 [mkInterval 0 5 ""] (mkInterval 0 5 "")).
  { exists [], []. repeat split; [constructor | |]; vm_compute; congruence. }
  specialize (H Hf). vm_compute in H. congruence.
Qed.

(** *** Coalescing *)

Lemma spaced_app ts t : spaced (ts ++ [t]) = spaced ts ++ t ++ " ".
Proof.
  induction ts as [|x ts IH]; [reflexivity|].
  change (spaced ((x :: ts) ++ [t])) with (x ++ " " ++ spaced (ts ++ [t])).
  change (spaced (x :: ts)) with (x ++ " " ++ spaced ts).
  rewrite IH. now rewrite !string_app_assoc.
Qed.

Lemma spaced_join ts : ts <> [] -> spaced ts = PyStr.join " " ts ++ " ".
Proof.
  induction ts as [|x [|y ts] IH]; intros Hne; [congruence | |].
  - cbn [spaced foldr PyStr.join]. reflexivity.
  - change (spaced (x :: y :: ts)) with (x ++ " " ++ spaced (y :: ts)).
    change (PyStr.join " " (x :: y :: ts)) with (x ++ " " ++ PyStr.join " " (y :: ts)).
    rewrite IH by congruence. now rewrite !string_app_assoc.
Qed.

Lemma spaced_nonempty ts : ts <> [] -> exists c s, spaced ts = String c s.
Proof.
  destruct ts as [|[|c t] ts]; intros Hne; [congruence | |].
  - exists " "%char, (spaced ts). reflexivity.
  - exists c, (t ++ " " ++ spaced ts). reflexivity.
Qed.

Lemma format_line_spaced sp ts :
  ts <> [] -> format_line (Some sp) (spaced ts) = paragraph_trimmed (sp, ts).
Proof.
  intros Hne. unfold format_line, paragraph_trimmed. simpl.
  now rewrite spaced_join, strip_app_blank.
Qed.

Lemma cons_run_head r rs :
  exists ts rest, cons_run r rs = (r.1, ts) :: rest.
Proof.
  unfold cons_run. destruct rs as [|[sp' ts'] rest]; [destruct r; eauto|].
  case_decide; [eauto | destruct r; eauto].
Qed.

Lemma cons_run_merge sp ts t rs :
  cons_run (sp, ts) (cons_run (sp, [t]) rs) = cons_run (sp, (ts ++ [t])%list) rs.
Proof.
  unfold cons_run at 2 3. destruct rs as [|[sp' ts'] rest]; simpl.
  - now rewrite decide_True.
  - case_decide; simpl.
    + rewrite decide_True by reflexivity. now rewrite <- app_assoc.
    + now rewrite decide_True.
Qed.

Lemma cons_run_other sp ts sp2 t rs :
  sp <> sp2 ->
  cons_run (sp, ts) (cons_run (sp2, [t]) rs) = (sp, ts) :: cons_run (sp2, [t]) rs.
Proof.
  intros Hne. destruct (cons_run_head (sp2, [t]) rs) as (ts' & rest & ->).
  simpl. now rewrite decide_False.
Qed.

Lemma merge_from_state segs : forall lines sp ts,
  ts <> [] ->
  merge_finish (foldl merge_step
                  {| merged_lines := lines; current_speaker := Some sp;
                     current_text := spaced ts |} segs)
  = (lines ++ map paragraph_trimmed (cons_run (sp, ts) (runs (map labelled segs))))%list.
Proof.
  induction segs as [|seg segs IH]; intros lines sp ts Hne.
  - simpl. unfold merge_finish; simpl.
    destruct (spaced_nonempty ts Hne) as (c & s & E).
    rewrite <- (format_line_spaced sp ts Hne). now rewrite E.
  - cbn [foldl map]. unfold merge_step at 2. cbn [current_speaker current_text merged_lines].
    change (runs (labelled seg :: map labelled segs))
      with (cons_run ((labelled seg).1, [(labelled seg).2]) (runs (map labelled segs))).
    change (default "Unknown" (seg_speaker seg)) with (labelled seg).1.
    change (PyStr.strip (default "" (seg_text seg))) with (labelled seg).2.
    destruct (labelled seg) as [sp2 t]; cbn [fst snd].
    destruct (decide (Some sp = Some sp2)) as [E|Hne2].
    + injection E as <-. rewrite <- spaced_app.
      rewrite IH by (destruct ts; discriminate).
      now rewrite cons_run_merge.
    + assert (sp <> sp2) by congruence.
      change (t ++ " ") with (spaced [t]).
      rewrite IH by discriminate.
      rewrite cons_run_other by assumption.
      rewrite format_line_spaced by assumption.
      now rewrite <- app_assoc.
Qed.

Lemma merge_segments_coalesce segs :
  merge_segments segs = coalesce paragraph_trimmed segs.
Proof.
  unfold merge_segments, coalesce. fold blank_line. f_equal.
  destruct segs as [|seg segs]; [reflexivity|].
  cbn [foldl map]. unfold merge_step at 2, merge_init at 1.
  cbn [current_speaker current_text merged_lines].
  rewrite decide_False by discriminate.
  change (default "Unknown" (seg_speaker seg)) with (labelled seg).1.
  change (PyStr.strip (default "" (seg_text seg))) with (labelled seg).2.
  change ((labelled seg).2 ++ " ") with (spaced [(labelled seg).2]).
  rewrite merge_from_state by discriminate. reflexivity.
Qed.

(** The runs partition the list: spelled out again they give it back. *)
Lemma runs_flatten l :
  flat_map (fun r => map (fun t => (r.1, t)) r.2) (runs l) = l.
Proof.
  induction l as [|[sp t] l IH]; [reflexivity|].
  change (runs ((sp, t) :: l)) with (cons_run (sp, [t]) (runs l)).
  unfold cons_run. destruct (runs l) as [|[sp' ts'] rest]; simpl in *.
  - now subst l.
  - case_decide; subst; simpl; reflexivity.
Qed.

(** The runs are maximal: two neighbours never have the same speaker. *)
Lemma runs_maximal l i r1 r2 :
  runs l !! i = Some r1 -> runs l !! S i = Some r2 -> r1.1 <> r2.1.
Proof.
  revert i r1 r2. induction l as [|[sp t] l IH]; intros i r1 r2; [discriminate|].
  change (runs ((sp, t) :: l)) with (cons_run (sp, [t]) (runs l)).
  unfold cons_run. destruct (runs l) as [|[sp' ts'] rest] eqn:E; simpl.
  - destruct i; discriminate.
  - case_decide; subst; simpl.
    + destruct i; simpl; intros H1 H2.
      * injection H1 as <-. apply (IH 0%nat (sp', ts') r2); [reflexivity | exact H2].
      * apply (IH (S i) r1 r2); assumption.
    + destruct i; simpl; intros H1 H2.
      * injection H1 as <-. injection H2 as <-. assumption.
      * apply (IH i r1 r2); assumption.
Qed.

(** C2, as the code has it.  The merger walks the segments in the given
    order and turns every maximal run of consecutive segments with the same
    assigned speaker into one paragraph "<speaker>: <text>", where <text> is
    the trimmed texts of the run joined by single blanks and then trimmed
    once more; the paragraphs are joined by a blank line, the empty segment
    list gives the empty string, and segments (0,2,"hi"), (2,4,"there") with
    intervals (0,2,"A"), (2,4,"B") give "A: hi\n\nB: there". *)
Theorem merge_coalesces_runs :
  (forall segs ds,
     (assign_speakers_to_transcription segs ds).2
     = coalesce paragraph_trimmed (assign_speakers_to_transcription segs ds).1) /\
  (forall ds, (assign_speakers_to_transcription [] ds).2 = "") /\
  (assign_speakers_to_transcription
     [mkSegment 0 2 (Some "hi") None; mkSegment 2 4 (Some "there") None]
     [mkInterval 0 2 "A"; mkInterval 2 4 "B"]).2
  = "A: hi" ++ blank_line ++ "B: there".
Proof.
  split; [|split; [reflexivity | vm_compute; reflexivity]].
  intros [|seg segs] ds; [reflexivity|].
  unfold assign_speakers_to_transcription; cbn [fst snd].
  apply merge_segments_coalesce.
Qed.

(** C2 as stated fails: a run that starts with a segment of empty text is
    printed without the blank that joining would put after the empty text. *)
Lemma merge_drops_leading_blank :
  (assign_speakers_to_transcription
     [mkSegment 0 1 (Some "") None; mkSegment 1 2 (Some "hi") None]
     [mkInterval 0 5 "A"]).2
  <> coalesce paragraph_joined
       (assign_speakers_to_transcription
          [mkSegment 0 1 (Some "") None; mkSegment 1 2 (Some "hi") None]
          [mkInterval 0 5 "A"]).1.
Proof. vm_compute. discriminate. Qed.

(** ** The monad *)

Lemma bind_unfold {A B} (m : M A) (k : A -> M B) (w : World) :
  (m ≫= k) w = match m w with
               | (w', inl e) => (w', inl e)
               | (w', inr a) => k a w'
               end.
Proof. reflexivity. Qed.

Lemma fresh_lookup (f : gmap string File) : f !! fresh (dom f) = None.
Proof. apply not_elem_of_dom, is_fresh. Qed.

(** ** The chunker *)

Lemma segment_audio_body_run fp d len acc i w :
  segment_audio_body fp d len acc i w
  = ({| fs := <[fresh (dom (fs w)) := empty_file]> (fs w);
        commands := commands w ++
          [FfmpegSlice fp (chunk_start_of len i) (current_duration_of d len i)
                       (fresh (dom (fs w)))];
        ui := ui w; session := session w |},
     inr (acc ++ [(fresh (dom (fs w)), chunk_start_of len i)])%list).
Proof. reflexivity. Qed.

(** The slicing loop never fails: it creates one fresh temporary file per
    index and issues one slicing command for it. *)
Lemma slicing_loop fp d len idxs : forall w acc,
  exists paths,
    for_each idxs (segment_audio_body fp d len) acc w
    = ({| fs := with_temps (fs w) paths;
          commands := commands w ++
            zip_with (fun p i => FfmpegSlice fp (chunk_start_of len i)
                                   (current_duration_of d len i) p) paths idxs;
          ui := ui w; session := session w |},
       inr (acc ++ zip paths (map (chunk_start_of len) idxs))%list)
    /\ length paths = length idxs
    /\ NoDup paths
    /\ Forall (fun p => fs w !! p = None) paths.
Proof.
  induction idxs as [|i idxs IH]; intros w acc.
  - exists []. simpl. rewrite !app_nil_r. destruct w.
    repeat split; constructor.
  - cbn [for_each]. rewrite bind_unfold, segment_audio_body_run.
    set (name := fresh (dom (fs w))).
    set (w1 := {| fs := <[name := empty_file]> (fs w);
                  commands := commands w ++
                    [FfmpegSlice fp (chunk_start_of len i) (current_duration_of d len i) name];
                  ui := ui w; session := session w |}).
    destruct (IH w1 (acc ++ [(name, chunk_start_of len i)])%list)
      as (paths & E & Hlen & Hnd & Hfresh).
    exists (name :: paths). rewrite E. subst w1; cbn [fs commands ui session].
    rewrite <- !app_assoc. cbn [app zip_with zip map with_temps foldl length].
    repeat split.
    + now rewrite Hlen.
    + constructor; [|exact Hnd].
      intros Hin. rewrite Forall_forall in Hfresh.
      specialize (Hfresh name). apply Hfresh in Hin. cbn in Hin.
      now rewrite lookup_insert_eq in Hin.
    + constructor; [apply fresh_lookup|].
      eapply Forall_impl; [exact Hfresh|]. cbn. intros p Hp.
      destruct (decide (name = p)) as [->|Hne].
      * now rewrite lookup_insert_eq in Hp.
      * now rewrite lookup_insert_ne in Hp.
Qed.

Lemma segment_audio_whole w fp max_d max_sz d sz :
  fs w !! fp = Some (mkFile (Some d) sz) ->
  Qle_bool d max_d && (sz <=? max_sz)%Z = true ->
  segment_audio fp max_d max_sz w = (w, inr [(fp, 0%Q)]).
Proof.
  intros Hf Hc. unfold segment_audio, get_audio_duration, os_path_getsize, get_fs.
  rewrite !bind_unfold, Hf. cbn. rewrite !bind_unfold, Hf. cbn.
  now rewrite Hc.
Qed.

Lemma segment_audio_split w fp max_d max_sz d sz :
  fs w !! fp = Some (mkFile (Some d) sz) ->
  Qle_bool d max_d && (sz <=? max_sz)%Z = false ->
  ~ (max_d == 0)%Q ->
  Qceiling (d / max_d) <> 0%Z ->
  let n := Qceiling (d / max_d) in
  let len := (d / inject_Z n)%Q in
  exists paths,
    segment_audio fp max_d max_sz w
    = ({| fs := with_temps (fs w) paths;
          commands := commands w ++
            zip_with (fun p i => FfmpegSlice fp (chunk_start_of len i)
                                   (current_duration_of d len i) p)
                     paths (py_range n);
          ui := ui w; session := session w |},
       inr (zip paths (map (chunk_start_of len) (py_range n))))
    /\ length paths = Z.to_nat n
    /\ NoDup paths
    /\ Forall (fun p => fs w !! p = None) paths.
Proof.
  intros Hf Hc Hmax Hn n len.
  destruct (slicing_loop fp d len (py_range n) w []) as (paths & E & Hlen & Hnd & Hfr).
  exists paths. split; [|split; [|split]]; try assumption.
  - unfold segment_audio, get_audio_duration, os_path_getsize, get_fs.
    rewrite !bind_unfold, Hf. cbn. rewrite !bind_unfold, Hf. cbn.
    rewrite Hc. unfold py_div.
    assert (E0 : Qeq_bool max_d 0 = false).
    { apply not_true_is_false. intros H. now apply Qeq_bool_iff in H. }
    rewrite bind_unfold, E0. cbn.
    assert (E1 : Qeq_bool (inject_Z (Qceiling (d / max_d))) 0 = false).
    { apply not_true_is_false. intros H. apply Qeq_bool_iff in H.
      apply Hn. unfold Qeq in H. simpl in H. lia. }
    rewrite bind_unfold, E1. cbn. exact E.
  - rewrite Hlen. unfold py_range. now rewrite length_map, length_seq.
Qed.

(** *** The plan in exact arithmetic *)

Lemma py_range_lookup n i :
  (i < Z.to_nat n)%nat -> py_range n !! i = Some (Z.of_nat i).
Proof.
  intros Hi. unfold py_range. rewrite list_lookup_fmap.
  rewrite lookup_seq_lt by assumption. reflexivity.
Qed.

Lemma py_range_length n : length (py_range n) = Z.to_nat n.
Proof. unfold py_range. now rewrite length_map, length_seq. Qed.

Lemma num_segments_positive d max_d :
  (0 < d)%Q -> (0 < max_d)%Q -> (1 <= Qceiling (d / max_d))%Z.
Proof.
  intros Hd Hm.
  assert (H : (0 < d / max_d)%Q).
  { apply Qlt_shift_div_l; [assumption|]. now rewrite Qmult_0_l. }
  pose proof (Qle_ceiling (d / max_d)) as Hc.
  assert (Hz : (0 < inject_Z (Qceiling (d / max_d)))%Q) by (eapply Qlt_le_trans; eassumption).
  unfold Qlt in Hz. simpl in Hz. lia.
Qed.

Section PlanArithmetic.

Variables (d : Q) (n : Z).
Hypothesis Hd : (0 < d)%Q.
Hypothesis Hn : (1 <= n)%Z.

Let len : Q := (d / inject_Z n)%Q.

Lemma inject_n_positive : (0 < inject_Z n)%Q.
Proof. unfold Qlt. simpl. lia. Qed.

Lemma even_length_positive : (0 < len)%Q.
Proof.
  apply Qlt_shift_div_l; [apply inject_n_positive|]. now rewrite Qmult_0_l.
Qed.

Lemma even_length_total : (inject_Z n * len == d)%Q.
Proof.
  unfold len. field. intros H. pose proof inject_n_positive as Hp.
  rewrite H in Hp. now apply Qlt_irrefl in Hp.
Qed.

Lemma chunk_fits i :
  (0 <= i < n)%Z -> (len <= d - chunk_start_of len i)%Q.
Proof.
  intros Hi. unfold chunk_start_of.
  rewrite <- even_length_total at 1.
  assert (H : (inject_Z i + 1 <= inject_Z n)%Q).
  { change 1%Q with (inject_Z 1). rewrite <- inject_Z_plus, <- Zle_Qle. lia. }
  pose proof even_length_positive as Hp.
  assert (H2 : ((inject_Z i + 1) * len <= inject_Z n * len)%Q).
  { apply Qmult_le_compat_r; [assumption | now apply Qlt_le_weak]. }
  lra.
Qed.

Lemma current_duration_even i :
  (0 <= i < n)%Z -> current_duration_of d len i = len.
Proof.
  intros Hi. unfold current_duration_of, py_min.
  pose proof (chunk_fits i Hi) as H. apply Qle_bool_iff in H. now rewrite H.
Qed.

End PlanArithmetic.

Lemma slice_plan_slices fp d len idxs : forall paths,
  length paths = length idxs ->
  slice_plan (zip_with (fun p i => FfmpegSlice fp (chunk_start_of len i)
                                     (current_duration_of d len i) p) paths idxs)
  = map (fun i => (chunk_start_of len i, current_duration_of d len i)) idxs.
Proof.
  induction idxs as [|i idxs IH]; intros [|p paths] Hlen; try discriminate.
  - reflexivity.
  - cbn. f_equal. apply IH. now injection Hlen.
Qed.

Lemma split_condition d max_d sz max_sz :
  (max_d < d)%Q \/ (max_sz < sz)%Z ->
  Qle_bool d max_d && (sz <=? max_sz)%Z = false.
Proof.
  intros [H|H]; apply andb_false_iff; [left | right].
  - apply not_true_is_false. intros E. apply Qle_bool_iff in E. lra.
  - apply Z.leb_gt. exact H.
Qed.

Lemma positive_not_zero (q : Q) : (0 < q)%Q -> ~ (q == 0)%Q.
Proof. intros H E. rewrite E in H. now apply Qlt_irrefl in H. Qed.

(** *** Rounding to the nearest double *)

Section Rounding.

Import Binary64.

Lemma pow2_pos e : (0 < pow2 e)%Q.
Proof. apply Qpower_0_lt. reflexivity. Qed.

Lemma pow2_add a b : (pow2 (a + b) == pow2 a * pow2 b)%Q.
Proof. apply Qpower_plus. discriminate. Qed.

Lemma pow2_cancel e : (pow2 e * pow2 (- e) == 1)%Q.
Proof. rewrite <- pow2_add, Z.add_opp_diag_r. reflexivity. Qed.

Lemma pow2_Z a : (0 <= a)%Z -> (pow2 a == inject_Z (2 ^ a))%Q.
Proof. intros H. unfold pow2. now rewrite Zpower_Qpower. Qed.

Lemma pow2_succ e : (pow2 (e + 1) == 2 * pow2 e)%Q.
Proof. rewrite pow2_add. change (pow2 1) with 2%Q. ring. Qed.

Lemma pow2_lt_inv a b : (pow2 a < pow2 b)%Q -> (a < b)%Z.
Proof.
  intros H. destruct (Z.lt_ge_cases a b) as [|Hge]; [assumption|].
  exfalso. assert (Hle : (pow2 b <= pow2 a)%Q).
  { apply Qpower_le_compat_l; [assumption | discriminate]. }
  lra.
Qed.

Lemma round_half_even_error y :
  (- (1 # 2) <= inject_Z (round_half_even y) - y <= 1 # 2)%Q.
Proof.
  unfold round_half_even.
  pose proof (Qfloor_le y) as Hl. pose proof (Qlt_floor y) as Hu.
  rewrite inject_Z_plus in Hu. change (inject_Z 1) with 1%Q in Hu.
  destruct (Qcompare_spec (y - inject_Z (Qfloor y)) (1 # 2)) as [E|E|E].
  - destruct (Z.even (Qfloor y)).
    + lra.
    + rewrite inject_Z_plus. change (inject_Z 1) with 1%Q. lra.
  - lra.
  - rewrite inject_Z_plus. change (inject_Z 1) with 1%Q. lra.
Qed.

Lemma positive_log2_bounds (p : positive) :
  (pow2 (Z.log2 (Zpos p)) <= inject_Z (Zpos p) < pow2 (Z.log2 (Zpos p) + 1))%Q.
Proof.
  pose proof (Z.log2_spec (Zpos p) eq_refl) as [Hl Hu].
  pose proof (Z.log2_nonneg (Zpos p)) as Hn.
  rewrite !pow2_Z by lia. rewrite <- Zle_Qle, <- Zlt_Qlt.
  split; [exact Hl|]. now rewrite Z.add_1_r.
Qed.

(** The logarithms of numerator and denominator locate [x] within a factor
    of four. *)
Lemma log2_bounds (x : Q) :
  (0 < x)%Q ->
  let k := (Z.log2 (Qnum x) - Z.log2 (Zpos (Qden x)))%Z in
  (pow2 (k - 1) < x < pow2 (k + 1))%Q.
Proof.
  destruct x as [n d]. intros Hx k. cbn [Qnum Qden] in k.
  destruct n as [|n|n]; try (exfalso; revert Hx; unfold Qlt; simpl; lia).
  pose proof (positive_log2_bounds n) as [Hn1 Hn2].
  pose proof (positive_log2_bounds d) as [Hd1 Hd2].
  set (A := Z.log2 (Z.pos n)) in *. set (B := Z.log2 (Z.pos d)) in *.
  assert (Ex : (inject_Z (Z.pos n) == (Z.pos n # d) * inject_Z (Z.pos d))%Q).
  { rewrite (Qmake_Qdiv (Z.pos n) d). field. discriminate. }
  assert (E1 : (pow2 A == pow2 (k - 1) * pow2 (B + 1))%Q).
  { rewrite <- pow2_add. subst k. now replace (A - B - 1 + (B + 1))%Z with A by lia. }
  assert (E2 : (pow2 (A + 1) == pow2 (k + 1) * pow2 B)%Q).
  { rewrite <- pow2_add. subst k. now replace (A - B + 1 + B)%Z with (A + 1)%Z by lia. }
  pose proof (pow2_pos (k - 1)) as P1. pose proof (pow2_pos (k + 1)) as P2.
  pose proof (pow2_pos B) as P3. pose proof (pow2_pos (B + 1)) as P4.
  set (X := (Z.pos n # d)%Q) in *. set (D := inject_Z (Z.pos d)) in *.
  set (N := inject_Z (Z.pos n)) in *.
  split.
  - destruct (Qlt_le_dec (pow2 (k - 1)) X) as [|Hle]; [assumption|exfalso].
    assert (H : (X * D < pow2 (k - 1) * pow2 (B + 1))%Q).
    { apply Qle_lt_trans with (pow2 (k - 1) * D)%Q.
      - apply Qmult_le_compat_r; [assumption | lra].
      - apply Qmult_lt_l; assumption. }
    lra.
  - destruct (Qlt_le_dec X (pow2 (k + 1))) as [|Hle]; [assumption|exfalso].
    assert (H : (pow2 (k + 1) * pow2 B <= X * D)%Q).
    { apply Qle_trans with (pow2 (k + 1) * D)%Q.
      - apply Qmult_le_l; [assumption | lra].
      - apply Qmult_le_compat_r; [assumption | lra]. }
    lra.
Qed.

(** [binade x] is the exponent that gives [x] a significand of 53 bits. *)
Lemma binade_spec (x : Q) :
  (0 < x)%Q -> (pow2 52 <= x * pow2 (- binade x) < pow2 53)%Q.
Proof.
  intros Hx. unfold binade.
  set (k := (Z.log2 (Qnum x) - Z.log2 (Zpos (Qden x)))%Z).
  pose proof (log2_bounds x Hx) as [Hl Hu]. fold k in Hl, Hu.
  set (e0 := (k - prec)%Z).
  set (y0 := (x * pow2 (- e0))%Q).
  pose proof (pow2_pos (- e0)) as Pe.
  assert (E1 : (pow2 (k - 1) * pow2 (- e0) == pow2 52)%Q).
  { rewrite <- pow2_add. subst e0. unfold prec.
    now replace (k - 1 + - (k - 53))%Z with 52%Z by lia. }
  assert (E2 : (pow2 (k + 1) * pow2 (- e0) == pow2 54)%Q).
  { rewrite <- pow2_add. subst e0. unfold prec.
    now replace (k + 1 + - (k - 53))%Z with 54%Z by lia. }
  assert (Hy0 : (pow2 52 < y0 < pow2 54)%Q).
  { subst y0. rewrite <- E1, <- E2. split; apply Qmult_lt_compat_r; assumption. }
  destruct (Z.ltb_spec (Qfloor y0) (2 ^ prec)) as [Hf|Hf].
  - fold y0. split; [lra|].
    pose proof (Qlt_floor y0) as Hlt.
    apply Qlt_le_trans with (inject_Z (Qfloor y0 + 1)); [assumption|].
    rewrite (pow2_Z 53) by lia. rewrite <- Zle_Qle. unfold prec in Hf. lia.
  - assert (Hge : (pow2 53 <= y0)%Q).
    { apply Qle_trans with (inject_Z (Qfloor y0)); [|apply Qfloor_le].
      rewrite (pow2_Z 53) by lia. rewrite <- Zle_Qle. exact Hf. }
    assert (Ey : (x * pow2 (- (e0 + 1)) == y0 * (1 # 2))%Q).
    { subst y0. replace (- (e0 + 1))%Z with (- e0 + -1)%Z by lia.
      rewrite pow2_add. change (pow2 (-1)) with (1 # 2)%Q. ring. }
    rewrite Ey.
    pose proof (pow2_succ 52) as S1. pose proof (pow2_succ 53) as S2.
    change (52 + 1)%Z with 53%Z in S1. change (53 + 1)%Z with 54%Z in S2.
    lra.
Qed.

Lemma min_normal_pos : (0 < min_normal)%Q.
Proof. apply pow2_pos. Qed.

Lemma round_pos_error (x : Q) :
  (min_normal <= x)%Q ->
  (x * (1 - unit_roundoff) <= round_pos x <= x * (1 + unit_roundoff))%Q.
Proof.
  intros Hn. pose proof min_normal_pos as Hm.
  assert (Hx : (0 < x)%Q) by lra.
  pose proof (binade_spec x Hx) as [Hl Hu].
  set (e := binade x) in *.
  pose proof (pow2_pos e) as Pe. pose proof (pow2_cancel e) as Ce.
  assert (Ex : (x * pow2 (- e) * pow2 e == x)%Q).
  { rewrite <- Qmult_assoc, (Qmult_comm (pow2 (- e))), Ce. ring. }
  assert (He : (emin <= e)%Z).
  { assert (H : (pow2 (-1022) < pow2 (53 + e))%Q).
    { rewrite pow2_add. fold min_normal.
      apply Qle_lt_trans with x; [assumption|].
      assert (H : (x * pow2 (- e) * pow2 e < pow2 53 * pow2 e)%Q)
        by (apply Qmult_lt_compat_r; assumption).
      rewrite Ex in H. exact H. }
    apply pow2_lt_inv in H. unfold emin. lia. }
  unfold round_pos, exponent. fold e. rewrite Z.max_l by exact He.
  set (y := (x * pow2 (- e))%Q) in *.
  pose proof (round_half_even_error y) as [R1 R2].
  set (M := inject_Z (round_half_even y)) in *.
  assert (E52 : (pow2 52 == 4503599627370496)%Q) by reflexivity.
  assert (H1 : ((M - y) * pow2 e <= unit_roundoff * y * pow2 e)%Q).
  { apply Qmult_le_compat_r; [unfold unit_roundoff; lra | lra]. }
  assert (H2 : ((y - M) * pow2 e <= unit_roundoff * y * pow2 e)%Q).
  { apply Qmult_le_compat_r; [unfold unit_roundoff; lra | lra]. }
  assert (Eu : (unit_roundoff * y * pow2 e == unit_roundoff * x)%Q)
    by (rewrite <- Ex; ring).
  rewrite Eu in H1, H2.
  assert (E1 : ((M - y) * pow2 e == M * pow2 e - x)%Q) by (rewrite <- Ex; ring).
  assert (E2 : ((y - M) * pow2 e == x - M * pow2 e)%Q) by (rewrite <- Ex; ring).
  rewrite E1 in H1. rewrite E2 in H2. lra.
Qed.

(** [round_pos x] is a double, a significand of at most 53 bits at an
    exponent of -1074 or more, and lies within half a unit in the last place
    of [x]: the unit is that of the binade of [x], or [2^-1074] below the
    normal range. *)
Lemma round_pos_nearest (x : Q) :
  (0 < x)%Q ->
  exists m e,
    round_pos x = (inject_Z m * pow2 e)%Q /\
    (0 <= m <= 2 ^ 53)%Z /\ (emin <= e)%Z /\
    (- (pow2 e * (1 # 2)) <= round_pos x - x <= pow2 e * (1 # 2))%Q /\
    (e = emin \/ (pow2 52 * pow2 e <= x)%Q).
Proof.
  intros Hx. pose proof (binade_spec x Hx) as [Hl Hu].
  set (e := exponent x). set (y := (x * pow2 (- e))%Q).
  exists (round_half_even y), e.
  pose proof (pow2_pos e) as Pe. pose proof (pow2_cancel e) as Ce.
  pose proof (pow2_pos (- e)) as Pne.
  assert (Ex : (y * pow2 e == x)%Q).
  { subst y. rewrite <- Qmult_assoc, (Qmult_comm (pow2 (- e))), Ce. ring. }
  assert (He : (binade x <= e)%Z /\ (emin <= e)%Z) by (unfold e, exponent; lia).
  assert (Hy : (0 < y < pow2 53)%Q).
  { split; [subst y; apply Qmult_lt_0_compat; assumption|].
    apply Qle_lt_trans with (x * pow2 (- binade x))%Q; [|exact Hu].
    subst y. apply Qmult_le_l; [exact Hx|].
    apply Qpower_le_compat_l; [lia | discriminate]. }
  pose proof (round_half_even_error y) as [R1 R2].
  split; [reflexivity|]. split; [|split; [apply He|split]].
  - assert (E53 : (pow2 53 == inject_Z (2 ^ 53))%Q) by (apply pow2_Z; lia).
    assert (H1 : (inject_Z (-1) < inject_Z (round_half_even y))%Q)
      by (change (inject_Z (-1)) with (-1)%Q; lra).
    assert (H2 : (inject_Z (round_half_even y) < inject_Z (2 ^ 53 + 1))%Q).
    { rewrite inject_Z_plus, <- E53. change (inject_Z 1) with 1%Q. lra. }
    rewrite <- Zlt_Qlt in H1, H2. lia.
  - unfold round_pos. fold e y.
    set (M := inject_Z (round_half_even y)) in *.
    assert (H1 : ((M - y) * pow2 e <= (1 # 2) * pow2 e)%Q)
      by (apply Qmult_le_compat_r; lra).
    assert (H2 : ((y - M) * pow2 e <= (1 # 2) * pow2 e)%Q)
      by (apply Qmult_le_compat_r; lra).
    assert (E1 : ((M - y) * pow2 e == M * pow2 e - x)%Q) by (rewrite <- Ex; ring).
    assert (E2 : ((y - M) * pow2 e == x - M * pow2 e)%Q) by (rewrite <- Ex; ring).
    rewrite E1 in H1. rewrite E2 in H2. lra.
  - destruct (Z.eq_dec e emin) as [E|Hne]; [now left | right].
    assert (Eb : e = binade x) by (unfold e, exponent in *; lia).
    rewrite <- Eb in Hl. fold y in Hl.
    assert (H : (pow2 52 * pow2 e <= y * pow2 e)%Q)
      by (apply Qmult_le_compat_r; lra).
    now rewrite Ex in H.
Qed.

(** In the normal range one rounding changes a value by the relative error
    [unit_roundoff] at most. *)
Lemma round_error (x : Q) :
  (min_normal <= x)%Q ->
  (x * (1 - unit_roundoff) <= round x <= x * (1 + unit_roundoff))%Q.
Proof.
  intros Hn. pose proof min_normal_pos as Hm. unfold round.
  destruct (Qcompare_spec x 0) as [E|E|E]; try lra.
  now apply round_pos_error.
Qed.

Lemma round_zero (x : Q) : (x == 0)%Q -> round x = 0%Q.
Proof. intros E. unfold round. apply Qeq_alt in E. now rewrite E. Qed.

(** [round] on some rationals, with the doubles that Python gives for
    them: 1/10 and -1/3; the ties 2^53 + 1 and 2^53 + 3, which go to the
    even significand; and below the normal range half of the least double,
    which goes to zero, and three halves of it. *)
Lemma round_examples :
  (round (1 # 10) == 3602879701896397 # 36028797018963968)%Q /\
  (round (- (1 # 3)) == - (6004799503160661 # 18014398509481984))%Q /\
  (round 9007199254740993 == 9007199254740992)%Q /\
  (round 9007199254740995 == 9007199254740996)%Q /\
  (round (pow2 (-1075)) == 0)%Q /\
  (round (3 * pow2 (-1075)) == pow2 (-1073))%Q.
Proof. repeat split; apply Qeq_bool_iff; vm_compute; reflexivity. Qed.

Lemma min_normal_small : (min_normal <= 1 # 1000000000000000000000000000000)%Q.
Proof. apply Qle_bool_iff. vm_compute. reflexivity. Qed.

(** **** [round] is a function of the value, fixes the doubles, and is
    monotone *)

Lemma pow2_le a b : (a <= b)%Z -> (pow2 a <= pow2 b)%Q.
Proof. intros H. apply Qpower_le_compat_l; [assumption | discriminate]. Qed.

Lemma pow2_shift x a b : (x * pow2 a == x * pow2 b * pow2 (a - b))%Q.
Proof.
  rewrite <- Qmult_assoc, <- pow2_add. now replace (b + (a - b))%Z with a by lia.
Qed.

Lemma binade_unique (x : Q) (b : Z) :
  (0 < x)%Q -> (pow2 52 <= x * pow2 (- b) < pow2 53)%Q -> b = binade x.
Proof.
  intros Hx [Hl Hu]. pose proof (binade_spec x Hx) as [Hl' Hu'].
  set (b' := binade x) in *.
  pose proof (pow2_succ 52) as S1. change (52 + 1)%Z with 53%Z in S1.
  pose proof (pow2_pos 52) as P52.
  destruct (Z.lt_trichotomy b b') as [Hlt|[E|Hgt]]; [exfalso| exact E |exfalso].
  - pose proof (pow2_shift x (- b) (- b')) as Es.
    assert (Hk : (pow2 1 <= pow2 (- b - - b'))%Q) by (apply pow2_le; lia).
    change (pow2 1) with 2%Q in Hk.
    assert (H : (pow2 52 * 2 <= x * pow2 (- b') * pow2 (- b - - b'))%Q).
    { apply Qle_trans with (x * pow2 (- b') * 2)%Q.
      - apply Qmult_le_compat_r; [assumption | lra].
      - apply Qmult_le_l; lra. }
    rewrite <- Es in H. lra.
  - pose proof (pow2_shift x (- b') (- b)) as Es.
    assert (Hk : (pow2 1 <= pow2 (- b' - - b))%Q) by (apply pow2_le; lia).
    change (pow2 1) with 2%Q in Hk.
    assert (H : (pow2 52 * 2 <= x * pow2 (- b) * pow2 (- b' - - b))%Q).
    { apply Qle_trans with (x * pow2 (- b) * 2)%Q.
      - apply Qmult_le_compat_r; [assumption | lra].
      - apply Qmult_le_l; lra. }
    rewrite <- Es in H. lra.
Qed.

Lemma binade_comp (x y : Q) : (0 < x)%Q -> (x == y)%Q -> binade x = binade y.
Proof.
  intros Hx E. symmetry. apply binade_unique; [assumption|].
  assert (Hy : (0 < y)%Q) by now rewrite <- E.
  pose proof (binade_spec y Hy) as [H1 H2].
  set (b := binade y) in *. split.
  - now rewrite E.
  - now rewrite E.
Qed.

Lemma round_half_even_comp (y1 y2 : Q) :
  (y1 == y2)%Q -> round_half_even y1 = round_half_even y2.
Proof.
  intros E. unfold round_half_even.
  assert (Ef : Qfloor y1 = Qfloor y2) by now apply Qfloor_comp.
  rewrite Ef.
  assert (Ec : Qcompare (y1 - inject_Z (Qfloor y2)) (1 # 2)
               = Qcompare (y2 - inject_Z (Qfloor y2)) (1 # 2)) by now rewrite E.
  now rewrite Ec.
Qed.

Lemma round_half_even_Z (y : Q) (k : Z) : (y == inject_Z k)%Q -> round_half_even y = k.
Proof.
  intros E. rewrite (round_half_even_comp _ _ E). unfold round_half_even.
  rewrite Qfloor_Z.
  assert (Ec : Qcompare (inject_Z k - inject_Z k) (1 # 2) = Lt).
  { apply (proj1 (Qlt_alt _ _)). lra. }
  now rewrite Ec.
Qed.

Lemma round_pos_comp (x y : Q) : (0 < x)%Q -> (x == y)%Q -> round_pos x = round_pos y.
Proof.
  intros Hx E. unfold round_pos, exponent.
  rewrite (binade_comp x y Hx E).
  erewrite round_half_even_comp; [reflexivity|]. now rewrite E.
Qed.

(** The double of a rational does not depend on the fraction that denotes
    it. *)
Lemma round_comp (x y : Q) : (x == y)%Q -> round x = round y.
Proof.
  intros E. unfold round.
  assert (Ec : Qcompare x 0 = Qcompare y 0) by now rewrite E.
  rewrite Ec. destruct (Qcompare_spec y 0) as [H|H|H]; [reflexivity | |].
  - f_equal. apply round_pos_comp; [rewrite E; lra | now rewrite E].
  - apply round_pos_comp; [rewrite E; lra | exact E].
Qed.

(** A significand of at most 53 bits at an exponent of -1074 or more is a
    double, and [round] leaves it as it is. *)
Lemma round_pos_fixed (m e : Z) :
  (0 < m <= 2 ^ 53)%Z -> (emin <= e)%Z ->
  (round_pos (inject_Z m * pow2 e) == inject_Z m * pow2 e)%Q.
Proof.
  intros [Hm1 Hm2] He.
  assert (HM : (0 < inject_Z m <= pow2 53)%Q).
  { rewrite (pow2_Z 53) by lia. change 0%Q with (inject_Z 0).
    rewrite <- Zlt_Qlt, <- Zle_Qle. lia. }
  pose proof (pow2_pos e) as Pe.
  set (r := (inject_Z m * pow2 e)%Q).
  assert (Hr : (0 < r)%Q) by (apply Qmult_lt_0_compat; lra).
  pose proof (binade_spec r Hr) as [Hl Hu].
  unfold round_pos, exponent. set (b := binade r) in *.
  destruct (Z.le_gt_cases (Z.max b emin) e) as [Hle|Hgt].
  - set (E := Z.max b emin) in *.
    assert (Ev : (r * pow2 (- E) == inject_Z (m * 2 ^ (e - E)))%Q).
    { subst r. rewrite inject_Z_mult, <- (pow2_Z (e - E)) by lia.
      rewrite <- Qmult_assoc, <- pow2_add.
      now replace (e + - E)%Z with (e - E)%Z by lia. }
    rewrite (round_half_even_Z _ _ Ev).
    rewrite inject_Z_mult, <- (pow2_Z (e - E)) by lia.
    rewrite <- Qmult_assoc, <- pow2_add.
    subst r. now replace (e - E + E)%Z with e by lia.
  - assert (Eb : Z.max b emin = b) by lia. rewrite Eb.
    assert (Hhalf : (pow2 (e - b) <= pow2 (-1))%Q) by (apply pow2_le; lia).
    change (pow2 (-1)) with (1 # 2)%Q in Hhalf.
    pose proof (pow2_pos (e - b)) as Peb.
    assert (Es : (r * pow2 (- b) == inject_Z m * pow2 (e - b))%Q).
    { subst r. rewrite <- Qmult_assoc, <- pow2_add.
      now replace (e + - b)%Z with (e - b)%Z by lia. }
    assert (Hup : (inject_Z m * pow2 (e - b) <= inject_Z m * (1 # 2))%Q)
      by (apply Qmult_le_l; lra).
    pose proof (pow2_succ 52) as S1. change (52 + 1)%Z with 53%Z in S1.
    assert (Ev : (r * pow2 (- b) == inject_Z (2 ^ 52))%Q).
    { rewrite <- (pow2_Z 52) by lia. lra. }
    rewrite (round_half_even_Z _ _ Ev), <- Ev.
    rewrite <- Qmult_assoc, <- pow2_add, Z.add_opp_diag_l.
    change (pow2 0) with 1%Q. ring.
Qed.

Lemma round_positive (x : Q) : (0 < x)%Q -> round x = round_pos x.
Proof.
  intros H. unfold round. apply (proj1 (Qgt_alt _ _)) in H. now rewrite H.
Qed.

Lemma round_negative (x : Q) : (x < 0)%Q -> round x = (- round_pos (- x))%Q.
Proof.
  intros H. unfold round. apply (proj1 (Qlt_alt _ _)) in H. now rewrite H.
Qed.

(** Rounding a double gives that double. *)
Lemma round_idempotent (x : Q) : (round (round x) == round x)%Q.
Proof.
  destruct (Qcompare_spec x 0) as [E|E|E].
  - rewrite (round_zero x E). reflexivity.
  - rewrite (round_negative x E).
    assert (Hx : (0 < - x)%Q) by lra.
    destruct (round_pos_nearest (- x) Hx) as (m & e & -> & [Hm1 Hm2] & He & _).
    pose proof (pow2_pos e) as Pe.
    destruct (Z.eq_dec m 0%Z) as [->|Hne].
    + rewrite (round_zero (- (inject_Z 0 * pow2 e))); [|ring]. ring.
    + assert (HM : (0 < inject_Z m)%Q).
      { change 0%Q with (inject_Z 0). rewrite <- Zlt_Qlt. lia. }
      assert (Hr : (0 < inject_Z m * pow2 e)%Q) by (apply Qmult_lt_0_compat; lra).
      rewrite round_negative by lra.
      rewrite (round_pos_comp (- - (inject_Z m * pow2 e)) (inject_Z m * pow2 e));
        [|lra|ring].
      rewrite round_pos_fixed by lia. reflexivity.
  - rewrite (round_positive x E).
    destruct (round_pos_nearest x E) as (m & e & -> & [Hm1 Hm2] & He & _).
    pose proof (pow2_pos e) as Pe.
    destruct (Z.eq_dec m 0%Z) as [->|Hne].
    + rewrite (round_zero (inject_Z 0 * pow2 e)); [|ring]. ring.
    + assert (HM : (0 < inject_Z m)%Q).
      { change 0%Q with (inject_Z 0). rewrite <- Zlt_Qlt. lia. }
      assert (Hr : (0 < inject_Z m * pow2 e)%Q) by (apply Qmult_lt_0_compat; lra).
      rewrite round_positive by lra.
      apply round_pos_fixed; lia.
Qed.

Lemma round_half_even_floor (y : Q) :
  (Qfloor y <= round_half_even y <= Qfloor y + 1)%Z.
Proof.
  unfold round_half_even.
  destruct (Qcompare (y - inject_Z (Qfloor y)) (1 # 2)); [destruct (Z.even (Qfloor y))| |]; lia.
Qed.

Lemma round_half_even_monotone (y1 y2 : Q) :
  (y1 <= y2)%Q -> (round_half_even y1 <= round_half_even y2)%Z.
Proof.
  intros H. pose proof (Qfloor_resp_le _ _ H) as Hf.
  pose proof (round_half_even_floor y1) as [_ H1].
  pose proof (round_half_even_floor y2) as [H2 _].
  destruct (Z.eq_dec (Qfloor y1) (Qfloor y2)) as [E|Hne]; [|lia].
  clear H1 H2. unfold round_half_even. rewrite E.
  destruct (Qcompare_spec (y1 - inject_Z (Qfloor y2)) (1 # 2)) as [C1|C1|C1];
    destruct (Qcompare_spec (y2 - inject_Z (Qfloor y2)) (1 # 2)) as [C2|C2|C2];
    try lia; try (exfalso; lra); destruct (Z.even (Qfloor y2)); lia.
Qed.

Lemma binade_monotone (x y : Q) : (0 < x)%Q -> (x <= y)%Q -> (binade x <= binade y)%Z.
Proof.
  intros Hx Hxy. assert (Hy : (0 < y)%Q) by lra.
  pose proof (binade_spec x Hx) as [Hl _]. pose proof (binade_spec y Hy) as [_ Hu].
  set (bx := binade x) in *. set (b := binade y) in *.
  destruct (Z.le_gt_cases bx b) as [|Hgt]; [assumption|exfalso].
  pose proof (pow2_succ 52) as S1. change (52 + 1)%Z with 53%Z in S1.
  pose proof (pow2_pos 52) as P52. pose proof (pow2_pos (- b)) as Pb.
  pose proof (pow2_shift x (- b) (- bx)) as Es.
  assert (Hk : (pow2 1 <= pow2 (- b - - bx))%Q) by (apply pow2_le; lia).
  change (pow2 1) with 2%Q in Hk.
  assert (H : (pow2 52 * 2 <= x * pow2 (- bx) * pow2 (- b - - bx))%Q).
  { apply Qle_trans with (x * pow2 (- bx) * 2)%Q.
    - apply Qmult_le_compat_r; [assumption | lra].
    - apply Qmult_le_l; lra. }
  rewrite <- Es in H.
  assert (H' : (x * pow2 (- b) <= y * pow2 (- b))%Q)
    by (apply Qmult_le_compat_r; lra).
  lra.
Qed.

Lemma round_pos_monotone (x y : Q) :
  (0 < x)%Q -> (x <= y)%Q -> (round_pos x <= round_pos y)%Q.
Proof.
  intros Hx Hxy. assert (Hy : (0 < y)%Q) by lra.
  pose proof (binade_monotone x y Hx Hxy) as Hb.
  pose proof (binade_spec x Hx) as [_ Hux]. pose proof (binade_spec y Hy) as [Hly _].
  unfold round_pos, exponent.
  set (ex := Z.max (binade x) emin). set (ey := Z.max (binade y) emin).
  pose proof (pow2_pos ex) as Pex. pose proof (pow2_pos ey) as Pey.
  destruct (Z.eq_dec ex ey) as [E|Hne].
  - rewrite <- E. apply Qmult_le_compat_r; [|lra].
    rewrite <- Zle_Qle. apply round_half_even_monotone.
    apply Qmult_le_compat_r; [assumption|]. pose proof (pow2_pos (- ex)). lra.
  - assert (Hlt : (ex + 1 <= ey)%Z) by lia.
    assert (Eby : ey = binade y) by lia.
    assert (Hmx : (round_half_even (x * pow2 (- ex)) <= 2 ^ 53)%Z).
    { assert (E53 : round_half_even (inject_Z (2 ^ 53)) = (2 ^ 53)%Z)
        by (apply round_half_even_Z; reflexivity).
      apply Z.le_trans with (round_half_even (inject_Z (2 ^ 53))); [|rewrite E53; lia].
      apply round_half_even_monotone. rewrite <- (pow2_Z 53) by lia.
      apply Qle_trans with (x * pow2 (- binade x))%Q; [|lra].
      apply Qmult_le_l; [assumption|]. apply pow2_le. lia. }
    assert (Hmy : (2 ^ 52 <= round_half_even (y * pow2 (- ey)))%Z).
    { assert (E52 : round_half_even (inject_Z (2 ^ 52)) = (2 ^ 52)%Z)
        by (apply round_half_even_Z; reflexivity).
      apply Z.le_trans with (round_half_even (inject_Z (2 ^ 52))); [rewrite E52; lia|].
      apply round_half_even_monotone. rewrite <- (pow2_Z 52) by lia.
      rewrite Eby. exact Hly. }
    rewrite Zle_Qle in Hmx, Hmy.
    rewrite <- (pow2_Z 53) in Hmx by lia. rewrite <- (pow2_Z 52) in Hmy by lia.
    set (mx := inject_Z (round_half_even (x * pow2 (- ex)))) in *.
    set (my := inject_Z (round_half_even (y * pow2 (- ey)))) in *.
    pose proof (pow2_succ 52) as S1. change (52 + 1)%Z with 53%Z in S1.
    pose proof (pow2_pos 52) as P52.
    assert (H1 : (mx * pow2 ex <= pow2 53 * pow2 ex)%Q)
      by (apply Qmult_le_compat_r; lra).
    assert (H2 : (pow2 52 * pow2 (ex + 1) <= pow2 52 * pow2 ey)%Q).
    { apply Qmult_le_l; [assumption|]. now apply pow2_le. }
    assert (H3 : (pow2 52 * pow2 ey <= my * pow2 ey)%Q)
      by (apply Qmult_le_compat_r; lra).
    assert (E1 : (pow2 53 * pow2 ex == pow2 52 * pow2 (ex + 1))%Q).
    { rewrite S1, pow2_succ. ring. }
    lra.
Qed.

Lemma round_pos_nonneg (x : Q) : (0 < x)%Q -> (0 <= round_pos x)%Q.
Proof.
  intros Hx. destruct (round_pos_nearest x Hx) as (m & e & -> & [Hm _] & _).
  apply Qmult_le_0_compat; [|apply Qlt_le_weak, pow2_pos].
  change 0%Q with (inject_Z 0). now rewrite <- Zle_Qle.
Qed.

(** [round] is monotone. *)
Lemma round_monotone (x y : Q) : (x <= y)%Q -> (round x <= round y)%Q.
Proof.
  intros H.
  destruct (Qcompare_spec x 0) as [Ex|Ex|Ex]; destruct (Qcompare_spec y 0) as [Ey|Ey|Ey];
    try (exfalso; lra).
  - rewrite (round_zero x Ex), (round_zero y Ey). lra.
  - rewrite (round_zero x Ex), (round_positive y Ey). now apply round_pos_nonneg.
  - rewrite (round_negative x Ex), (round_zero y Ey).
    pose proof (round_pos_nonneg (- x)) as Hn. lra.
  - rewrite (round_negative x Ex), (round_negative y Ey).
    pose proof (round_pos_monotone (- y) (- x)) as Hm. lra.
  - rewrite (round_negative x Ex), (round_positive y Ey).
    pose proof (round_pos_nonneg (- x)) as Hn. pose proof (round_pos_nonneg y Ey). lra.
  - rewrite (round_positive x Ex), (round_positive y Ey). now apply round_pos_monotone.
Qed.

End Rounding.

Lemma Qsum_app (l1 l2 : list Q) : (Qsum (l1 ++ l2) == Qsum l1 + Qsum l2)%Q.
Proof.
  unfold Qsum. induction l1 as [|x l1 IH]; simpl.
  - ring.
  - rewrite IH. ring.
Qed.

Lemma Qsum_all_equal (x : Q) (l : list Q) :
  Forall (fun y => y = x) l -> (Qsum l == inject_Z (Z.of_nat (length l)) * x)%Q.
Proof.
  induction 1 as [|y l Hy _ IH].
  - simpl. ring.
  - cbn [Qsum foldr length]. fold (Qsum l). rewrite IH, Hy.
    rewrite Nat2Z.inj_succ. unfold Z.succ. rewrite inject_Z_plus.
    change (inject_Z 1) with 1%Q. ring.
Qed.

Lemma py_range_snoc n : (1 <= n)%Z -> py_range n = (py_range (n - 1) ++ [(n - 1)%Z])%list.
Proof.
  intros Hn. unfold py_range.
  replace (Z.to_nat n) with (S (Z.to_nat (n - 1))) by lia.
  rewrite seq_S, map_app. cbn [map]. do 2 f_equal. lia.
Qed.

(** *** The plan in binary64 arithmetic *)

Section RoundedPlan.

Variables (d max_d : Q).
Hypothesis Hd : (1 # 1000000 <= d <= 1000000000)%Q.
Hypothesis Hm : (1 <= max_d <= 1000000)%Q.

Let ratio : Q := Binary64.round (d / Binary64.of_number max_d).
Let n : Z := Qceiling ratio.
Let len : Q := Binary64.round (d / Binary64.of_int n).

Lemma ratio_bounds : (1 # 10000000000000 <= ratio <= 1000000001)%Q.
Proof.
  pose proof min_normal_small as Hs.
  assert (Hr : (max_d * (1 - unit_roundoff) <= Binary64.of_number max_d
                <= max_d * (1 + unit_roundoff))%Q) by (apply round_error; lra).
  unfold unit_roundoff in Hr.
  set (rm := Binary64.of_number max_d) in *.
  assert (Hq : (9 # 10000000000000 <= d / rm <= 1000000000 + (1 # 1000000))%Q).
  { split.
    - apply Qle_shift_div_l; lra.
    - apply Qle_shift_div_r; lra. }
  assert (Hx : (d / rm * (1 - unit_roundoff) <= ratio <= d / rm * (1 + unit_roundoff))%Q)
    by (apply round_error; lra).
  unfold unit_roundoff in Hx. lra.
Qed.

Lemma num_segments_bounds : (1 <= n <= 2147483648)%Z.
Proof.
  pose proof ratio_bounds as [Hl Hu].
  pose proof (Qle_ceiling ratio) as H1. pose proof (Qceiling_lt ratio) as H2.
  fold n in H1, H2.
  assert (H3 : (0 < inject_Z n)%Q) by lra.
  assert (H4 : (inject_Z (n - 1) < inject_Z 1000000001)%Q).
  { eapply Qlt_le_trans; [exact H2|]. exact Hu. }
  rewrite <- Zlt_Qlt in H4. change 0%Q with (inject_Z 0) in H3.
  rewrite <- Zlt_Qlt in H3. lia.
Qed.

(** The even length: positive, not tiny, and [n] times it is the duration
    up to two roundings. *)
Lemma even_length_rounded :
  (1 # 10000000000000000 <= len)%Q /\
  (d * (1 - (1 # 2251799813685248)) <= inject_Z n * len
   <= d * (1 + (1 # 2251799813685248)))%Q.
Proof.
  pose proof min_normal_small as Hs. pose proof num_segments_bounds as [Hn1 Hn2].
  assert (HN : (1 <= inject_Z n <= 2147483648)%Q).
  { change 1%Q with (inject_Z 1). change 2147483648%Q with (inject_Z 2147483648).
    rewrite <- !Zle_Qle. lia. }
  assert (Hr : (inject_Z n * (1 - unit_roundoff) <= Binary64.of_int n
                <= inject_Z n * (1 + unit_roundoff))%Q) by (apply round_error; lra).
  unfold unit_roundoff in Hr.
  set (N := inject_Z n) in *. set (rn := Binary64.of_int n) in *.
  assert (Hrn : (0 < rn)%Q) by lra.
  assert (Hq : ((1 # 10000000000000000) + (1 # 100000000000000000) <= d / rn)%Q).
  { apply Qle_shift_div_l; lra. }
  assert (Hx : (d / rn * (1 - unit_roundoff) <= len <= d / rn * (1 + unit_roundoff))%Q)
    by (apply round_error; lra).
  unfold unit_roundoff in Hx. destruct Hx as [Hx1 Hx2].
  assert (Eq : (d / rn * rn == d)%Q) by (field; lra).
  assert (Hlen : (1 # 10000000000000000 <= len)%Q) by lra.
  split; [exact Hlen|].
  assert (P1 : (d / rn * (1 - (1 # 9007199254740992)) * rn <= len * rn)%Q)
    by (apply Qmult_le_compat_r; lra).
  assert (P2 : (len * rn <= d / rn * (1 + (1 # 9007199254740992)) * rn)%Q)
    by (apply Qmult_le_compat_r; lra).
  assert (P3 : (len * (N * (1 - (1 # 9007199254740992))) <= len * rn)%Q)
    by (apply Qmult_le_l; lra).
  assert (P4 : (len * rn <= len * (N * (1 + (1 # 9007199254740992))))%Q)
    by (apply Qmult_le_l; lra).
  assert (E1 : (d / rn * (1 - (1 # 9007199254740992)) * rn
                == d * (1 - (1 # 9007199254740992)))%Q) by (rewrite <- Eq at 2; ring).
  assert (E2 : (d / rn * (1 + (1 # 9007199254740992)) * rn
                == d * (1 + (1 # 9007199254740992)))%Q) by (rewrite <- Eq at 2; ring).
  rewrite E1 in P1. rewrite E2 in P2.
  assert (E3 : (len * (N * (1 - (1 # 9007199254740992)))
                == N * len * (1 - (1 # 9007199254740992)))%Q) by ring.
  assert (E4 : (len * (N * (1 + (1 # 9007199254740992)))
                == N * len * (1 + (1 # 9007199254740992)))%Q) by ring.
  rewrite E3 in P3. rewrite E4 in P4.
  set (NL := (N * len)%Q) in *. set (LR := (len * rn)%Q) in *.
  lra.
Qed.

Lemma num_segments_rational : (1 <= inject_Z n <= 2147483648)%Q.
Proof.
  pose proof num_segments_bounds as [Hn1 Hn2].
  change 1%Q with (inject_Z 1). change 2147483648%Q with (inject_Z 2147483648).
  rewrite <- !Zle_Qle. lia.
Qed.

Lemma index_rational i :
  (0 <= i < n)%Z -> (0 <= inject_Z i)%Q /\ (inject_Z i + 1 <= inject_Z n)%Q.
Proof.
  intros Hi. change 0%Q with (inject_Z 0). change 1%Q with (inject_Z 1).
  rewrite <- inject_Z_plus, <- !Zle_Qle. lia.
Qed.

(** The offset of chunk [i] is [i] times the even length up to two
    roundings. *)
Lemma chunk_start_rounded i :
  (0 <= i < n)%Z ->
  (inject_Z i * len * (1 - (1 # 2251799813685248)) <= rounded_chunk_start len i
   <= inject_Z i * len * (1 + (1 # 2251799813685248)))%Q.
Proof.
  intros Hi. pose proof min_normal_small as Hs.
  pose proof even_length_rounded as [Hlen _].
  unfold rounded_chunk_start, Binary64.mul.
  destruct (Z.eq_dec i 0%Z) as [->|Hne].
  - change (Binary64.of_int 0%Z) with 0%Q.
    rewrite (round_zero (0 * len)) by ring.
    change (inject_Z 0) with 0%Q. lra.
  - pose proof (index_rational i Hi) as [_ Hi2].
    pose proof num_segments_rational as [_ HN].
    assert (HI : (1 <= inject_Z i)%Q).
    { change 1%Q with (inject_Z 1). rewrite <- Zle_Qle. lia. }
    assert (Hr : (inject_Z i * (1 - unit_roundoff) <= Binary64.of_int i
                  <= inject_Z i * (1 + unit_roundoff))%Q) by (apply round_error; lra).
    unfold unit_roundoff in Hr. destruct Hr as [Hr1 Hr2].
    set (I := inject_Z i) in *. set (ri := Binary64.of_int i) in *.
    assert (P0 : (1 * len <= I * len)%Q) by (apply Qmult_le_compat_r; lra).
    assert (P1 : (I * (1 - (1 # 9007199254740992)) * len <= ri * len)%Q)
      by (apply Qmult_le_compat_r; lra).
    assert (P2 : (ri * len <= I * (1 + (1 # 9007199254740992)) * len)%Q)
      by (apply Qmult_le_compat_r; lra).
    assert (E1 : (I * (1 - (1 # 9007199254740992)) * len
                  == I * len * (1 - (1 # 9007199254740992)))%Q) by ring.
    assert (E2 : (I * (1 + (1 # 9007199254740992)) * len
                  == I * len * (1 + (1 # 9007199254740992)))%Q) by ring.
    rewrite E1 in P1. rewrite E2 in P2.
    set (IL := (I * len)%Q) in *. set (p := (ri * len)%Q) in *.
    assert (Hx : (p * (1 - unit_roundoff) <= Binary64.round p
                  <= p * (1 + unit_roundoff))%Q) by (apply round_error; lra).
    unfold unit_roundoff in Hx. lra.
Qed.

(** What is left of the recording at chunk [i] is at least half the even
    length, so that its rounding is in the normal range. *)
Lemma remaining_rounded i :
  (0 <= i < n)%Z ->
  let off := rounded_chunk_start len i in
  (len - d * (3 # 2251799813685248) <= Binary64.sub d off)%Q /\
  ((i < n - 1)%Z -> (len <= Binary64.sub d off)%Q).
Proof.
  intros Hi off. pose proof min_normal_small as Hs.
  pose proof even_length_rounded as [Hlen [HL1 HL2]].
  pose proof (chunk_start_rounded i Hi) as [Ho1 Ho2]. fold off in Ho1, Ho2.
  pose proof (index_rational i Hi) as [Hi1 Hi2].
  pose proof num_segments_rational as [HN1 HN2].
  set (I := inject_Z i) in *. set (N := inject_Z n) in *.
  assert (P1 : ((I + 1) * len <= N * len)%Q) by (apply Qmult_le_compat_r; lra).
  assert (P2 : (N * len <= 2147483648 * len)%Q) by (apply Qmult_le_compat_r; lra).
  assert (P3 : (0 * len <= I * len)%Q) by (apply Qmult_le_compat_r; lra).
  assert (E1 : ((I + 1) * len == I * len + len)%Q) by ring.
  rewrite E1 in P1.
  set (IL := (I * len)%Q) in *. set (NL := (N * len)%Q) in *.
  assert (Hrem : (len * (1 # 2) <= d - off)%Q) by lra.
  assert (Hx : ((d - off) * (1 - unit_roundoff) <= Binary64.sub d off
                <= (d - off) * (1 + unit_roundoff))%Q)
    by (apply round_error; lra).
  unfold unit_roundoff in Hx. split; [lra|].
  intros Hlt.
  assert (Hi3 : (I + 2 <= N)%Q).
  { subst I N. change 2%Q with (inject_Z 2).
    rewrite <- inject_Z_plus, <- Zle_Qle. lia. }
  assert (P4 : ((I + 2) * len <= N * len)%Q) by (apply Qmult_le_compat_r; lra).
  assert (E2 : ((I + 2) * len == IL + 2 * len)%Q) by (subst IL; ring).
  rewrite E2 in P4. fold NL in P4. lra.
Qed.

(** Every chunk but the last lasts the even length exactly ... *)
Lemma rounded_duration_even i :
  (0 <= i < n - 1)%Z -> rounded_duration d len i = len.
Proof.
  intros Hi. unfold rounded_duration, py_min.
  destruct (remaining_rounded i) as [_ H]; [lia|].
  assert (Hle : (len <= Binary64.sub d (rounded_chunk_start len i))%Q) by (apply H; lia).
  apply Qle_bool_iff in Hle. now rewrite Hle.
Qed.

(** ... and the last one the even length or a little less. *)
Lemma rounded_duration_bounds i :
  (0 <= i < n)%Z ->
  (len - d * (3 # 2251799813685248) <= rounded_duration d len i <= len)%Q.
Proof.
  intros Hi. unfold rounded_duration, py_min.
  destruct (remaining_rounded i Hi) as [H _]. cbn zeta in H.
  destruct Hd as [Hd1 _].
  destruct (Qle_bool len (Binary64.sub d (rounded_chunk_start len i))) eqn:E.
  - lra.
  - split; [exact H|]. apply Qlt_le_weak, Qnot_le_lt. intros Hle.
    apply Qle_bool_iff in Hle. congruence.
Qed.

(** Offsets increase strictly, and a chunk starts where the previous one
    ends up to the tolerance. *)
Lemma rounded_contiguous i :
  (0 <= i)%Z -> (i + 1 < n)%Z ->
  (rounded_chunk_start len i < rounded_chunk_start len (i + 1))%Q /\
  within (tolerance d) (rounded_chunk_start len (i + 1))
         (rounded_chunk_start len i + rounded_duration d len i).
Proof.
  intros Hi0 Hi1. rewrite rounded_duration_even by lia.
  pose proof even_length_rounded as [Hlen [HL1 HL2]].
  pose proof (chunk_start_rounded i) as [Ho1 Ho2]; [lia|].
  pose proof (chunk_start_rounded (i + 1)) as [Hs1 Hs2]; [lia|].
  pose proof (index_rational (i + 1)) as [_ Hi2]; [lia|].
  pose proof (index_rational i) as [Hi3 _]; [lia|].
  pose proof num_segments_rational as [HN1 HN2].
  rewrite inject_Z_plus in Hs1, Hs2, Hi2. change (inject_Z 1) with 1%Q in Hs1, Hs2, Hi2.
  set (I := inject_Z i) in *. set (N := inject_Z n) in *.
  assert (P1 : ((I + 1 + 1) * len <= N * len)%Q) by (apply Qmult_le_compat_r; lra).
  assert (P2 : (N * len <= 2147483648 * len)%Q) by (apply Qmult_le_compat_r; lra).
  assert (P3 : (0 * len <= I * len)%Q) by (apply Qmult_le_compat_r; lra).
  assert (E1 : ((I + 1 + 1) * len == I * len + 2 * len)%Q) by ring.
  assert (E2 : ((I + 1) * len == I * len + len)%Q) by ring.
  rewrite E1 in P1. rewrite E2 in Hs1, Hs2.
  set (IL := (I * len)%Q) in *. set (NL := (N * len)%Q) in *.
  destruct Hd as [Hd1 Hd2].
  unfold within, tolerance. split; [lra|]. split; lra.
Qed.

(** The durations add up to the duration of the recording up to the
    tolerance. *)
Lemma rounded_sum :
  within (tolerance d) (Qsum (map (rounded_duration d len) (py_range n))) d.
Proof.
  pose proof num_segments_bounds as [Hn1 Hn2].
  pose proof even_length_rounded as [Hlen [HL1 HL2]].
  rewrite (py_range_snoc n Hn1), map_app. cbn [map].
  assert (Hall : Forall (fun y => y = len) (map (rounded_duration d len) (py_range (n - 1)))).
  { apply Forall_forall. intros y Hy. apply list_elem_of_In, in_map_iff in Hy as (i & <- & Hin).
    apply rounded_duration_even. unfold py_range in Hin.
    apply in_map_iff in Hin as (k & <- & Hk). apply in_seq in Hk. lia. }
  pose proof (Qsum_all_equal len _ Hall) as Es.
  rewrite length_map, py_range_length, Z2Nat.id in Es by lia.
  pose proof (rounded_duration_bounds (n - 1)) as [Hb1 Hb2]; [lia|].
  set (last := rounded_duration d len (n - 1)) in *.
  assert (ES : (Qsum (map (rounded_duration d len) (py_range (n - 1)) ++ [last])
                == inject_Z n * len - len + last)%Q).
  { rewrite Qsum_app, Es. unfold Z.sub. rewrite inject_Z_plus.
    change (inject_Z (- (1))) with (- (1))%Q. change (Qsum [last]) with (last + 0)%Q. ring. }
  unfold within, tolerance. rewrite ES.
  set (NL := (inject_Z n * len)%Q) in *.
  destruct Hd as [Hd1 Hd2]. lra.
Qed.

End RoundedPlan.

(** *** The run of the chunker in binary64 arithmetic *)

Lemma rounded_body_run fp d len acc i w :
  Binary64.segment_audio_body fp d len acc i w
  = ({| fs := <[fresh (dom (fs w)) := empty_file]> (fs w);
        commands := commands w ++
          [FfmpegSlice fp (rounded_chunk_start len i) (rounded_duration d len i)
                       (fresh (dom (fs w)))];
        ui := ui w; session := session w |},
     inr (acc ++ [(fresh (dom (fs w)), rounded_chunk_start len i)])%list).
Proof. reflexivity. Qed.

Lemma rounded_slicing_loop fp d len idxs : forall w acc,
  exists paths,
    for_each idxs (Binary64.segment_audio_body fp d len) acc w
    = ({| fs := with_temps (fs w) paths;
          commands := commands w ++
            zip_with (fun p i => FfmpegSlice fp (rounded_chunk_start len i)
                                   (rounded_duration d len i) p) paths idxs;
          ui := ui w; session := session w |},
       inr (acc ++ zip paths (map (rounded_chunk_start len) idxs))%list)
    /\ length paths = length idxs
    /\ NoDup paths
    /\ Forall (fun p => fs w !! p = None) paths.
Proof.
  induction idxs as [|i idxs IH]; intros w acc.
  - exists []. simpl. rewrite !app_nil_r. destruct w.
    repeat split; constructor.
  - cbn [for_each]. rewrite bind_unfold, rounded_body_run.
    set (name := fresh (dom (fs w))).
    set (w1 := {| fs := <[name := empty_file]> (fs w);
                  commands := commands w ++
                    [FfmpegSlice fp (rounded_chunk_start len i) (rounded_duration d len i) name];
                  ui := ui w; session := session w |}).
    destruct (IH w1 (acc ++ [(name, rounded_chunk_start len i)])%list)
      as (paths & E & Hlen & Hnd & Hfresh).
    exists (name :: paths). rewrite E. subst w1; cbn [fs commands ui session].
    rewrite <- !app_assoc. cbn [app zip_with zip map with_temps foldl length].
    repeat split.
    + now rewrite Hlen.
    + constructor; [|exact Hnd].
      intros Hin. rewrite Forall_forall in Hfresh.
      specialize (Hfresh name). apply Hfresh in Hin. cbn in Hin.
      now rewrite lookup_insert_eq in Hin.
    + constructor; [apply fresh_lookup|].
      eapply Forall_impl; [exact Hfresh|]. cbn. intros p Hp.
      destruct (decide (name = p)) as [->|Hne].
      * now rewrite lookup_insert_eq in Hp.
      * now rewrite lookup_insert_ne in Hp.
Qed.

Lemma rounded_segment_audio_split w fp max_d max_sz printed sz :
  fs w !! fp = Some (mkFile (Some printed) sz) ->
  let d := Binary64.round printed in
  let ratio := Binary64.round (d / Binary64.of_number max_d) in
  let n := Qceiling ratio in
  let len := Binary64.round (d / Binary64.of_int n) in
  Qle_bool d max_d && (sz <=? max_sz)%Z = false ->
  ~ (Binary64.of_number max_d == 0)%Q ->
  (- Binary64.max_float <= ratio <= Binary64.max_float)%Q ->
  ~ (Binary64.of_int n == 0)%Q ->
  exists paths,
    Binary64.segment_audio fp max_d max_sz w
    = ({| fs := with_temps (fs w) paths;
          commands := commands w ++
            zip_with (fun p i => FfmpegSlice fp (rounded_chunk_start len i)
                                   (rounded_duration d len i) p)
                     paths (py_range n);
          ui := ui w; session := session w |},
       inr (zip paths (map (rounded_chunk_start len) (py_range n))))
    /\ length paths = Z.to_nat n
    /\ NoDup paths
    /\ Forall (fun p => fs w !! p = None) paths.
Proof.
  intros Hf d ratio n len Hc Hmax [Hr1 Hr2] Hn.
  destruct (rounded_slicing_loop fp d len (py_range n) w []) as (paths & E & Hlen & Hnd & Hfr).
  exists paths. split; [|split; [|split]]; try assumption.
  - unfold Binary64.segment_audio, Binary64.get_audio_duration, get_audio_duration,
      os_path_getsize, get_fs.
    rewrite !bind_unfold, Hf. cbn. rewrite !bind_unfold, Hf. cbn.
    fold d. rewrite Hc. unfold Binary64.div.
    assert (E0 : Qeq_bool (Binary64.of_number max_d) 0 = false).
    { apply not_true_is_false. intros H. now apply Qeq_bool_iff in H. }
    rewrite bind_unfold, E0. cbn. fold ratio.
    unfold Binary64.int_ceil.
    apply Qle_bool_iff in Hr1, Hr2. rewrite bind_unfold, Hr1, Hr2. cbn. fold n.
    assert (E1 : Qeq_bool (Binary64.of_int n) 0 = false).
    { apply not_true_is_false. intros H. now apply Qeq_bool_iff in H. }
    rewrite bind_unfold, E1. cbn. exact E.
  - rewrite Hlen. unfold py_range. now rewrite length_map, length_seq.
Qed.

Lemma rounded_plan_slices fp d len idxs : forall paths,
  length paths = length idxs ->
  slice_plan (zip_with (fun p i => FfmpegSlice fp (rounded_chunk_start len i)
                                     (rounded_duration d len i) p) paths idxs)
  = map (fun i => (rounded_chunk_start len i, rounded_duration d len i)) idxs.
Proof.
  induction idxs as [|i idxs IH]; intros [|p paths] Hlen; try discriminate.
  - reflexivity.
  - cbn. f_equal. apply IH. now injection Hlen.
Qed.

Lemma max_float_large : (1000000001 <= Binary64.max_float)%Q.
Proof. apply Qle_bool_iff. vm_compute. reflexivity. Qed.

(** C3.  An input that exceeds the duration bound or the size bound is cut
    into num_segments = ceil(duration / max_duration) chunks, the quotient
    being the one of binary64 arithmetic.  Chunk i starts at
    i * (duration / num_segments) and lasts min(even length, duration -
    start): the even length for every chunk but the last, and the even
    length or a little less for the last.  The durations add up to the
    duration, and each chunk starts where the previous one ends, within the
    floating tolerance of a relative error 2^-48, and the offsets increase
    strictly.  The duration is between a microsecond, the resolution of what
    ffprobe prints, and 10^9 seconds, and the bound between one and 10^6
    seconds, so that every value of the plan is in the normal range of the
    doubles. *)
Theorem segment_audio_even_plan (w : World) (fp : string) (max_d : Q) (max_sz : Z)
    (printed : Q) (sz : Z) :
  fs w !! fp = Some (mkFile (Some printed) sz) ->
  let d := Binary64.round printed in
  (1 # 1000000 <= d <= 1000000000)%Q ->
  (1 <= max_d <= 1000000)%Q ->
  (max_d < d)%Q \/ (max_sz < sz)%Z ->
  let n := Qceiling (Binary64.round (d / Binary64.of_number max_d)) in
  let len := Binary64.round (d / Binary64.of_int n) in
  exists w' chunks cmds,
    Binary64.segment_audio fp max_d max_sz w = (w', inr chunks) /\
    commands w' = (commands w ++ cmds)%list /\
    let plan := slice_plan cmds in
    length plan = length cmds /\
    (1 <= n)%Z /\
    length plan = Z.to_nat n /\
    map snd chunks = map fst plan /\
    (forall i off dur, plan !! i = Some (off, dur) ->
       off = Binary64.mul (Binary64.of_int (Z.of_nat i)) len /\
       dur = py_min len (Binary64.sub d off) /\
       (dur <= len)%Q /\
       within (tolerance d) dur len /\
       ((S i < Z.to_nat n)%nat -> dur = len)) /\
    within (tolerance d) (Qsum (map snd plan)) d /\
    (forall i off dur off' dur',
       plan !! i = Some (off, dur) -> plan !! S i = Some (off', dur') ->
       (off < off')%Q /\ within (tolerance d) off' (off + dur)).
Proof.
  intros Hf d Hd Hm Hex n len.
  pose proof (num_segments_bounds d max_d Hd Hm) as Hn. fold n in Hn.
  pose proof (ratio_bounds d max_d Hd Hm) as Hratio.
  pose proof max_float_large as Hmax. pose proof min_normal_small as Hsmall.
  destruct (rounded_segment_audio_split w fp max_d max_sz printed sz Hf)
    as (paths & E & Hlen & _ & _).
  { apply split_condition. exact Hex. }
  { pose proof (round_error max_d) as H. unfold unit_roundoff in H.
    fold (Binary64.of_number max_d) in H. intros E0. rewrite E0 in H. lra. }
  { cbn zeta. fold d. set (mf := Binary64.max_float) in *. clearbody mf.
    destruct Hratio. split; lra. }
  { fold d n. pose proof (round_error (inject_Z n)) as H. unfold unit_roundoff in H.
    fold (Binary64.of_int n) in H.
    pose proof (num_segments_rational d max_d Hd Hm) as HN. fold n in HN.
    intros E0. rewrite E0 in H. lra. }
  fold d n len in E.
  eexists _, _, _. split; [exact E|]. split; [reflexivity|].
  cbn zeta.
  assert (Hlen' : length paths = length (py_range n)) by now rewrite py_range_length.
  rewrite (rounded_plan_slices fp d len _ _ Hlen').
  set (g := fun i => (rounded_chunk_start len i, rounded_duration d len i)).
  assert (Hlook : forall i off dur,
            map g (py_range n) !! i = Some (off, dur) ->
            (i < Z.to_nat n)%nat /\ off = rounded_chunk_start len (Z.of_nat i)
            /\ dur = rounded_duration d len (Z.of_nat i)).
  { intros i off dur Hi.
    assert (Hlt : (i < Z.to_nat n)%nat).
    { apply lookup_lt_Some in Hi. now rewrite length_map, py_range_length in Hi. }
    rewrite list_lookup_fmap, py_range_lookup in Hi by assumption.
    injection Hi as <- <-. now split. }
  split; [|split; [|split; [|split; [|split; [|split]]]]].
  - rewrite length_map, length_zip_with. lia.
  - lia.
  - now rewrite length_map, py_range_length.
  - rewrite snd_zip by (rewrite length_map; lia).
    rewrite <- list_fmap_compose. reflexivity.
  - intros i off dur Hi. apply Hlook in Hi as (Hlt & -> & ->).
    pose proof (rounded_duration_bounds d max_d Hd Hm (Z.of_nat i)) as Hb.
    fold n len in Hb. destruct Hb as [Hb1 Hb2]; [lia|].
    split; [reflexivity|]. split; [reflexivity|]. split; [exact Hb2|]. split.
    + unfold within, tolerance. destruct Hd as [Hd1 Hd2]. lra.
    + intros Hs. apply (rounded_duration_even d max_d Hd Hm). fold n. lia.
  - assert (Emap : map snd (map g (py_range n)) = map (rounded_duration d len) (py_range n)).
    { rewrite map_map. reflexivity. }
    rewrite Emap. apply (rounded_sum d max_d Hd Hm).
  - intros i off dur off' dur' Hi Hi'.
    apply Hlook in Hi as (_ & -> & ->). apply Hlook in Hi' as (Hlt & -> & _).
    rewrite Nat2Z.inj_succ. unfold Z.succ.
    apply (rounded_contiguous d max_d Hd Hm); fold n; lia.
Qed.

Lemma segment_audio_even_plan_witness :
  let d := Binary64.round (40001 # 10) in
  let n := Qceiling (Binary64.round (d / Binary64.of_number 600)) in
  let len := Binary64.round (d / Binary64.of_int n) in
  exists w' chunks cmds,
    Binary64.segment_audio "in.mp3" 600 (100 * 1024 * 1024) (recording (40001 # 10) 10)
    = (w', inr chunks) /\
    commands w' = (commands (recording (40001 # 10) 10) ++ cmds)%list /\
    let plan := slice_plan cmds in
    length plan = length cmds /\
    (1 <= n)%Z /\
    length plan = Z.to_nat n /\
    map snd chunks = map fst plan /\
    (forall i off dur, plan !! i = Some (off, dur) ->
       off = Binary64.mul (Binary64.of_int (Z.of_nat i)) len /\
       dur = py_min len (Binary64.sub d off) /\
       (dur <= len)%Q /\
       within (tolerance d) dur len /\
       ((S i < Z.to_nat n)%nat -> dur = len)) /\
    within (tolerance d) (Qsum (map snd plan)) d /\
    (forall i off dur off' dur',
       plan !! i = Some (off, dur) -> plan !! S i = Some (off', dur') ->
       (off < off')%Q /\ within (tolerance d) off' (off + dur)).
Proof.
  apply (segment_audio_even_plan (recording (40001 # 10) 10) "in.mp3" 600
           (100 * 1024 * 1024) (40001 # 10) 10).
  - vm_compute. reflexivity.
  - split; apply Qle_bool_iff; vm_compute; reflexivity.
  - split; apply Qle_bool_iff; vm_compute; reflexivity.
  - left. vm_compute. reflexivity.
Defined.

(** A recording whose duration ffprobe prints as 4000.1, with the default
    bounds: seven chunks of 571.4428571428572 s, the last of
    571.4428571428566 s.  Chunk 6 starts at 3428.6571428571433, which is not
    the end of chunk 5, neither exactly nor as the float sum
    2857.214285714286 + 571.4428571428572 = 3428.657142857143; the last
    chunk is shorter than the even length; and the durations do not add up
    to the duration exactly. *)
Lemma segment_audio_plan_inexact :
  let d := Binary64.round (40001 # 10) in
  exists w' chunks,
    Binary64.segment_audio "in.mp3" 600 (100 * 1024 * 1024) (recording (40001 # 10) 10)
    = (w', inr chunks) /\
    let plan := slice_plan (commands w') in
    (d == 8796312924533555 # 2199023255552)%Q /\
    length plan = 7%nat /\
    exists off5 dur5 off6 dur6,
      plan !! 5%nat = Some (off5, dur5) /\
      plan !! 6%nat = Some (off6, dur6) /\
      (off5 == 6283080660381111 # 2199023255552)%Q /\
      (dur5 == 5026464528304889 # 8796093022208)%Q /\
      (off6 == 3769848396228667 # 1099511627776)%Q /\
      (dur6 == 1256616132076221 # 2199023255552)%Q /\
      ~ (off6 == off5 + dur5)%Q /\
      ~ (off6 == Binary64.add off5 dur5)%Q /\
      (dur6 < dur5)%Q /\
      ~ (Qsum (map snd plan) == d)%Q.
Proof.
  eexists _, _. split; [vm_compute; reflexivity|].
  cbn zeta. split; [vm_compute; reflexivity|].
  split; [vm_compute; reflexivity|].
  eexists _, _, _, _.
  split; [vm_compute; reflexivity|]. split; [vm_compute; reflexivity|].
  split; [vm_compute; reflexivity|]. split; [vm_compute; reflexivity|].
  split; [vm_compute; reflexivity|]. split; [vm_compute; reflexivity|].
  split; [apply Qeq_bool_neq; vm_compute; reflexivity|].
  split; [apply Qeq_bool_neq; vm_compute; reflexivity|].
  split; [vm_compute; reflexivity|].
  apply Qeq_bool_neq. vm_compute. reflexivity.
Qed.

(** C4.  An input within both bounds, equality included, is planned as one
    chunk at offset 0: the chunk is the original file itself, nothing is
    sliced or created, and the duration of that file is the input duration. *)
Theorem segment_audio_single_chunk (w : World) (fp : string) (max_d : Q) (max_sz : Z)
    (d : Q) (sz : Z) :
  fs w !! fp = Some (mkFile (Some d) sz) ->
  (d <= max_d)%Q -> (sz <= max_sz)%Z ->
  segment_audio fp max_d max_sz w = (w, inr [(fp, 0%Q)]) /\
  get_audio_duration fp w = (w, inr d).
Proof.
  intros Hf Hd Hs. split.
  - apply (segment_audio_whole w fp max_d max_sz d sz Hf).
    apply andb_true_iff. split; [now apply Qle_bool_iff | now apply Z.leb_le].
  - unfold get_audio_duration, get_fs. rewrite bind_unfold, Hf. reflexivity.
Qed.

Lemma segment_audio_single_chunk_witness :
  segment_audio "in.mp3" 600 (100 * 1024 * 1024) (recording 600 (100 * 1024 * 1024))
  = (recording 600 (100 * 1024 * 1024), inr [("in.mp3", 0%Q)]) /\
  get_audio_duration "in.mp3" (recording 600 (100 * 1024 * 1024))
  = (recording 600 (100 * 1024 * 1024), inr 600%Q).
Proof.
  apply (segment_audio_single_chunk (recording 600 (100 * 1024 * 1024)) "in.mp3"
           600 (100 * 1024 * 1024) 600 (100 * 1024 * 1024));
    [vm_compute; reflexivity | discriminate | discriminate].
Defined.

Lemma Qle_bool_comp_l (x y z : Q) : (x == y)%Q -> Qle_bool x z = Qle_bool y z.
Proof.
  intros E. destruct (Qle_bool y z) eqn:H.
  - apply Qle_bool_iff. apply Qle_bool_iff in H. now rewrite E.
  - apply not_true_is_false. intros H'. apply Qle_bool_iff in H'.
    rewrite E in H'. apply Qle_bool_iff in H'. congruence.
Qed.

(** C5, as the code has it.  The planner does not validate the duration.
    An input of duration zero within both bounds is planned as one whole-file
    chunk at offset 0; outside the bounds the division by
    num_segments = 0 (or by a zero max_duration) raises ZeroDivisionError. *)
Theorem segment_audio_zero_duration (w : World) (fp : string) (max_d : Q) (max_sz : Z)
    (d : Q) (sz : Z) :
  fs w !! fp = Some (mkFile (Some d) sz) ->
  (d == 0)%Q ->
  segment_audio fp max_d max_sz w
  = if Qle_bool 0 max_d && (sz <=? max_sz)%Z
    then (w, inr [(fp, 0%Q)])
    else (w, inl ZeroDivisionError).
Proof.
  intros Hf Hd. rewrite <- (Qle_bool_comp_l d 0 max_d Hd).
  destruct (Qle_bool d max_d && (sz <=? max_sz)%Z) eqn:Hc.
  - now apply (segment_audio_whole w fp max_d max_sz d sz).
  - unfold segment_audio, get_audio_duration, os_path_getsize, get_fs.
    rewrite !bind_unfold, Hf. cbn. rewrite !bind_unfold, Hf. cbn.
    rewrite Hc. unfold py_div. rewrite bind_unfold.
    destruct (Qeq_bool max_d 0) eqn:E0; [reflexivity|]. cbn.
    assert (Hr : (d / max_d == 0)%Q) by (rewrite Hd; apply Qmult_0_l).
    rewrite (Qceiling_comp _ _ Hr). reflexivity.
Qed.

Lemma segment_audio_zero_duration_witness :
  segment_audio "in.mp3" 600 (100 * 1024 * 1024) (recording 0 (200 * 1024 * 1024))
  = (recording 0 (200 * 1024 * 1024), inl ZeroDivisionError).
Proof.
  apply (segment_audio_zero_duration (recording 0 (200 * 1024 * 1024)) "in.mp3"
           600 (100 * 1024 * 1024) 0 (200 * 1024 * 1024));
    [vm_compute; reflexivity | reflexivity].
Defined.

(** C5 as stated fails: a recording of duration zero and small size is
    planned without any error. *)
Lemma segment_audio_zero_duration_accepted :
  ~ exists w' e,
      segment_audio "in.mp3" default_max_duration default_max_file_size (recording 0 10)
      = (w', inl e).
Proof. intros (w' & e & H). vm_compute in H. discriminate. Qed.

(** The split path in one statement: what is returned and what is issued
    depends on the duration and on [max_d] only. *)
Lemma segment_audio_split_plan w fp max_d max_sz d sz :
  fs w !! fp = Some (mkFile (Some d) sz) ->
  (0 < d)%Q -> (0 < max_d)%Q ->
  (max_d < d)%Q \/ (max_sz < sz)%Z ->
  let n := Qceiling (d / max_d) in
  let len := (d / inject_Z n)%Q in
  exists w' chunks cmds,
    segment_audio fp max_d max_sz w = (w', inr chunks) /\
    commands w' = (commands w ++ cmds)%list /\
    length chunks = Z.to_nat n /\
    Forall (fun c => fs w !! c.1 = None) chunks /\
    map snd chunks = map (chunk_start_of len) (py_range n) /\
    slice_plan cmds
    = map (fun i => (chunk_start_of len i, current_duration_of d len i)) (py_range n).
Proof.
  intros Hf Hd Hm Hex n len.
  pose proof (num_segments_positive d max_d Hd Hm) as Hn. fold n in Hn.
  destruct (segment_audio_split w fp max_d max_sz d sz Hf (split_condition _ _ _ _ Hex)
              (positive_not_zero _ Hm)) as (paths & E & Hlen & _ & Hfr).
  { fold n. lia. }
  fold n len in E.
  assert (Hlen' : length paths = length (py_range n)) by now rewrite py_range_length.
  eexists _, _, _. split; [exact E|]. split; [reflexivity|].
  repeat split.
  - rewrite length_zip, length_map, py_range_length. lia.
  - apply Forall_forall. intros [p off] Hin. cbn.
    apply elem_of_zip_l in Hin. rewrite Forall_forall in Hfr. now apply Hfr.
  - rewrite snd_zip by (rewrite length_map; lia). reflexivity.
  - now apply slice_plan_slices.
Qed.

Lemma num_segments_one d max_d :
  (0 < d)%Q -> (d <= max_d)%Q -> Qceiling (d / max_d) = 1%Z.
Proof.
  intros Hd Hle.
  assert (Hm : (0 < max_d)%Q) by lra.
  pose proof (num_segments_positive d max_d Hd Hm) as H1.
  pose proof (Qceiling_lt (d / max_d)) as H2.
  assert (H3 : (d / max_d <= 1)%Q).
  { apply Qle_shift_div_r; [assumption|]. now rewrite Qmult_1_l. }
  assert (H4 : (inject_Z (Qceiling (d / max_d) - 1) < inject_Z 1)%Q).
  { eapply Qlt_le_trans; [exact H2 | exact H3]. }
  rewrite <- Zlt_Qlt in H4. lia.
Qed.

(** C9.  A recording of positive duration that fits the duration bound but
    exceeds the size bound is still planned as one chunk: one slice is cut,
    at offset 0 and of the whole duration, into a new file.  And whenever
    the split path is taken, the offsets and durations of the slices are the
    same for every file size and every size bound: [max_file_size] decides
    only whether the split path is taken. *)
Theorem oversized_short_recording_one_chunk :
  (forall (w : World) (fp : string) (max_d : Q) (max_sz : Z) (d : Q) (sz : Z),
     fs w !! fp = Some (mkFile (Some d) sz) ->
     (0 < d)%Q -> (d <= max_d)%Q -> (max_sz < sz)%Z ->
     exists w' p off dur,
       segment_audio fp max_d max_sz w = (w', inr [(p, off)]) /\
       commands w' = (commands w ++ [FfmpegSlice fp off dur p])%list /\
       (off == 0)%Q /\ (dur == d)%Q /\ p <> fp) /\
  (forall (w1 w2 : World) (fp : string) (max_d : Q) (max_sz1 max_sz2 : Z)
          (d : Q) (sz1 sz2 : Z),
     fs w1 !! fp = Some (mkFile (Some d) sz1) ->
     fs w2 !! fp = Some (mkFile (Some d) sz2) ->
     (0 < d)%Q -> (0 < max_d)%Q ->
     (max_d < d)%Q \/ (max_sz1 < sz1)%Z ->
     (max_d < d)%Q \/ (max_sz2 < sz2)%Z ->
     exists w1' w2' chunks1 chunks2 cmds1 cmds2,
       segment_audio fp max_d max_sz1 w1 = (w1', inr chunks1) /\
       segment_audio fp max_d max_sz2 w2 = (w2', inr chunks2) /\
       commands w1' = (commands w1 ++ cmds1)%list /\
       commands w2' = (commands w2 ++ cmds2)%list /\
       map snd chunks1 = map snd chunks2 /\
       slice_plan cmds1 = slice_plan cmds2).
Proof.
  split.
  - intros w fp max_d max_sz d sz Hf Hd Hle Hsz.
    assert (Hm : (0 < max_d)%Q) by lra.
    pose proof (num_segments_one d max_d Hd Hle) as Hn.
    destruct (segment_audio_split w fp max_d max_sz d sz Hf
                (split_condition _ _ _ _ (or_intror Hsz)) (positive_not_zero _ Hm))
      as (paths & E & Hlen & _ & Hfr).
    { rewrite Hn. discriminate. }
    rewrite Hn in E, Hlen.
    destruct paths as [|p [|? ?]]; try discriminate.
    change (py_range 1) with [0%Z] in E. cbn [zip_with zip map with_temps foldl] in E.
    eexists _, p, _, _. split; [exact E|]. cbn [commands].
    split; [reflexivity|]. split; [|split].
    + unfold chunk_start_of. apply Qmult_0_l.
    + rewrite (current_duration_even d 1 Hd) by lia.
      unfold Qdiv. change (/ inject_Z 1)%Q with 1%Q. apply Qmult_1_r.
    + intros ->. apply Forall_inv in Hfr. congruence.
  - intros w1 w2 fp max_d max_sz1 max_sz2 d sz1 sz2 Hf1 Hf2 Hd Hm Hex1 Hex2.
    destruct (segment_audio_split_plan w1 fp max_d max_sz1 d sz1 Hf1 Hd Hm Hex1)
      as (w1' & c1 & cmds1 & E1 & Hc1 & _ & _ & Ho1 & Hp1).
    destruct (segment_audio_split_plan w2 fp max_d max_sz2 d sz2 Hf2 Hd Hm Hex2)
      as (w2' & c2 & cmds2 & E2 & Hc2 & _ & _ & Ho2 & Hp2).
    exists w1', w2', c1, c2, cmds1, cmds2.
    repeat split; try assumption; congruence.
Qed.

Lemma oversized_short_recording_one_chunk_witness :
  (exists w' p off dur,
     segment_audio "in.mp3" 600 (100 * 1024 * 1024) (recording 100 (200 * 1024 * 1024))
     = (w', inr [(p, off)]) /\
     commands w' = (commands (recording 100 (200 * 1024 * 1024))
                    ++ [FfmpegSlice "in.mp3" off dur p])%list /\
     (off == 0)%Q /\ (dur == 100)%Q /\ p <> "in.mp3") /\
  (exists w1' w2' chunks1 chunks2 cmds1 cmds2,
     segment_audio "in.mp3" 600 (100 * 1024 * 1024) (recording 1500 10)
     = (w1', inr chunks1) /\
     segment_audio "in.mp3" 600 1024 (recording 1500 2048) = (w2', inr chunks2) /\
     commands w1' = (commands (recording 1500 10) ++ cmds1)%list /\
     commands w2' = (commands (recording 1500 2048) ++ cmds2)%list /\
     map snd chunks1 = map snd chunks2 /\
     slice_plan cmds1 = slice_plan cmds2).
Proof.
  split.
  - apply (proj1 oversized_short_recording_one_chunk
             (recording 100 (200 * 1024 * 1024)) "in.mp3" 600%Q (100 * 1024 * 1024)%Z
             100%Q (200 * 1024 * 1024)%Z);
      [vm_compute; reflexivity | reflexivity | discriminate | reflexivity].
  - apply (proj2 oversized_short_recording_one_chunk
             (recording 1500 10) (recording 1500 2048) "in.mp3" 600%Q
             (100 * 1024 * 1024)%Z 1024%Z 1500%Q 10%Z 2048%Z);
      [vm_compute; reflexivity | vm_compute; reflexivity | reflexivity | reflexivity
      | left; reflexivity | left; reflexivity].
Defined.

(** *** The single slice in binary64 arithmetic *)

Lemma ceiling_one (r : Q) : (0 < r <= 1)%Q -> Qceiling r = 1%Z.
Proof.
  intros [H0 H1]. pose proof (Qle_ceiling r) as Hc. pose proof (Qceiling_lt r) as Hl.
  assert (H2 : (inject_Z 0 < inject_Z (Qceiling r))%Q) by (change (inject_Z 0) with 0%Q; lra).
  assert (H3 : (inject_Z (Qceiling r - 1) < inject_Z 1)%Q) by (change (inject_Z 1) with 1%Q; lra).
  rewrite <- Zlt_Qlt in H2, H3. lia.
Qed.

(** With a duration of a microsecond or more and a bound of 10^6 seconds at
    most, the quotient of the two is not rounded to zero. *)
Lemma quotient_positive (d max_d : Q) :
  (1 # 1000000 <= d)%Q -> (d <= max_d <= 1000000)%Q ->
  (0 < Binary64.round (d / Binary64.of_number max_d))%Q.
Proof.
  intros Hd [Hm1 Hm2]. pose proof min_normal_small as Hs.
  assert (Hr : (max_d * (1 - unit_roundoff) <= Binary64.of_number max_d
                <= max_d * (1 + unit_roundoff))%Q) by (apply round_error; lra).
  unfold unit_roundoff in Hr. set (rm := Binary64.of_number max_d) in *.
  assert (Hq : (1 # 10000000000000 <= d / rm)%Q) by (apply Qle_shift_div_l; lra).
  pose proof (round_error (d / rm)) as Hx. unfold unit_roundoff in Hx. lra.
Qed.

(** What the exact arithmetic gives for a short recording that is too large,
    one slice at offset 0 of the whole duration, is also what binary64
    arithmetic gives, provided that the quotient duration / max_duration is
    not rounded to zero. *)
Lemma rounded_single_slice w fp max_d max_sz printed sz :
  fs w !! fp = Some (mkFile (Some printed) sz) ->
  let d := Binary64.round printed in
  (0 < d <= max_d)%Q -> (max_sz < sz)%Z ->
  (0 < Binary64.round (d / Binary64.of_number max_d))%Q ->
  exists w' p dur,
    Binary64.segment_audio fp max_d max_sz w = (w', inr [(p, 0%Q)]) /\
    commands w' = (commands w ++ [FfmpegSlice fp 0 dur p])%list /\
    fs w' = <[p := empty_file]> (fs w) /\
    (dur == d)%Q /\ fs w !! p = None.
Proof.
  intros Hf d [Hd0 Hdm] Hsz Hpos.
  assert (Hdd : (Binary64.round d == d)%Q) by apply round_idempotent.
  assert (Hrm : (d <= Binary64.of_number max_d)%Q).
  { rewrite <- Hdd. now apply round_monotone. }
  set (rm := Binary64.of_number max_d) in *.
  set (ratio := Binary64.round (d / rm)) in *.
  assert (Hone : (Binary64.round 1 == 1)%Q) by (apply Qeq_bool_iff; vm_compute; reflexivity).
  assert (Hratio : (ratio <= 1)%Q).
  { rewrite <- Hone. apply round_monotone. apply Qle_shift_div_r; lra. }
  assert (Hn : Qceiling ratio = 1%Z) by (apply ceiling_one; lra).
  pose proof max_float_large as Hmax.
  destruct (rounded_segment_audio_split w fp max_d max_sz printed sz Hf)
    as (paths & E & Hlen & _ & Hfr).
  { fold d. apply split_condition. now right. }
  { fold rm. lra. }
  { fold d rm ratio. set (mf := Binary64.max_float) in *. clearbody mf. split; lra. }
  { fold d rm ratio. rewrite Hn. intros E0.
    apply Qeq_bool_iff in E0. vm_compute in E0. discriminate. }
  fold d rm ratio in E, Hlen. rewrite Hn in E, Hlen.
  destruct paths as [|p [|? ?]]; try discriminate.
  change (py_range 1) with [0%Z] in E. cbn [zip_with zip map with_temps foldl] in E.
  set (len := Binary64.round (d / Binary64.of_int 1)) in *.
  assert (Elen : len = Binary64.round d).
  { apply round_comp.
    assert (E1 : (Binary64.of_int 1 == 1)%Q) by (apply Qeq_bool_iff; vm_compute; reflexivity).
    rewrite E1. unfold Qdiv. change (/ 1)%Q with 1%Q. ring. }
  assert (Eoff : rounded_chunk_start len 0 = 0%Q).
  { unfold rounded_chunk_start, Binary64.mul. apply round_zero.
    change (Binary64.of_int 0%Z) with 0%Q. ring. }
  assert (Edur : rounded_duration d len 0 = Binary64.round d).
  { unfold rounded_duration. rewrite Eoff, Elen. unfold Binary64.sub.
    rewrite (round_comp (d - 0) d) by ring.
    unfold py_min. now destruct (Qle_bool (Binary64.round d) (Binary64.round d)). }
  rewrite Eoff, Edur in E.
  eexists _, p, (Binary64.round d). split; [exact E|].
  cbn [commands fs]. split; [reflexivity|]. split; [reflexivity|]. split; [exact Hdd|].
  now inversion Hfr.
Qed.

(** ** The rename transform *)

Lemma replace_scan_skip old new s : forall k,
  PyStr.replace_scan old new k s = PyStr.replace_scan old new 0 (PyStr.drop k s).
Proof.
  induction s as [|c s IH]; intros [|k]; try reflexivity.
  cbn [PyStr.replace_scan PyStr.drop]. apply IH.
Qed.

Lemma replace_nonempty old new s :
  old <> "" -> PyStr.replace old new s = PyStr.replace_scan old new 0 s.
Proof. destruct old; [congruence | reflexivity]. Qed.

Lemma replace_scan_match old new s :
  old <> "" -> String.prefix old s = true ->
  PyStr.replace_scan old new 0 s
  = new ++ PyStr.replace_scan old new 0 (PyStr.drop (String.length old) s).
Proof.
  intros Hne Hp. destruct s as [|c s].
  - destruct old; [congruence | discriminate].
  - cbn [PyStr.replace_scan]. rewrite Hp. rewrite replace_scan_skip.
    destruct old as [|o old]; [congruence|].
    cbn [String.length].
    replace (S (String.length old) - 1)%nat with (String.length old) by lia.
    reflexivity.
Qed.

Lemma replace_scan_no_match old new c s :
  String.prefix old (String c s) = false ->
  PyStr.replace_scan old new 0 (String c s) = String c (PyStr.replace_scan old new 0 s).
Proof. intros Hp. cbn [PyStr.replace_scan]. now rewrite Hp. Qed.

Lemma replace_absent old new s :
  old <> "" -> PyStr.occurs old s = false -> PyStr.replace old new s = s.
Proof.
  intros Hne. rewrite replace_nonempty by assumption.
  induction s as [|c s IH]; intros Ho; [reflexivity|].
  cbn [PyStr.occurs] in Ho. apply orb_false_iff in Ho as [Hp Ho].
  rewrite replace_scan_no_match by assumption. now rewrite IH.
Qed.

Lemma prefix_app old b : String.prefix old (old ++ b) = true.
Proof.
  induction old as [|c old IH]; [destruct b; reflexivity|].
  rewrite string_app_cons. cbn [String.prefix].
  destruct (ascii_dec c c); [exact IH | congruence].
Qed.

Lemma drop_app old b : PyStr.drop (String.length old) (old ++ b) = b.
Proof. induction old as [|c old IH]; [reflexivity | exact IH]. Qed.

Lemma prefix_split old s :
  String.prefix old s = true -> s = old ++ PyStr.drop (String.length old) s.
Proof.
  revert s. induction old as [|c old IH]; intros s H; [reflexivity|].
  destruct s as [|c' s]; [discriminate|].
  cbn [String.prefix] in H. destruct (ascii_dec c c') as [->|]; [|discriminate].
  rewrite string_app_cons. cbn [String.length PyStr.drop]. f_equal. now apply IH.
Qed.

Lemma replace_first old new a b :
  old <> "" ->
  (forall k, (k < String.length a)%nat ->
             String.prefix old (PyStr.drop k (a ++ old ++ b)) = false) ->
  PyStr.replace old new (a ++ old ++ b) = a ++ new ++ PyStr.replace old new b.
Proof.
  intros Hne. rewrite !replace_nonempty by assumption.
  induction a as [|c a IH]; intros Hfirst.
  - change ("" ++ old ++ b) with (old ++ b).
    rewrite replace_scan_match by (assumption || apply prefix_app).
    now rewrite drop_app.
  - rewrite !string_app_cons.
    rewrite replace_scan_no_match.
    + f_equal. apply IH. intros k Hk.
      apply (Hfirst (S k)). cbn [String.length]. lia.
    + apply (Hfirst 0%nat). cbn [String.length]. lia.
Qed.

Lemma rename_speakers_error labels m e :
  foldl (rename_step m) (inl e) labels = inl e.
Proof. induction labels as [|l labels IH]; [reflexivity | exact IH]. Qed.

Lemma rename_speakers_cons lbl labels m t :
  rename_speakers (lbl :: labels) m t
  = match m !! lbl with
    | Some new_name =>
        rename_speakers labels m (PyStr.replace (lbl ++ ":") (new_name ++ ":") t)
    | None => inl (KeyError lbl)
    end.
Proof.
  unfold rename_speakers. cbn [foldl]. unfold rename_step at 2, dict_get.
  destruct (m !! lbl); [reflexivity | apply rename_speakers_error].
Qed.

Lemma label_pattern_nonempty lbl : lbl ++ ":" <> "".
Proof. destruct lbl; discriminate. Qed.

Lemma rename_speakers_fixed labels m t :
  (forall lbl, lbl ∈ labels -> is_Some (m !! lbl)) ->
  (forall lbl, lbl ∈ labels -> PyStr.occurs (lbl ++ ":") t = false) ->
  rename_speakers labels m t = inr t.
Proof.
  induction labels as [|lbl labels IH]; intros Hm Ho; [reflexivity|].
  rewrite rename_speakers_cons.
  destruct (Hm lbl) as [new_name ->]; [now left|].
  rewrite replace_absent; [|apply label_pattern_nonempty | apply Ho; now left].
  apply IH; intros l Hl; [apply Hm | apply Ho]; now right.
Qed.

Lemma rename_speakers_lookup labels m : forall t t',
  rename_speakers labels m t = inr t' ->
  forall lbl, lbl ∈ labels -> is_Some (m !! lbl).
Proof.
  induction labels as [|l labels IH]; intros t t' E lbl Hin.
  - now apply elem_of_nil in Hin.
  - rewrite rename_speakers_cons in E.
    destruct (m !! l) as [new_name|] eqn:El; [|discriminate].
    apply elem_of_cons in Hin as [->|Hin]; [now rewrite El|].
    eapply IH; eassumption.
Qed.

(** *** Replacing is cutting and gluing *)

Lemma split_scan_nonempty sep s : forall k cur, split_scan sep k cur s <> [].
Proof.
  induction s as [|c s IH]; intros k cur; [discriminate|].
  cbn [split_scan]. destruct k as [|k]; [|apply IH].
  destruct (String.prefix sep (String c s)); [discriminate | apply IH].
Qed.

Lemma join_cons sep x l : l <> [] -> PyStr.join sep (x :: l) = x ++ sep ++ PyStr.join sep l.
Proof. destruct l; [congruence | reflexivity]. Qed.

(** The scan of [str.replace] and the scan of [str.split] meet the same
    occurrences: the replaced text is the pieces glued with [new]. *)
Lemma replace_scan_split old new s : forall k cur,
  cur ++ PyStr.replace_scan old new k s = PyStr.join new (split_scan old k cur s).
Proof.
  induction s as [|c s IH]; intros k cur.
  - cbn [PyStr.replace_scan split_scan PyStr.join]. apply string_app_nil_r.
  - cbn [PyStr.replace_scan split_scan]. destruct k as [|k]; [|apply IH].
    destruct (String.prefix old (String c s)).
    + rewrite join_cons by apply split_scan_nonempty.
      rewrite <- IH. reflexivity.
    + rewrite <- IH, string_app_assoc. reflexivity.
Qed.

(** Gluing the pieces with the separator gives the text back. *)
Lemma split_scan_join sep s : forall k cur,
  sep <> "" -> PyStr.join sep (split_scan sep k cur s) = cur ++ PyStr.drop k s.
Proof.
  induction s as [|c s IH]; intros k cur Hne.
  - cbn [split_scan PyStr.join]. destruct k; cbn [PyStr.drop]; now rewrite string_app_nil_r.
  - cbn [split_scan]. destruct k as [|k]; [|now apply IH].
    destruct (String.prefix sep (String c s)) eqn:Hp.
    + rewrite join_cons by apply split_scan_nonempty.
      rewrite IH by assumption. apply prefix_split in Hp.
      destruct sep as [|c0 sep]; [congruence|].
      cbn [String.length PyStr.drop] in *.
      replace (S (String.length sep) - 1)%nat with (String.length sep) by lia.
      change ("" ++ PyStr.drop (String.length sep) s) with (PyStr.drop (String.length sep) s).
      now rewrite <- Hp.
    + rewrite IH by assumption. cbn [PyStr.drop]. now rewrite string_app_assoc.
Qed.

Lemma prefix_app_r old a r : String.prefix old a = true -> String.prefix old (a ++ r) = true.
Proof.
  revert a. induction old as [|c old IH]; intros a H; [now destruct (a ++ r)|].
  destruct a as [|c' a]; [discriminate|].
  rewrite string_app_cons. cbn [String.prefix] in *.
  destruct (ascii_dec c c'); [now apply IH | discriminate].
Qed.

Lemma drop_app_le k a r :
  (k <= String.length a)%nat -> PyStr.drop k (a ++ r) = PyStr.drop k a ++ r.
Proof.
  revert a. induction k as [|k IH]; intros a Hk; [reflexivity|].
  destruct a as [|c a]; [cbn in Hk; lia|].
  rewrite string_app_cons. cbn [PyStr.drop]. apply IH. cbn in Hk. lia.
Qed.

Lemma length_app_char a c : String.length (a ++ String c "") = S (String.length a).
Proof. induction a as [|x a IH]; [reflexivity|]. rewrite string_app_cons. cbn. now rewrite IH. Qed.

(** A piece in which no occurrence starts, whatever follows it, has none. *)
Lemma occurs_none old a r :
  old <> "" ->
  (forall j, (j < String.length a)%nat -> String.prefix old (PyStr.drop j (a ++ r)) = false) ->
  PyStr.occurs old a = false.
Proof.
  intros Hne. induction a as [|c a IH]; intros H.
  - cbn. destruct old; [congruence | reflexivity].
  - cbn [PyStr.occurs]. apply orb_false_iff. split.
    + apply not_true_is_false. intros Hp.
      apply (prefix_app_r _ _ r) in Hp.
      specialize (H 0%nat). cbn [PyStr.drop String.length] in H.
      rewrite H in Hp by lia. discriminate.
    + apply IH. intros j Hj. specialize (H (S j)).
      rewrite string_app_cons in H. cbn [PyStr.drop String.length] in H.
      apply H. lia.
Qed.

(** No piece of a split contains the separator. *)
Lemma split_scan_pieces sep s : forall k cur,
  sep <> "" ->
  (forall j, (j < String.length cur)%nat ->
             String.prefix sep (PyStr.drop j (cur ++ PyStr.drop k s)) = false) ->
  Forall (fun piece => PyStr.occurs sep piece = false) (split_scan sep k cur s).
Proof.
  induction s as [|c s IH]; intros k cur Hne Hcur.
  - cbn [split_scan]. constructor; [|constructor].
    apply (occurs_none sep cur (PyStr.drop k "")); assumption.
  - cbn [split_scan]. destruct k as [|k]; [|now apply IH].
    cbn [PyStr.drop] in Hcur.
    destruct (String.prefix sep (String c s)) eqn:Hp.
    + constructor; [now apply (occurs_none sep cur (String c s))|].
      apply IH; [assumption|]. intros j Hj. cbn in Hj. lia.
    + apply IH; [assumption|]. cbn [PyStr.drop]. intros j Hj.
      rewrite length_app_char in Hj. rewrite string_app_assoc.
      change (String c "" ++ s) with (String c s).
      destruct (decide (j < String.length cur)%nat) as [Hlt|Hge]; [now apply Hcur|].
      assert (j = String.length cur) as -> by lia.
      rewrite drop_app. exact Hp.
Qed.

Lemma rename_speakers_fold labels (m : gmap string string) : forall t,
  (forall lbl, lbl ∈ labels -> is_Some (m !! lbl)) ->
  rename_speakers labels m t
  = inr (foldl (fun acc lbl => PyStr.join (default "" (m !! lbl) ++ ":")
                                 (str_split (lbl ++ ":") acc)) t labels).
Proof.
  induction labels as [|lbl labels IH]; intros t Hm; [reflexivity|].
  rewrite rename_speakers_cons. destruct (Hm lbl) as [new_name El]; [now left|].
  rewrite El. cbn [foldl]. rewrite El. cbn [default from_option].
  rewrite IH by (intros l Hl; apply Hm; now right).
  rewrite replace_nonempty by apply label_pattern_nonempty.
  unfold str_split. rewrite <- replace_scan_split. reflexivity.
Qed.

(** C6.  The rename transform replaces every literal occurrence of
    "<old_label>:" by "<new_label>:".  One replacement cuts the text at the
    occurrences of the pattern, met from left to right, and glues the pieces
    with the new pattern: the pieces glued with the old pattern are the
    text, and no piece contains the old pattern; a text without the pattern
    is left as it is, and the first occurrence is replaced and the rest of
    the text treated in the same way.  The loop does this for every label of
    the list in turn, whatever the list and the map.  Replacing "A:" by
    "Alice:" in "A: hi\n\nB: there" gives "Alice: hi\n\nB: there", with the
    label A alone and with the two labels of that transcript; and once no
    "<old_label>:" occurs in the result, applying the transform again
    changes nothing. *)
Theorem rename_replaces_labels :
  (forall old new t,
     old <> "" ->
     PyStr.join old (str_split old t) = t /\
     Forall (fun piece => PyStr.occurs old piece = false) (str_split old t) /\
     PyStr.replace old new t = PyStr.join new (str_split old t)) /\
  (forall lbl new_name t,
     PyStr.occurs (lbl ++ ":") t = false ->
     PyStr.replace (lbl ++ ":") (new_name ++ ":") t = t) /\
  (forall lbl new_name a b,
     (forall k, (k < String.length a)%nat ->
                String.prefix (lbl ++ ":") (PyStr.drop k (a ++ (lbl ++ ":") ++ b)) = false) ->
     PyStr.replace (lbl ++ ":") (new_name ++ ":") (a ++ (lbl ++ ":") ++ b)
     = a ++ (new_name ++ ":") ++ PyStr.replace (lbl ++ ":") (new_name ++ ":") b) /\
  (forall labels (m : gmap string string) t,
     (forall lbl, lbl ∈ labels -> is_Some (m !! lbl)) ->
     rename_speakers labels m t
     = inr (foldl (fun acc lbl => PyStr.join (default "" (m !! lbl) ++ ":")
                                    (str_split (lbl ++ ":") acc)) t labels)) /\
  rename_speakers ["A"] {["A" := "Alice"]} ("A: hi" ++ blank_line ++ "B: there")
  = inr ("Alice: hi" ++ blank_line ++ "B: there") /\
  speaker_labels_of [mkInterval 0 2 "A"; mkInterval 2 4 "B"] = ["A"; "B"] /\
  rename_speakers ["A"; "B"] (<["A" := "Alice"]> {["B" := "B"]})
    ("A: hi" ++ blank_line ++ "B: there")
  = inr ("Alice: hi" ++ blank_line ++ "B: there") /\
  (forall labels (m : gmap string string) t t',
     rename_speakers labels m t = inr t' ->
     (forall lbl, lbl ∈ labels -> PyStr.occurs (lbl ++ ":") t' = false) ->
     rename_speakers labels m t' = inr t').
Proof.
  split; [|split; [|split; [|split; [|split; [|split; [|split]]]]]].
  - intros old new t Hne. unfold str_split. split; [|split].
    + now rewrite split_scan_join.
    + apply split_scan_pieces; [assumption|]. intros j Hj. cbn in Hj. lia.
    + rewrite replace_nonempty by assumption.
      now rewrite <- replace_scan_split.
  - intros lbl new_name t Ho. apply replace_absent; [apply label_pattern_nonempty | exact Ho].
  - intros lbl new_name a b Hfirst.
    apply replace_first; [apply label_pattern_nonempty | exact Hfirst].
  - intros labels m t Hm. now apply rename_speakers_fold.
  - vm_compute. reflexivity.
  - vm_compute. reflexivity.
  - vm_compute. reflexivity.
  - intros labels m t t' E Ho. apply rename_speakers_fixed; [|exact Ho].
    eapply rename_speakers_lookup; eassumption.
Qed.

Lemma rename_replaces_labels_witness :
  (PyStr.join "A:" (str_split "A:" "A: hi A: yo") = "A: hi A: yo" /\
   Forall (fun piece => PyStr.occurs "A:" piece = false) (str_split "A:" "A: hi A: yo") /\
   PyStr.replace "A:" "Alice:" "A: hi A: yo"
   = PyStr.join "Alice:" (str_split "A:" "A: hi A: yo")) /\
  PyStr.replace "A:" "Alice:" "B: there" = "B: there" /\
  PyStr.replace "A:" "Alice:" ("x " ++ "A:" ++ " hi A: yo")
  = "x " ++ "Alice:" ++ PyStr.replace "A:" "Alice:" " hi A: yo" /\
  rename_speakers ["SPEAKER_00"; "SPEAKER_01"] swap_map "SPEAKER_00: hi"
  = inr (foldl (fun acc lbl => PyStr.join (default "" (swap_map !! lbl) ++ ":")
                                 (str_split (lbl ++ ":") acc))
               "SPEAKER_00: hi" ["SPEAKER_00"; "SPEAKER_01"]) /\
  rename_speakers ["A"] {["A" := "Alice"]} ("Alice: hi" ++ blank_line ++ "B: there")
  = inr ("Alice: hi" ++ blank_line ++ "B: there").
Proof.
  split; [|split; [|split; [|split]]].
  - apply (proj1 rename_replaces_labels "A:" "Alice:" "A: hi A: yo"). discriminate.
  - apply (proj1 (proj2 rename_replaces_labels) "A" "Alice"). vm_compute. reflexivity.
  - apply (proj1 (proj2 (proj2 rename_replaces_labels)) "A" "Alice" "x " " hi A: yo").
    intros [|[|k]] Hk; [reflexivity | reflexivity | cbn in Hk; lia].
  - apply (proj1 (proj2 (proj2 (proj2 rename_replaces_labels)))
             ["SPEAKER_00"; "SPEAKER_01"] swap_map).
    intros lbl Hl. apply elem_of_cons in Hl as [->|Hl]; [vm_compute; eauto|].
    apply list_elem_of_singleton in Hl as ->. vm_compute. eauto.
  - apply (proj2 (proj2 (proj2 (proj2 (proj2 (proj2 (proj2 rename_replaces_labels))))))
             ["A"] {["A" := "Alice"]} ("A: hi" ++ blank_line ++ "B: there")).
    + vm_compute. reflexivity.
    + intros lbl Hl. apply list_elem_of_singleton in Hl as ->. vm_compute. reflexivity.
Defined.

(** *** The order of the labels *)

Lemma label_lt_trans a b c : label_lt a b -> label_lt b c -> label_lt a c.
Proof.
  unfold label_lt, String.ltb. intros H1 H2.
  destruct (a ?= b)%string eqn:E1; try discriminate.
  destruct (b ?= c)%string eqn:E2; try discriminate.
  apply String_as_OT.cmp_lt in E1, E2.
  pose proof (String_as_OT.lt_trans _ _ _ E1 E2) as H.
  apply String_as_OT.cmp_lt in H. unfold String_as_OT.cmp in H. now rewrite H.
Qed.

Lemma label_not_lt a b :
  String.ltb a b = false -> String.eqb a b = false -> label_lt b a.
Proof.
  unfold label_lt, String.ltb. intros H1 H2.
  rewrite String.compare_antisym.
  destruct (a ?= b)%string eqn:E; try discriminate; [|reflexivity].
  apply String.compare_eq_iff in E. apply String.eqb_neq in H2. contradiction.
Qed.

Lemma insert_sorted_elem x l y : y ∈ insert_sorted x l <-> y = x \/ y ∈ l.
Proof.
  induction l as [|z l IH]; cbn [insert_sorted].
  - rewrite list_elem_of_singleton. split; [now left | intros [H|H]; [assumption|]].
    now apply elem_of_nil in H.
  - destruct (String.ltb x z) eqn:E1; [apply elem_of_cons|].
    destruct (String.eqb x z) eqn:E2.
    + apply String.eqb_eq in E2 as ->. split; [now right | intros [->|H]; [now left | assumption]].
    + rewrite !elem_of_cons, IH. tauto.
Qed.

Lemma insert_sorted_sorted x l :
  StronglySorted label_lt l -> StronglySorted label_lt (insert_sorted x l).
Proof.
  induction 1 as [|z l Hs IH Hz]; cbn [insert_sorted].
  - repeat constructor.
  - destruct (String.ltb x z) eqn:E1.
    + constructor; [now constructor|]. constructor; [exact E1|].
      eapply Forall_impl; [exact Hz|]. intros y Hy. eapply label_lt_trans; eassumption.
    + destruct (String.eqb x z) eqn:E2; [now constructor|].
      constructor; [exact IH|]. apply Forall_forall. intros y Hy.
      apply insert_sorted_elem in Hy as [->|Hy].
      * now apply label_not_lt.
      * rewrite Forall_forall in Hz. now apply Hz.
Qed.

Lemma sorted_set_sorted l : StronglySorted label_lt (sorted_set l).
Proof.
  induction l as [|x l IH]; [constructor|]. now apply insert_sorted_sorted.
Qed.

Lemma sorted_set_elem l y : y ∈ sorted_set l <-> y ∈ l.
Proof.
  induction l as [|x l IH]; [reflexivity|].
  cbn [sorted_set foldr]. fold (sorted_set l).
  now rewrite insert_sorted_elem, elem_of_cons, IH.
Qed.

(** C10.  The labels are renamed in ascending order, each label in every
    run exactly once, and the replacements are chained: a label is replaced
    over the whole text that the replacement before it has produced.  With a
    map that sends SPEAKER_00 to SPEAKER_01 and SPEAKER_01 to Bob, the
    paragraph of SPEAKER_00 is therefore renamed twice and ends up as Bob,
    both in the loop and in a whole run of [main], whereas a simultaneous
    substitution gives SPEAKER_01. *)
Theorem rename_is_sequential :
  (forall results,
     StronglySorted label_lt (speaker_labels_of results) /\
     forall lbl, lbl ∈ speaker_labels_of results <-> lbl ∈ map d_speaker results) /\
  (forall lbl labels (m : gmap string string) t new_name,
     m !! lbl = Some new_name ->
     rename_speakers (lbl :: labels) m t
     = rename_speakers labels m (PyStr.replace (lbl ++ ":") (new_name ++ ":") t)) /\
  speaker_labels_of two_speakers = ["SPEAKER_00"; "SPEAKER_01"] /\
  rename_speakers (speaker_labels_of two_speakers) swap_map
    (assign_speakers_to_transcription two_segments two_speakers).2
  = inr ("Bob: hi" ++ blank_line ++ "Bob: there") /\
  rename_simultaneous (speaker_labels_of two_speakers) swap_map
    (assign_speakers_to_transcription two_segments two_speakers).2
  = "SPEAKER_01: hi" ++ blank_line ++ "Bob: there" /\
  (forall text load pipeline,
     final_transcript <$>
       session (main text load true pipeline swap_inputs
                  (mkWorld ∅ [] [] (Some transcribed_session))).1
     = Some ("Bob: hi" ++ blank_line ++ "Bob: there")).
Proof.
  split; [|split; [|split; [|split; [|split]]]].
  - intros results. split; [apply sorted_set_sorted | intros lbl; apply sorted_set_elem].
  - intros lbl labels m t new_name Hm. now rewrite rename_speakers_cons, Hm.
  - vm_compute. reflexivity.
  - vm_compute. reflexivity.
  - vm_compute. reflexivity.
  - intros text load pipeline. vm_compute. reflexivity.
Qed.

Lemma rename_is_sequential_witness :
  rename_speakers ("SPEAKER_00" :: ["SPEAKER_01"]) swap_map "SPEAKER_00: hi"
  = rename_speakers ["SPEAKER_01"] swap_map
      (PyStr.replace ("SPEAKER_00" ++ ":") ("SPEAKER_01" ++ ":") "SPEAKER_00: hi").
Proof.
  apply (proj1 (proj2 rename_is_sequential) "SPEAKER_00" ["SPEAKER_01"] swap_map).
  vm_compute. reflexivity.
Defined.

(** ** Temporary files *)

Lemma with_temps_lookup ps : forall (f : gmap string File) q,
  with_temps f ps !! q = if decide (q ∈ ps) then Some empty_file else f !! q.
Proof.
  induction ps as [|p ps IH]; intros f q.
  - cbn. rewrite decide_False; [reflexivity | apply not_elem_of_nil].
  - cbn [with_temps foldl]. fold (with_temps (<[p:=empty_file]> f) ps). rewrite IH.
    destruct (decide (q ∈ ps)) as [Hin|Hnin].
    + rewrite decide_True; [reflexivity | now right].
    + destruct (decide (q = p)) as [->|Hne].
      * rewrite lookup_insert_eq, decide_True; [reflexivity | now left].
      * rewrite lookup_insert_ne by congruence.
        rewrite decide_False; [reflexivity|].
        intros Hin. apply elem_of_cons in Hin as [?|?]; contradiction.
Qed.

Lemma with_temps_lookup_old ps (f : gmap string File) q :
  Forall (fun p => f !! p = None) ps -> is_Some (f !! q) ->
  with_temps f ps !! q = f !! q.
Proof.
  intros Hfr [x Hq]. rewrite with_temps_lookup, decide_False; [reflexivity|].
  intros Hin. rewrite Forall_forall in Hfr. apply Hfr in Hin. congruence.
Qed.

(** Every outcome of [segment_audio]: it only adds fresh temporary files,
    none when it fails, and the files of the chunks when it splits. *)
Lemma segment_audio_outcome fp max_d max_sz w :
  exists paths,
    fs (segment_audio fp max_d max_sz w).1 = with_temps (fs w) paths /\
    NoDup paths /\
    Forall (fun p => fs w !! p = None) paths /\
    session (segment_audio fp max_d max_sz w).1 = session w /\
    ui (segment_audio fp max_d max_sz w).1 = ui w /\
    match (segment_audio fp max_d max_sz w).2 with
    | inl _ => paths = []
    | inr chunks =>
        is_Some (fs w !! fp) /\
        ((chunks = [(fp, 0%Q)] /\ paths = []) \/ map fst chunks = paths)
    end.
Proof.
  unfold segment_audio, get_audio_duration, os_path_getsize, get_fs.
  rewrite !bind_unfold. cbn.
  destruct (fs w !! fp) as [[[d|] sz]|] eqn:Hf;
    try (exists []; cbn; repeat split; constructor).
  cbn. rewrite !bind_unfold, Hf. cbn.
  destruct (Qle_bool d max_d && (sz <=? max_sz)%Z).
  { exists []. cbn. repeat split; try constructor; eauto. }
  unfold py_div. rewrite bind_unfold.
  destruct (Qeq_bool max_d 0); [exists []; cbn; repeat split; constructor|].
  cbn. rewrite bind_unfold.
  destruct (Qeq_bool (inject_Z (Qceiling (d / max_d))) 0);
    [exists []; cbn; repeat split; constructor|].
  cbn.
  destruct (slicing_loop fp d (d / inject_Z (Qceiling (d / max_d)))
              (py_range (Qceiling (d / max_d))) w []) as (paths & E & Hlen & Hnd & Hfr).
  exists paths. rewrite E. cbn. repeat split; try assumption; eauto.
  right. apply fst_zip. rewrite length_map. lia.
Qed.

(** ** Transcription and cleanup *)

Section TranscriptionFacts.

Variable model : string -> exn + WhisperResult.

(** One iteration of the transcription loop, by cases. *)
Lemma transcribe_audio_body_run fp total full segs i seg start w :
  exists spin prog,
    transcribe_audio_body model fp total (full, segs) (i, (seg, start)) w
    = match model seg with
      | inl e =>
          ({| fs := fs w; commands := commands w; ui := ui w ++ [spin];
              session := session w |}, inl e)
      | inr result =>
          let acc := (full ++ PyStr.strip (res_text result) ++ " ",
                      (segs ++ map (shift_segment start)
                                (default [] (res_segments result)))%list) in
          if decide (seg = fp)
          then ({| fs := fs w; commands := commands w; ui := (ui w ++ [spin]) ++ [prog];
                   session := session w |}, inr acc)
          else match fs w !! seg with
               | Some _ =>
                   ({| fs := delete seg (fs w); commands := commands w;
                       ui := (ui w ++ [spin]) ++ [prog]; session := session w |},
                    inr acc)
               | None =>
                   ({| fs := fs w; commands := commands w;
                       ui := (ui w ++ [spin]) ++ [prog]; session := session w |},
                    inl (FileNotFoundError seg))
               end
      end.
Proof.
  eexists _, _. unfold transcribe_audio_body, lift_result, os_remove, get_fs.
  rewrite !bind_unfold. cbn.
  destruct (model seg) as [e|result]; [reflexivity|].
  cbn. rewrite !bind_unfold. cbn.
  destruct (decide (seg = fp)); cbn; [reflexivity|].
  rewrite !bind_unfold. cbn.
  destruct (fs w !! seg); reflexivity.
Qed.

(** Whatever happens in the loop, the original file, the commands and the
    session are left alone. *)
Lemma transcribe_loop_frame fp total items : forall acc w,
  fs (for_each items (transcribe_audio_body model fp total) acc w).1 !! fp = fs w !! fp /\
  commands (for_each items (transcribe_audio_body model fp total) acc w).1 = commands w /\
  session (for_each items (transcribe_audio_body model fp total) acc w).1 = session w.
Proof.
  induction items as [|[i [seg start]] items IH]; intros [full segs] w; [now cbn|].
  cbn [for_each]. rewrite bind_unfold.
  destruct (transcribe_audio_body_run fp total full segs i seg start w)
    as (spin & prog & ->).
  destruct (model seg) as [e|result]; [now cbn|].
  cbn zeta. destruct (decide (seg = fp)) as [->|Hne].
  - destruct (IH (full ++ PyStr.strip (res_text result) ++ " ",
                  (segs ++ map (shift_segment start) (default [] (res_segments result)))%list)
                {| fs := fs w; commands := commands w; ui := (ui w ++ [spin]) ++ [prog];
                   session := session w |}) as (H1 & H2 & H3).
    now rewrite H1, H2, H3.
  - destruct (fs w !! seg) eqn:Hs; [|now cbn].
    destruct (IH (full ++ PyStr.strip (res_text result) ++ " ",
                  (segs ++ map (shift_segment start) (default [] (res_segments result)))%list)
                {| fs := delete seg (fs w); commands := commands w;
                   ui := (ui w ++ [spin]) ++ [prog]; session := session w |})
      as (H1 & H2 & H3).
    rewrite H1, H2, H3. cbn. now rewrite lookup_delete_ne.
Qed.

(** When every chunk lies in a temporary file of its own and every
    transcription succeeds, the loop succeeds and removes exactly the files
    of the chunks. *)
Lemma transcribe_loop_cleanup fp total items : forall acc w,
  NoDup (map (fun it => it.2.1) items) ->
  Forall (fun it => it.2.1 <> fp /\ is_Some (fs w !! it.2.1) /\
                    exists r, model it.2.1 = inr r) items ->
  exists res,
    (for_each items (transcribe_audio_body model fp total) acc w).2 = inr res /\
    forall q, fs (for_each items (transcribe_audio_body model fp total) acc w).1 !! q
              = if decide (q ∈ map (fun it => it.2.1) items) then None else fs w !! q.
Proof.
  induction items as [|[i [seg start]] items IH]; intros [full segs] w Hnd Hall.
  - exists (full, segs). split; [reflexivity|]. intros q. cbn.
    rewrite decide_False; [reflexivity | apply not_elem_of_nil].
  - cbn [for_each]. rewrite bind_unfold.
    destruct (transcribe_audio_body_run fp total full segs i seg start w)
      as (spin & prog & ->).
    apply Forall_cons in Hall as [(Hne & [file Hfile] & [result Hres]) Hall].
    cbn [fst snd] in Hne, Hfile, Hres. rewrite Hres. cbn zeta.
    rewrite decide_False by assumption. rewrite Hfile.
    cbn [map fst snd] in Hnd. apply NoDup_cons in Hnd as [Hnotin Hnd].
    set (w1 := {| fs := delete seg (fs w); commands := commands w;
                  ui := (ui w ++ [spin]) ++ [prog]; session := session w |}).
    destruct (IH (full ++ PyStr.strip (res_text result) ++ " ",
                  (segs ++ map (shift_segment start) (default [] (res_segments result)))%list)
                w1 Hnd) as (res & Hr & Hfs).
    { eapply Forall_impl.
      - apply Forall_forall. intros it Hit. exact (conj Hit (proj1 (Forall_forall _ _) Hall it Hit)).
      - cbn. intros it [Hit (H1 & H2 & H3)]. split; [assumption|]. split; [|assumption].
        subst w1. cbn. rewrite lookup_delete_ne; [assumption|].
        intros ->. apply Hnotin. apply list_elem_of_fmap. now exists it. }
    exists res. split; [exact Hr|]. intros q. rewrite Hfs. subst w1. cbn [fs map fst snd].
    destruct (decide (q ∈ map (fun it => it.2.1) items)) as [Hin|Hnin].
    + rewrite decide_True; [reflexivity | now right].
    + destruct (decide (q = seg)) as [->|Hq].
      * rewrite lookup_delete_eq, decide_True; [reflexivity | now left].
      * rewrite lookup_delete_ne by congruence.
        rewrite decide_False; [reflexivity|].
        intros Hin. apply elem_of_cons in Hin as [?|?]; contradiction.
Qed.

Lemma chunk_items_paths (chunks : list (string * Q)) :
  map (fun it : nat * (string * Q) => it.2.1) (imap (fun i c => (i, c)) chunks)
  = map fst chunks.
Proof.
  change (map fst chunks) with (fst <$> chunks).
  rewrite <- (imap_const fst chunks).
  change (map ?f ?l) with (f <$> l). rewrite fmap_imap.
  apply imap_ext. intros i x _. reflexivity.
Qed.

Lemma transcribe_audio_frame fp w :
  fs (transcribe_audio model fp w).1 !! fp = fs w !! fp /\
  session (transcribe_audio model fp w).1 = session w.
Proof.
  unfold transcribe_audio. rewrite bind_unfold.
  destruct (segment_audio_outcome fp default_max_duration default_max_file_size w)
    as (paths & Hfs & _ & Hfr & Hse & _ & Hr).
  destruct (segment_audio fp default_max_duration default_max_file_size w) as [w1 [e|chunks]];
    cbn [fst snd] in *.
  - subst paths. now rewrite Hfs, Hse.
  - destruct Hr as [Hfp _].
    assert (H1 : fs w1 !! fp = fs w !! fp).
    { rewrite Hfs. now apply with_temps_lookup_old. }
    destruct (decide (length chunks = 1%nat)).
    + unfold lift_result, emit. rewrite !bind_unfold. cbn [fst snd fs session].
      destruct (model fp); [|rewrite bind_unfold]; cbn [fst snd fs session mret M_ret];
        now split.
    + rewrite bind_unfold.
      destruct (transcribe_loop_frame fp (length chunks) (imap (fun i c => (i, c)) chunks)
                  ("", []) w1) as (H2 & _ & H3).
      destruct (for_each _ _ _ w1) as [w2 [e|[full segs]]];
        cbn [fst snd mret M_ret] in *; now rewrite H2, H3, H1, Hse.
Qed.

Lemma transcribe_audio_multi_chunk fp w w1 chunks :
  segment_audio fp default_max_duration default_max_file_size w = (w1, inr chunks) ->
  length chunks <> 1%nat ->
  (forall c, c ∈ chunks -> exists r, model c.1 = inr r) ->
  exists w' res, transcribe_audio model fp w = (w', inr res) /\ fs w' = fs w.
Proof.
  intros E Hlen Hok.
  destruct (segment_audio_outcome fp default_max_duration default_max_file_size w)
    as (paths & Hfs & Hnd & Hfr & _ & _ & Hr).
  unfold transcribe_audio. rewrite bind_unfold.
  rewrite E in *. cbn [fst snd] in *.
  destruct Hr as [Hfp [[-> _]|Hpaths]]; [now cbn in Hlen|].
  rewrite decide_False by assumption. rewrite bind_unfold.
  destruct (transcribe_loop_cleanup fp (length chunks) (imap (fun i c => (i, c)) chunks)
              ("", []) w1) as (res & Hres & Hq).
  { now rewrite chunk_items_paths, Hpaths. }
  { apply Forall_forall. intros it Hit.
    apply elem_of_lookup_imap_1 in Hit as (i & c & -> & Hc). cbn [fst snd].
    apply list_elem_of_lookup_2 in Hc.
    assert (Hin : c.1 ∈ paths).
    { rewrite <- Hpaths. apply list_elem_of_fmap. now exists c. }
    rewrite Forall_forall in Hfr. split; [|split].
    - intros Heq. rewrite Heq in Hin. apply Hfr in Hin. destruct Hfp; congruence.
    - rewrite Hfs, with_temps_lookup, decide_True by assumption. eauto.
    - now apply Hok. }
  destruct (for_each _ _ _ w1) as [w2 [e|[full segs]]];
    cbn [fst snd mret M_ret] in *; [discriminate|].
  eexists _, _. split; [reflexivity|].
  apply map_eq. intros q. rewrite Hq, chunk_items_paths, Hpaths, Hfs, with_temps_lookup.
  destruct (decide (q ∈ paths)) as [Hin|]; [|reflexivity].
  rewrite Forall_forall in Hfr. symmetry. now apply Hfr.
Qed.

End TranscriptionFacts.

(** C8, as the code has it.  In a run with several chunks in which every
    transcription succeeds, each temporary chunk file is removed as soon as
    its chunk has been transcribed, so that the file system ends as it
    started; and on every path, failing ones included, the original input
    file is left in place. *)
Theorem transcribe_audio_cleanup :
  (forall model fp w w1 chunks,
     segment_audio fp default_max_duration default_max_file_size w = (w1, inr chunks) ->
     length chunks <> 1%nat ->
     (forall c, c ∈ chunks -> exists r, model c.1 = inr r) ->
     exists w' res, transcribe_audio model fp w = (w', inr res) /\ fs w' = fs w) /\
  (forall model fp total acc i seg start w r,
     model seg = inr r -> seg <> fp -> is_Some (fs w !! seg) ->
     exists w' acc',
       transcribe_audio_body model fp total acc (i, (seg, start)) w = (w', inr acc') /\
       fs w' = delete seg (fs w)) /\
  (forall model fp w, fs (transcribe_audio model fp w).1 !! fp = fs w !! fp).
Proof.
  split; [|split].
  - intros model fp w w1 chunks. apply transcribe_audio_multi_chunk.
  - intros model fp total [full segs] i seg start w r Hr Hne [file Hfile].
    destruct (transcribe_audio_body_run model fp total full segs i seg start w)
      as (spin & prog & ->).
    rewrite Hr. cbn zeta. rewrite decide_False by assumption. rewrite Hfile.
    eexists _, _. split; reflexivity.
  - intros model fp w. apply transcribe_audio_frame.
Qed.

Lemma transcribe_audio_cleanup_witness :
  (exists w' res,
     transcribe_audio model_ok "in.mp3" (recording 1500 10) = (w', inr res) /\
     fs w' = fs (recording 1500 10)) /\
  (exists w' acc',
     transcribe_audio_body model_ok "in.mp3" 3 ("", []) (0%nat, ("0", 0%Q))
       (mkWorld (<["0" := empty_file]> (fs (recording 1500 10))) [] [] None)
     = (w', inr acc') /\
     fs w' = delete "0"
               (fs (mkWorld (<["0" := empty_file]> (fs (recording 1500 10))) [] [] None))).
Proof.
  split.
  - apply (proj1 transcribe_audio_cleanup model_ok "in.mp3" (recording 1500 10)
             (segment_audio "in.mp3" default_max_duration default_max_file_size
                (recording 1500 10)).1
             (match (segment_audio "in.mp3" default_max_duration default_max_file_size
                       (recording 1500 10)).2 with
              | inr chunks => chunks
              | inl _ => []
              end)).
    + vm_compute. reflexivity.
    + vm_compute. discriminate.
    + intros c _. eexists. reflexivity.
  - apply (proj1 (proj2 transcribe_audio_cleanup) model_ok "in.mp3" 3%nat ("", [])
             0%nat "0" 0%Q
             (mkWorld (<["0" := empty_file]> (fs (recording 1500 10))) [] [] None)
             (mkWhisperResult "ok" (Some []))).
    + reflexivity.
    + discriminate.
    + vm_compute. eauto.
Defined.

(** C8 as stated fails: when the transcription of a chunk raises, the
    temporary files of that chunk and of the chunks after it stay behind. *)
Lemma transcribe_audio_leaks_on_error :
  ~ no_temp_leak (model_failing_on "1") "in.mp3" (recording 1500 10).
Proof.
  intros H. specialize (H "1").
  assert (H1 : is_Some (fs (transcribe_audio (model_failing_on "1") "in.mp3"
                              (recording 1500 10)).1 !! "1")).
  { vm_compute. eauto. }
  apply H in H1. vm_compute in H1. destruct H1 as [x Hx]. discriminate.
Qed.

(** ** The run of [main] *)

Ltac mrun :=
  cbv beta iota zeta delta
    [mbind M_bind mret M_ret put_session put_fs get_fs get_session emit lift_result
     named_temporary_file raise try_except subprocess_run os_remove convert_to_wav
     modify_session set_final_transcript set_speaker_map
     fs commands ui session from_option id
     transcription_done transcription_text transcription_segments
     diarization_results final_transcript speaker_map].

Lemma main_transcription_fatal text load pimp pfp inp w content model e w4 :
  transcribe_button inp = true -> uploaded_file inp = Some content ->
  load (model_choice inp) = inr model ->
  transcribe_audio model (fresh (dom (fs w))) (uploaded w content) = (w4, inl e) ->
  main text load pimp pfp inp w = (w4, inl e) /\ session w4 = Some cleared_session.
Proof.
  intros Hb Hu Hl Ht. split.
  - unfold main, transcribe_handler. rewrite Hb, Hu.
    unfold uploaded in Ht.
    destruct w as [f c u [s|]]; cbn [fs commands ui session] in *;
      mrun; rewrite Hl; mrun; rewrite Ht; reflexivity.
  - destruct (transcribe_audio_frame model (fresh (dom (fs w))) (uploaded w content))
      as [_ Hsess].
    now rewrite Ht in Hsess.
Qed.

Lemma main_diarization_failure text load pfp inp w content model t segs e w4 :
  transcribe_button inp = true -> uploaded_file inp = Some content ->
  enable_diarization inp = true ->
  load (model_choice inp) = inr model ->
  transcribe_audio model (fresh (dom (fs w))) (uploaded w content) = (w4, inr (t, segs)) ->
  (pfp = inl e \/ exists pipeline, pfp = inr pipeline /\ forall wav, pipeline wav = inl e) ->
  exists w', main text load true pfp inp w = (w', inr tt) /\
    StError e ∈ ui w' /\ TextArea "Transcript" t ∈ ui w' /\
    session w' = Some (plain_session t segs).
Proof.
  intros Hb Hu He Hl Ht Hp.
  destruct (transcribe_audio_frame model (fresh (dom (fs w))) (uploaded w content))
    as [Hfile Hsess].
  rewrite Ht in Hfile, Hsess. cbn [fst snd] in Hfile, Hsess.
  unfold uploaded in Ht, Hfile, Hsess.
  destruct w4 as [f4 c4 u4 s4].
  cbn [fs commands ui session] in Hfile, Hsess.
  rewrite lookup_insert_eq in Hfile.
  assert (Hwav : <[fresh (dom f4) := empty_file]> f4 !! fresh (dom (fs w)) = Some content).
  { rewrite lookup_insert_ne; [assumption|].
    intros Heq. pose proof (fresh_lookup f4) as Hn. rewrite Heq in Hn. congruence. }
  unfold main, transcribe_handler. rewrite Hb, Hu, He.
  unfold diarization_try, display_results, rename_section.
  destruct w as [f c u s]. cbn [fs commands ui session] in *.
  destruct Hp as [->|(pipeline & -> & Hpipe)]; destruct s; eexists; (split;
    [ mrun; rewrite Hl; mrun; rewrite Ht; mrun; cbn [andb]; mrun;
      rewrite ?Hpipe; mrun; rewrite ?Hwav, ?Hfile; mrun;
      change (speaker_labels_of []) with (@nil string); mrun; reflexivity
    | cbn [ui session]; split; [|split; [|reflexivity]];
      rewrite !elem_of_app, !list_elem_of_singleton; tauto ]).
Qed.

(** C7.  When the diarization step raises, whether on loading the pipeline
    or on running it, the exception is caught and shown with [st.error];
    the run of [main] ends normally, the plain transcript of the
    transcription step is displayed and is the final transcript.  When the
    transcription raises, the exception leaves [main]: the run ends there,
    with the session still cleared. *)
Theorem diarization_failure_not_fatal :
  (forall text load pfp inp w content model t segs e w4,
     transcribe_button inp = true -> uploaded_file inp = Some content ->
     enable_diarization inp = true ->
     load (model_choice inp) = inr model ->
     transcribe_audio model (fresh (dom (fs w))) (uploaded w content)
     = (w4, inr (t, segs)) ->
     (pfp = inl e \/ exists pipeline, pfp = inr pipeline /\ forall wav, pipeline wav = inl e) ->
     exists w', main text load true pfp inp w = (w', inr tt) /\
       StError e ∈ ui w' /\ TextArea "Transcript" t ∈ ui w' /\
       session w' = Some (plain_session t segs)) /\
  (forall text load pimp pfp inp w content model e w4,
     transcribe_button inp = true -> uploaded_file inp = Some content ->
     load (model_choice inp) = inr model ->
     transcribe_audio model (fresh (dom (fs w))) (uploaded w content) = (w4, inl e) ->
     main text load pimp pfp inp w = (w4, inl e) /\ session w4 = Some cleared_session).
Proof.
  split.
  - intros. eapply main_diarization_failure; eassumption.
  - intros. eapply main_transcription_fatal; eassumption.
Qed.

Lemma diarization_failure_not_fatal_witness :
  (exists w',
     main (fun key => key) (fun _ => inr model_ok) true (inl (ExternalError "no token"))
          upload_inputs fresh_world = (w', inr tt) /\
     StError (ExternalError "no token") ∈ ui w' /\
     TextArea "Transcript" "ok" ∈ ui w' /\
     session w' = Some (plain_session "ok" [])) /\
  (main (fun key => key) (fun _ => inr (model_failing_on (fresh (dom (fs fresh_world)))))
        true (inl (ExternalError "no token")) upload_inputs fresh_world
   = ((transcribe_audio (model_failing_on (fresh (dom (fs fresh_world))))
         (fresh (dom (fs fresh_world)))
         (uploaded fresh_world (mkFile (Some 100%Q) 10))).1,
      inl (ExternalError "out of memory")) /\
   session (transcribe_audio (model_failing_on (fresh (dom (fs fresh_world))))
              (fresh (dom (fs fresh_world)))
              (uploaded fresh_world (mkFile (Some 100%Q) 10))).1
   = Some cleared_session).
Proof.
  split.
  - apply (proj1 diarization_failure_not_fatal
             (fun key => key) (fun _ => inr model_ok) (inl (ExternalError "no token"))
             upload_inputs fresh_world (mkFile (Some 100%Q) 10) model_ok "ok" []
             (ExternalError "no token")
             (transcribe_audio model_ok (fresh (dom (fs fresh_world)))
                (uploaded fresh_world (mkFile (Some 100%Q) 10))).1);
      [reflexivity | reflexivity | reflexivity | reflexivity
      | vm_compute; reflexivity | left; reflexivity].
  - apply (proj2 diarization_failure_not_fatal
             (fun key => key)
             (fun _ => inr (model_failing_on (fresh (dom (fs fresh_world)))))
             true (inl (ExternalError "no token"))
             upload_inputs fresh_world (mkFile (Some 100%Q) 10)
             (model_failing_on (fresh (dom (fs fresh_world))))
             (ExternalError "out of memory"));
      [reflexivity | reflexivity | reflexivity | vm_compute; reflexivity].
Defined.

(** * Further properties of the code *)

(** ** [segment_audio]: the files of a run *)

(** The complete case analysis of a run of [segment_audio]. *)
Lemma segment_audio_cases fp max_d max_sz w :
  (segment_audio fp max_d max_sz w = (w, inl ValueError) /\
   (fs w !! fp = None \/ exists sz, fs w !! fp = Some (mkFile None sz))) \/
  (exists d sz,
     fs w !! fp = Some (mkFile (Some d) sz) /\
     ((Qle_bool d max_d && (sz <=? max_sz)%Z = true /\
       segment_audio fp max_d max_sz w = (w, inr [(fp, 0%Q)])) \/
      (Qle_bool d max_d && (sz <=? max_sz)%Z = false /\
       ((max_d == 0)%Q \/ Qceiling (d / max_d) = 0%Z) /\
       segment_audio fp max_d max_sz w = (w, inl ZeroDivisionError)) \/
      (Qle_bool d max_d && (sz <=? max_sz)%Z = false /\
       ~ (max_d == 0)%Q /\ Qceiling (d / max_d) <> 0%Z /\
       exists paths,
         segment_audio fp max_d max_sz w
         = ({| fs := with_temps (fs w) paths;
               commands := commands w ++
                 zip_with (fun p i =>
                             FfmpegSlice fp
                               (chunk_start_of (d / inject_Z (Qceiling (d / max_d))) i)
                               (current_duration_of d (d / inject_Z (Qceiling (d / max_d))) i)
                               p)
                          paths (py_range (Qceiling (d / max_d)));
               ui := ui w; session := session w |},
            inr (zip paths (map (chunk_start_of (d / inject_Z (Qceiling (d / max_d))))
                                (py_range (Qceiling (d / max_d)))))) /\
         length paths = Z.to_nat (Qceiling (d / max_d)) /\
         NoDup paths /\
         Forall (fun p => fs w !! p = None) paths))).
Proof.
  destruct (fs w !! fp) as [[[d|] sz]|] eqn:Hf.
  - right. exists d, sz. split; [reflexivity|].
    destruct (Qle_bool d max_d && (sz <=? max_sz)%Z) eqn:Hc.
    { left. split; [reflexivity|]. now apply (segment_audio_whole w fp max_d max_sz d sz). }
    right.
    destruct (Qeq_bool max_d 0) eqn:E0.
    { left. split; [reflexivity|]. split; [left; now apply Qeq_bool_iff|].
      unfold segment_audio, get_audio_duration, os_path_getsize, get_fs.
      rewrite !bind_unfold, Hf. cbn. rewrite !bind_unfold, Hf. cbn.
      rewrite Hc. unfold py_div. rewrite bind_unfold, E0. reflexivity. }
    assert (Hmax : ~ (max_d == 0)%Q).
    { intros H. apply Qeq_bool_iff in H. congruence. }
    destruct (Z.eq_dec (Qceiling (d / max_d)) 0%Z) as [Hn|Hn].
    { left. split; [reflexivity|]. split; [now right|].
      unfold segment_audio, get_audio_duration, os_path_getsize, get_fs.
      rewrite !bind_unfold, Hf. cbn. rewrite !bind_unfold, Hf. cbn.
      rewrite Hc. unfold py_div. rewrite bind_unfold, E0. cbn.
      rewrite Hn. reflexivity. }
    right. split; [reflexivity|]. split; [assumption|]. split; [assumption|].
    apply (segment_audio_split w fp max_d max_sz d sz Hf Hc Hmax Hn).
  - left. split; [|right; now exists sz].
    unfold segment_audio, get_audio_duration, get_fs. rewrite !bind_unfold, Hf. reflexivity.
  - left. split; [|now left].
    unfold segment_audio, get_audio_duration, get_fs. rewrite !bind_unfold, Hf. reflexivity.
Qed.

(** The run of [segment_audio] in binary64 arithmetic either stops before
    the slicing loop, in the world it started in, or returns chunks. *)
Lemma rounded_segment_audio_outcome fp max_d max_sz w :
  (exists e, Binary64.segment_audio fp max_d max_sz w = (w, inl e)) \/
  (exists w' chunks, Binary64.segment_audio fp max_d max_sz w = (w', inr chunks)).
Proof.
  unfold Binary64.segment_audio, Binary64.get_audio_duration, get_audio_duration,
    os_path_getsize, get_fs.
  rewrite !bind_unfold.
  destruct (fs w !! fp) as [[[printed|] sz]|] eqn:Hf;
    [|left; eexists; reflexivity|left; eexists; reflexivity].
  cbn. rewrite !bind_unfold, Hf. cbn.
  set (d := Binary64.round printed).
  destruct (Qle_bool d max_d && (sz <=? max_sz)%Z);
    [right; eexists _, _; reflexivity|].
  unfold Binary64.div. rewrite bind_unfold.
  destruct (Qeq_bool (Binary64.of_number max_d) 0); [left; eexists; reflexivity|].
  cbn. unfold Binary64.int_ceil. rewrite bind_unfold.
  set (ratio := Binary64.round (d / Binary64.of_number max_d)).
  destruct (Qle_bool (- Binary64.max_float) ratio && Qle_bool ratio Binary64.max_float);
    [|left; eexists; reflexivity].
  cbn. rewrite bind_unfold.
  destruct (Qeq_bool (Binary64.of_int (Qceiling ratio)) 0); [left; eexists; reflexivity|].
  cbn.
  destruct (rounded_slicing_loop fp d
              (Binary64.round (d / Binary64.of_int (Qceiling ratio)))
              (py_range (Qceiling ratio)) w []) as (paths & E & _).
  right. rewrite E. eexists _, _. reflexivity.
Qed.

(** A [ZeroDivisionError] of [segment_audio] comes from the divisions of the
    plan, which precede the slicing loop: no file was created and no command
    issued, in exact and in binary64 arithmetic. *)
Theorem segment_audio_division_error fp max_d max_sz w w' :
  (segment_audio fp max_d max_sz w = (w', inl ZeroDivisionError) -> w' = w) /\
  (Binary64.segment_audio fp max_d max_sz w = (w', inl ZeroDivisionError) -> w' = w).
Proof.
  split; intros E.
  - destruct (segment_audio_cases fp max_d max_sz w)
      as [[E' _]|(d & sz & _ & [[_ E']|[(_ & _ & E')|(_ & _ & _ & paths & E' & _)]])];
      rewrite E' in E; now inversion E.
  - destruct (rounded_segment_audio_outcome fp max_d max_sz w)
      as [[e E']|(w1 & chunks & E')]; rewrite E' in E; now inversion E.
Qed.

Lemma segment_audio_division_error_witness :
  recording 0 (200 * 1024 * 1024) = recording 0 (200 * 1024 * 1024) /\
  recording (1 # 1000000) 10 = recording (1 # 1000000) 10.
Proof.
  split.
  - apply (proj1 (segment_audio_division_error "in.mp3" default_max_duration
                    default_max_file_size (recording 0 (200 * 1024 * 1024))
                    (recording 0 (200 * 1024 * 1024)))).
    vm_compute. reflexivity.
  - apply (proj2 (segment_audio_division_error "in.mp3" 0 default_max_file_size
                    (recording (1 # 1000000) 10) (recording (1 # 1000000) 10))).
    vm_compute. reflexivity.
Defined.

(** A successful [segment_audio] keeps every existing file as it is.  Either
    it returns the input file alone and changes nothing, or every chunk is a
    new, empty-at-creation temporary file of its own, different from the
    input and from every file that existed, and exactly one slicing command
    was issued per chunk. *)
Theorem segment_audio_chunks_fresh fp max_d max_sz w w' chunks :
  segment_audio fp max_d max_sz w = (w', inr chunks) ->
  (forall p file, fs w !! p = Some file -> fs w' !! p = Some file) /\
  ((chunks = [(fp, 0%Q)] /\ w' = w) \/
   (NoDup (map fst chunks) /\
    Forall (fun c => c.1 <> fp /\ fs w !! c.1 = None /\ fs w' !! c.1 = Some empty_file)
           chunks /\
    length (commands w') = (length (commands w) + length chunks)%nat)).
Proof.
  intros E.
  destruct (segment_audio_cases fp max_d max_sz w)
    as [[E' _]|(d & sz & Hf & [[_ E']|[(_ & _ & E')|(_ & _ & _ & paths & E' & Hlen & Hnd & Hfr)]])];
    rewrite E' in E; inversion E; subst; clear E.
  - split; [auto | left; auto].
  - assert (Hl : length paths = length (map (chunk_start_of (d / inject_Z (Qceiling (d / max_d))))
                                         (py_range (Qceiling (d / max_d))))).
    { rewrite length_map, py_range_length. exact Hlen. }
    cbn [fs commands]. split.
    + intros p file Hp. rewrite with_temps_lookup_old; eauto.
    + right. rewrite fst_zip by lia. split; [exact Hnd|]. split.
      * apply Forall_forall. intros [p off] Hin. cbn [fst].
        apply elem_of_zip_l in Hin. rewrite Forall_forall in Hfr.
        pose proof (Hfr p Hin) as Hp. split; [|split; [exact Hp|]].
        -- intros ->. congruence.
        -- rewrite with_temps_lookup, decide_True by assumption. reflexivity.
      * rewrite length_app, length_zip_with, length_zip, py_range_length.
        rewrite length_map, py_range_length in Hl |- *. lia.
Qed.

Lemma segment_audio_chunks_fresh_witness :
  let run := segment_audio "in.mp3" default_max_duration default_max_file_size
               (recording 1500 10) in
  (forall p file, fs (recording 1500 10) !! p = Some file -> fs run.1 !! p = Some file) /\
  ((returned run.2 [] = [("in.mp3", 0%Q)] /\ run.1 = recording 1500 10) \/
   (NoDup (map fst (returned run.2 [])) /\
    Forall (fun c => c.1 <> "in.mp3" /\ fs (recording 1500 10) !! c.1 = None /\
                     fs run.1 !! c.1 = Some empty_file)
           (returned run.2 []) /\
    length (commands run.1)
    = (length (commands (recording 1500 10)) + length (returned run.2 []))%nat)).
Proof.
  apply (segment_audio_chunks_fresh "in.mp3" default_max_duration default_max_file_size
           (recording 1500 10)).
  vm_compute. reflexivity.
Defined.

(** ** [transcribe_audio]: what is transcribed and what is returned *)

Lemma segment_audio_one_slice fp max_d max_sz w d sz :
  fs w !! fp = Some (mkFile (Some d) sz) ->
  (0 < d)%Q -> (d <= max_d)%Q -> (max_sz < sz)%Z ->
  segment_audio fp max_d max_sz w
  = ({| fs := <[fresh (dom (fs w)) := empty_file]> (fs w);
        commands := commands w ++
          [FfmpegSlice fp (chunk_start_of (d / inject_Z 1) 0)
             (current_duration_of d (d / inject_Z 1) 0) (fresh (dom (fs w)))];
        ui := ui w; session := session w |},
     inr [(fresh (dom (fs w)), chunk_start_of (d / inject_Z 1) 0)]).
Proof.
  intros Hf Hd Hle Hsz.
  assert (Hm : (0 < max_d)%Q) by lra.
  pose proof (num_segments_one d max_d Hd Hle) as Hn.
  unfold segment_audio, get_audio_duration, os_path_getsize, get_fs.
  rewrite !bind_unfold, Hf. cbn. rewrite !bind_unfold, Hf. cbn.
  rewrite (split_condition _ _ _ _ (or_intror Hsz)).
  unfold py_div.
  assert (E0 : Qeq_bool max_d 0 = false).
  { apply not_true_is_false. intros H. apply Qeq_bool_iff in H.
    now apply (positive_not_zero max_d). }
  rewrite bind_unfold, E0. cbn. rewrite Hn.
  change (py_range 1) with [0%Z]. rewrite bind_unfold. cbn [for_each Qeq_bool].
  change (Qeq_bool (inject_Z 1) 0) with false. cbn [mret M_ret].
  rewrite bind_unfold, segment_audio_body_run. reflexivity.
Qed.

Section TranscriptionResults.

Variable model : string -> exn + WhisperResult.

(** With one chunk the model is run on the input file itself, whatever the
    chunk is, and nothing is removed. *)
Lemma transcribe_audio_one_chunk fp w w1 c :
  segment_audio fp default_max_duration default_max_file_size w = (w1, inr [c]) ->
  (transcribe_audio model fp w).2
  = match model fp with
    | inl e => inl e
    | inr r => inr (whisper_output r)
    end /\
  fs (transcribe_audio model fp w).1 = fs w1 /\
  commands (transcribe_audio model fp w).1 = commands w1 /\
  session (transcribe_audio model fp w).1 = session w1.
Proof.
  intros E. unfold transcribe_audio. rewrite bind_unfold, E.
  cbn [length]. rewrite decide_True by reflexivity.
  unfold lift_result, emit. rewrite !bind_unfold. cbn [fst snd fs session].
  destruct (model fp); [|rewrite bind_unfold]; cbn; auto.
Qed.

(** A recording within both bounds is transcribed as it is: the result is
    the model's result on the input file, with the text trimmed, and neither
    a file nor a command is added. *)
Theorem transcribe_audio_whole_file fp w d sz :
  fs w !! fp = Some (mkFile (Some d) sz) ->
  (d <= default_max_duration)%Q -> (sz <= default_max_file_size)%Z ->
  (transcribe_audio model fp w).2
  = match model fp with
    | inl e => inl e
    | inr r => inr (whisper_output r)
    end /\
  fs (transcribe_audio model fp w).1 = fs w /\
  commands (transcribe_audio model fp w).1 = commands w /\
  session (transcribe_audio model fp w).1 = session w.
Proof.
  intros Hf Hd Hs.
  apply (transcribe_audio_one_chunk fp w w (fp, 0%Q)).
  apply (segment_audio_whole w fp _ _ d sz Hf).
  apply andb_true_iff. split; [now apply Qle_bool_iff | now apply Z.leb_le].
Qed.

(** A short recording that is too large is sliced into one temporary file,
    but the model is then run on the input file, not on the slice, and the
    slice is never removed: it is still there when [transcribe_audio]
    returns, also when the transcription succeeded. *)
Theorem transcribe_audio_oversized_leaves_slice fp w d sz :
  fs w !! fp = Some (mkFile (Some d) sz) ->
  (0 < d)%Q -> (d <= default_max_duration)%Q -> (default_max_file_size < sz)%Z ->
  (transcribe_audio model fp w).2
  = match model fp with
    | inl e => inl e
    | inr r => inr (whisper_output r)
    end /\
  fs w !! fresh (dom (fs w)) = None /\
  fs (transcribe_audio model fp w).1 = <[fresh (dom (fs w)) := empty_file]> (fs w).
Proof.
  intros Hf Hd Hle Hsz.
  pose proof (segment_audio_one_slice fp default_max_duration default_max_file_size
                w d sz Hf Hd Hle Hsz) as Es.
  destruct (transcribe_audio_one_chunk fp w _ _ Es) as (Hr & Hfs & _).
  split; [exact Hr|]. split; [apply fresh_lookup | exact Hfs].
Qed.

End TranscriptionResults.

Lemma transcribe_audio_whole_file_witness :
  (transcribe_audio model_echo "in.mp3" (recording 100 10)).2
  = inr (whisper_output (mkWhisperResult " in.mp3 " (Some [mkSegment 0 1 (Some "in.mp3") None]))) /\
  fs (transcribe_audio model_echo "in.mp3" (recording 100 10)).1 = fs (recording 100 10) /\
  commands (transcribe_audio model_echo "in.mp3" (recording 100 10)).1
  = commands (recording 100 10) /\
  session (transcribe_audio model_echo "in.mp3" (recording 100 10)).1
  = session (recording 100 10).
Proof.
  apply (transcribe_audio_whole_file model_echo "in.mp3" (recording 100 10) 100 10);
    [vm_compute; reflexivity | discriminate | discriminate].
Defined.

Lemma transcribe_audio_oversized_leaves_slice_witness :
  (transcribe_audio model_echo "in.mp3" (recording 100 (200 * 1024 * 1024))).2
  = inr (whisper_output (mkWhisperResult " in.mp3 " (Some [mkSegment 0 1 (Some "in.mp3") None]))) /\
  fs (recording 100 (200 * 1024 * 1024))
    !! fresh (dom (fs (recording 100 (200 * 1024 * 1024)))) = None /\
  fs (transcribe_audio model_echo "in.mp3" (recording 100 (200 * 1024 * 1024))).1
  = <[fresh (dom (fs (recording 100 (200 * 1024 * 1024)))) := empty_file]>
      (fs (recording 100 (200 * 1024 * 1024))).
Proof.
  apply (transcribe_audio_oversized_leaves_slice model_echo "in.mp3"
           (recording 100 (200 * 1024 * 1024)) 100 (200 * 1024 * 1024));
    [vm_compute; reflexivity | reflexivity | discriminate | reflexivity].
Defined.

Section ChunkComposition.

Variable model : string -> exn + WhisperResult.

Lemma strip_spaced ts : PyStr.strip (spaced ts) = PyStr.strip (PyStr.join " " ts).
Proof.
  destruct ts as [|t ts]; [reflexivity|].
  rewrite spaced_join by discriminate. apply strip_app_blank.
Qed.

(** Whenever the loop succeeds, its result is the accumulation of the
    model's results over the items, texts trimmed and timestamps shifted. *)
Lemma transcribe_loop_result fp total items : forall full segs w res,
  (for_each items (transcribe_audio_body model fp total) (full, segs) w).2 = inr res ->
  res = (full ++ spaced (map (fun it : nat * (string * Q) =>
                                PyStr.strip (res_text (transcript_of model it.2.1))) items),
         (segs ++ concat (map (fun it : nat * (string * Q) =>
                                 map (shift_segment it.2.2)
                                     (default [] (res_segments (transcript_of model it.2.1))))
                              items))%list).
Proof.
  induction items as [|[i [seg start]] items IH]; intros full segs w res.
  - cbn. intros [= <-]. now rewrite string_app_nil_r, app_nil_r.
  - cbn [for_each]. rewrite bind_unfold.
    destruct (transcribe_audio_body_run model fp total full segs i seg start w)
      as (spin & prog & ->).
    destruct (model seg) as [e|result] eqn:Hm; [discriminate|].
    assert (Ht : transcript_of model seg = result).
    { unfold transcript_of. now rewrite Hm. }
    cbn [map fst snd concat]. rewrite Ht. cbn zeta.
    change (spaced (?x :: ?l)) with (x ++ " " ++ spaced l).
    destruct (decide (seg = fp)) as [->|Hne].
    + intros H. apply IH in H. rewrite H.
      rewrite !string_app_assoc, <- app_assoc. reflexivity.
    + destruct (fs w !! seg); [|discriminate].
      intros H. apply IH in H. rewrite H.
      rewrite !string_app_assoc, <- app_assoc. reflexivity.
Qed.

Lemma chunk_items_map {B} (g : string * Q -> B) (chunks : list (string * Q)) :
  map (fun it : nat * (string * Q) => g it.2) (imap (fun i c => (i, c)) chunks)
  = map g chunks.
Proof.
  change (map g chunks) with (g <$> chunks).
  rewrite <- (imap_const g chunks).
  change (map ?f ?l) with (f <$> l). rewrite fmap_imap.
  apply imap_ext. intros i x _. reflexivity.
Qed.

(** In a run that does not have exactly one chunk, a successful
    [transcribe_audio] returns the trimmed texts of the chunks, in order,
    joined by single blanks and trimmed, and the segments of the chunks, in
    order, each moved by the start offset of its chunk. *)
Theorem transcribe_audio_joins_chunks fp w w1 chunks w' t segs :
  segment_audio fp default_max_duration default_max_file_size w = (w1, inr chunks) ->
  length chunks <> 1%nat ->
  transcribe_audio model fp w = (w', inr (t, segs)) ->
  t = PyStr.strip
        (PyStr.join " " (map (fun c => PyStr.strip (res_text (transcript_of model c.1)))
                             chunks)) /\
  segs = concat (map (fun c => map (shift_segment c.2)
                                   (default [] (res_segments (transcript_of model c.1))))
                     chunks).
Proof.
  intros E Hlen. unfold transcribe_audio. rewrite bind_unfold, E.
  rewrite decide_False by assumption. rewrite bind_unfold.
  pose proof (transcribe_loop_result fp (length chunks)
                (imap (fun i c => (i, c)) chunks) "" [] w1) as Hres.
  destruct (for_each _ _ _ w1) as [w2 [e|[full segs']]]; cbn [fst snd mret M_ret] in *;
    [discriminate|].
  intros [= _ <- <-]. specialize (Hres _ eq_refl). injection Hres as -> ->.
  rewrite (chunk_items_map (fun c => PyStr.strip (res_text (transcript_of model c.1)))).
  rewrite (chunk_items_map (fun c => map (shift_segment c.2)
                                       (default [] (res_segments (transcript_of model c.1))))).
  split; [apply strip_spaced | reflexivity].
Qed.

End ChunkComposition.

Lemma transcribe_audio_joins_chunks_witness :
  let run := transcribe_audio model_echo "in.mp3" (recording 1500 10) in
  let chunks := returned (segment_audio "in.mp3" default_max_duration default_max_file_size
                            (recording 1500 10)).2 [] in
  (returned run.2 ("", [])).1
  = PyStr.strip
      (PyStr.join " " (map (fun c => PyStr.strip (res_text (transcript_of model_echo c.1)))
                           chunks)) /\
  (returned run.2 ("", [])).2
  = concat (map (fun c => map (shift_segment c.2)
                              (default [] (res_segments (transcript_of model_echo c.1))))
                chunks).
Proof.
  apply (transcribe_audio_joins_chunks model_echo "in.mp3" (recording 1500 10)
           (segment_audio "in.mp3" default_max_duration default_max_file_size
              (recording 1500 10)).1
           (returned (segment_audio "in.mp3" default_max_duration default_max_file_size
                        (recording 1500 10)).2 [])
           (transcribe_audio model_echo "in.mp3" (recording 1500 10)).1);
    [vm_compute; reflexivity | vm_compute; discriminate | vm_compute; reflexivity].
Defined.

(** ** The merger: further properties *)

(** The speaker that the merger gives a segment does not depend on a speaker
    that the segment already carries, so assigning again, as every rerun of
    the display does, changes neither the segments nor the text. *)
Theorem assign_speakers_idempotent (segs : list Segment) (ds : list Interval) :
  assign_speakers_to_transcription (assign_speakers_to_transcription segs ds).1 ds
  = assign_speakers_to_transcription segs ds.
Proof.
  destruct segs as [|seg segs]; [reflexivity|].
  unfold assign_speakers_to_transcription. cbn [fst map].
  assert (H : forall l, map (assign_speaker ds) (map (assign_speaker ds) l)
                        = map (assign_speaker ds) l).
  { induction l as [|x l IH]; [reflexivity|]. cbn [map]. now rewrite IH. }
  now rewrite H.
Qed.

Lemma scan_intervals_label m ds s :
  scan_intervals m ds = Some s -> s ∈ map d_speaker ds.
Proof.
  induction ds as [|d ds IH]; [discriminate|].
  cbn [scan_intervals map]. destruct (in_interval m d).
  - intros [= <-]. now left.
  - intros H. right. now apply IH.
Qed.

(** After the assignment every segment carries a speaker, never the empty
    one: it is "Unknown" or the label of one of the intervals. *)
Theorem assigned_speaker_known (segs : list Segment) (ds : list Interval) :
  Forall (fun seg' => exists s, seg_speaker seg' = Some s /\ s <> "" /\
                                (s = "Unknown" \/ s ∈ map d_speaker ds))
         (assign_speakers_to_transcription segs ds).1.
Proof.
  rewrite assign_speakers_segments. apply Forall_fmap, Forall_forall.
  intros seg _. cbn. eexists. split; [reflexivity|].
  destruct (scan_intervals (midpoint seg) ds) as [[|c s]|] eqn:E; cbn.
  - split; [discriminate | now left].
  - split; [discriminate|]. right. eapply scan_intervals_label. exact E.
  - split; [discriminate | now left].
Qed.

Lemma runs_one_speaker sp (l : list (string * string)) :
  l <> [] -> Forall (fun e => e.1 = sp) l -> runs l = [(sp, map snd l)].
Proof.
  induction l as [|[sp' t] l IH]; intros Hne Hall; [congruence|].
  apply Forall_cons in Hall as [Hsp Hall]. cbn in Hsp. subst sp'.
  change (runs ((sp, t) :: l)) with (cons_run (sp, [t]) (runs l)).
  destruct l as [|e l]; [reflexivity|].
  rewrite IH by (assumption || discriminate).
  unfold cons_run. cbn [fst snd]. now rewrite decide_True.
Qed.

(** When every segment is given the same speaker, the transcript is a single
    paragraph, without a blank line: that speaker, and the trimmed texts of
    all segments joined by single blanks and trimmed. *)
Theorem merge_one_speaker (segs : list Segment) (ds : list Interval) (sp : string) :
  segs <> [] ->
  Forall (fun seg => speaker_or_unknown (scan_intervals (midpoint seg) ds) = sp) segs ->
  (assign_speakers_to_transcription segs ds).2
  = sp ++ ": " ++ PyStr.strip
                    (PyStr.join " " (map (fun seg => PyStr.strip (default "" (seg_text seg)))
                                         segs)).
Proof.
  intros Hne Hall.
  assert (E : (assign_speakers_to_transcription segs ds).2
              = coalesce paragraph_trimmed (map (assign_speaker ds) segs)).
  { destruct segs; [congruence|]. apply merge_segments_coalesce. }
  rewrite E. unfold coalesce.
  rewrite (runs_one_speaker sp).
  - assert (Hm : map snd (map labelled (map (assign_speaker ds) segs))
                 = map (fun seg => PyStr.strip (default "" (seg_text seg))) segs).
    { clear. induction segs as [|seg segs IH]; [reflexivity|].
      cbn [map]. now rewrite IH. }
    rewrite Hm. reflexivity.
  - destruct segs; [congruence | discriminate].
  - apply Forall_fmap, Forall_fmap. eapply Forall_impl; [exact Hall|].
    intros seg H. exact H.
Qed.

Lemma merge_one_speaker_witness :
  (assign_speakers_to_transcription two_segments [mkInterval 0 5 "A"]).2
  = "A" ++ ": " ++ PyStr.strip
                     (PyStr.join " " (map (fun seg => PyStr.strip (default "" (seg_text seg)))
                                          two_segments)).
Proof.
  apply (merge_one_speaker two_segments [mkInterval 0 5 "A"] "A").
  - discriminate.
  - repeat constructor.
Defined.

(** *** Trimmed texts *)

Lemma lstrip_idem s : PyStr.lstrip (PyStr.lstrip s) = PyStr.lstrip s.
Proof.
  induction s as [|c s IH]; [reflexivity|].
  cbn [PyStr.lstrip]. destruct (PyStr.is_space c) eqn:E; [exact IH|].
  cbn [PyStr.lstrip]. now rewrite E.
Qed.

Lemma rstrip_cons c s :
  PyStr.rstrip (String c s)
  = match PyStr.rstrip s with
    | EmptyString => if PyStr.is_space c then EmptyString else String c EmptyString
    | r => String c r
    end.
Proof. reflexivity. Qed.

Lemma rstrip_idem s : PyStr.rstrip (PyStr.rstrip s) = PyStr.rstrip s.
Proof.
  induction s as [|c s IH]; [reflexivity|].
  rewrite (rstrip_cons c s). destruct (PyStr.rstrip s) as [|a r] eqn:E.
  - destruct (PyStr.is_space c) eqn:Ec; [reflexivity|].
    rewrite rstrip_cons. cbn [PyStr.rstrip]. now rewrite Ec.
  - rewrite rstrip_cons. now rewrite IH.
Qed.

Lemma rstrip_lstrip s : PyStr.rstrip (PyStr.lstrip s) = PyStr.lstrip (PyStr.rstrip s).
Proof.
  induction s as [|c s IH]; [reflexivity|].
  rewrite (rstrip_cons c s). cbn [PyStr.lstrip]. destruct (PyStr.is_space c) eqn:Ec.
  - rewrite IH. destruct (PyStr.rstrip s) as [|a r]; [reflexivity|].
    cbn [PyStr.lstrip]. now rewrite Ec.
  - rewrite rstrip_cons. destruct (PyStr.rstrip s) as [|a r];
      rewrite ?Ec; cbn [PyStr.lstrip]; now rewrite Ec.
Qed.

Lemma strip_trimmed s : trimmed (PyStr.strip s).
Proof.
  unfold trimmed, PyStr.strip. split; [apply lstrip_idem|].
  now rewrite rstrip_lstrip, rstrip_idem.
Qed.

Lemma lstrip_length s : (String.length (PyStr.lstrip s) <= String.length s)%nat.
Proof.
  induction s as [|c s IH]; [reflexivity|].
  cbn [PyStr.lstrip]. destruct (PyStr.is_space c); cbn [String.length]; lia.
Qed.

Lemma lstrip_app a x : PyStr.lstrip a = a -> a <> "" -> PyStr.lstrip (a ++ x) = a ++ x.
Proof.
  destruct a as [|c a]; [congruence|]. intros H _.
  rewrite string_app_cons. cbn [PyStr.lstrip] in *.
  destruct (PyStr.is_space c); [|reflexivity].
  pose proof (lstrip_length a) as Hl. rewrite H in Hl. cbn [String.length] in Hl. lia.
Qed.

Lemma rstrip_app x b : PyStr.rstrip b = b -> b <> "" -> PyStr.rstrip (x ++ b) = x ++ b.
Proof.
  intros H Hne. induction x as [|c x IH]; [exact H|].
  rewrite string_app_cons, rstrip_cons, IH.
  destruct (x ++ b) eqn:E; [|reflexivity].
  destruct x; [change ("" ++ b) with b in E; congruence | discriminate].
Qed.

Lemma join_trimmed ts :
  ts <> [] -> Forall (fun t => trimmed t /\ t <> "") ts ->
  trimmed (PyStr.join " " ts) /\ PyStr.join " " ts <> "".
Proof.
  induction ts as [|t [|t' ts] IH]; intros Hne Hall; [congruence | |].
  - now apply Forall_inv in Hall.
  - apply Forall_cons in Hall as [[[Hl Hr] Ht] Hall].
    destruct IH as [[Hl' Hr'] Hj]; [discriminate | assumption|].
    change (PyStr.join " " (t :: t' :: ts)) with (t ++ " " ++ PyStr.join " " (t' :: ts)).
    split; [split|].
    + now apply lstrip_app.
    + rewrite <- string_app_assoc. rewrite rstrip_app by assumption.
      now rewrite string_app_assoc.
    + destruct t; [congruence | discriminate].
Qed.

Lemma runs_texts (P : string -> Prop) (l : list (string * string)) :
  Forall (fun e => P e.2) l ->
  Forall (fun r => r.2 <> [] /\ Forall P r.2) (runs l).
Proof.
  induction 1 as [|[sp t] l Hp _ IH]; [constructor|].
  change (runs ((sp, t) :: l)) with (cons_run (sp, [t]) (runs l)).
  unfold cons_run. destruct (runs l) as [|[sp' ts'] rest]; cbn [fst snd] in *.
  - repeat constructor; [discriminate | assumption].
  - apply Forall_cons in IH as [[Hne Hts] Hrest]. cbn [snd] in Hne, Hts. case_decide.
    + constructor; [|assumption]. cbn. split; [discriminate | now constructor].
    + constructor; [|constructor; [|assumption]]; cbn.
      * split; [discriminate | now repeat constructor].
      * now split.
Qed.

(** When no segment has an empty trimmed text, the paragraphs are exactly
    the trimmed texts of their runs joined by single blanks: the final
    trimming of the code removes nothing. *)
Theorem merge_joins_nonempty_texts (segs : list Segment) (ds : list Interval) :
  Forall (fun seg => PyStr.strip (default "" (seg_text seg)) <> "") segs ->
  (assign_speakers_to_transcription segs ds).2
  = coalesce paragraph_joined (assign_speakers_to_transcription segs ds).1.
Proof.
  intros Hall.
  assert (E : (assign_speakers_to_transcription segs ds).2
              = coalesce paragraph_trimmed (assign_speakers_to_transcription segs ds).1).
  { destruct segs; [reflexivity|]. apply merge_segments_coalesce. }
  rewrite E, assign_speakers_segments. unfold coalesce. f_equal.
  apply Forall_fmap_ext.
  eapply Forall_impl.
  - apply (runs_texts (fun t => trimmed t /\ t <> "")).
    apply Forall_fmap, Forall_fmap. eapply Forall_impl; [exact Hall|].
    intros seg Hseg. cbn. split; [apply strip_trimmed | exact Hseg].
  - intros [sp ts] [Hne Hts]. cbn [snd] in Hne, Hts.
    unfold paragraph_trimmed, paragraph_joined. cbn [fst snd]. do 2 f_equal.
    destruct (join_trimmed ts Hne Hts) as [[Hl Hr] _].
    unfold PyStr.strip. now rewrite Hr, Hl.
Qed.

Lemma merge_joins_nonempty_texts_witness :
  (assign_speakers_to_transcription two_segments two_speakers).2
  = coalesce paragraph_joined (assign_speakers_to_transcription two_segments two_speakers).1.
Proof.
  apply (merge_joins_nonempty_texts two_segments two_speakers).
  repeat constructor; vm_compute; discriminate.
Defined.

(** ** The rename transform: further properties *)

Lemma drop_length k s : String.length (PyStr.drop k s) = (String.length s - k)%nat.
Proof.
  revert s. induction k as [|k IH]; intros s; [cbn; lia|].
  destruct s as [|c s]; [reflexivity|]. cbn [PyStr.drop String.length]. apply IH.
Qed.

Lemma replace_scan_same old n : forall s,
  old <> "" -> (String.length s <= n)%nat -> PyStr.replace_scan old old 0 s = s.
Proof.
  induction n as [|n IH]; intros s Hne Hlen.
  - destruct s; [reflexivity | cbn in Hlen; lia].
  - destruct s as [|c s]; [reflexivity|].
    destruct (String.prefix old (String c s)) eqn:Hp.
    + rewrite replace_scan_match by assumption.
      rewrite IH; [symmetry; now apply prefix_split | assumption|].
      rewrite drop_length. destruct old; [congruence|].
      cbn [String.length] in *. lia.
    + rewrite replace_scan_no_match by assumption.
      rewrite IH; [reflexivity | assumption|]. cbn [String.length] in Hlen. lia.
Qed.

(** Renaming every label to itself, which is what pressing the button does
    before any name was typed, leaves the transcript as it is. *)
Theorem rename_identity (labels : list string) (m : gmap string string) (t : string) :
  (forall lbl, lbl ∈ labels -> m !! lbl = Some lbl) ->
  rename_speakers labels m t = inr t.
Proof.
  induction labels as [|lbl labels IH]; intros Hm; [reflexivity|].
  rewrite rename_speakers_cons, (Hm lbl) by now left.
  rewrite replace_nonempty by apply label_pattern_nonempty.
  rewrite (replace_scan_same _ (String.length t)); [|apply label_pattern_nonempty | lia].
  apply IH. intros l Hl. apply Hm. now right.
Qed.

Lemma rename_identity_witness :
  rename_speakers ["SPEAKER_00"; "SPEAKER_01"]
    (<["SPEAKER_01" := "SPEAKER_01"]> (<["SPEAKER_00" := "SPEAKER_00"]> ∅))
    "SPEAKER_00: hi SPEAKER_01: there"
  = inr "SPEAKER_00: hi SPEAKER_01: there".
Proof.
  apply (rename_identity ["SPEAKER_00"; "SPEAKER_01"]
           (<["SPEAKER_01" := "SPEAKER_01"]> (<["SPEAKER_00" := "SPEAKER_00"]> ∅))).
  intros lbl Hl.
  apply elem_of_cons in Hl as [->|Hl]; [vm_compute; reflexivity|].
  apply list_elem_of_singleton in Hl as ->. vm_compute. reflexivity.
Defined.

(** The renaming loop succeeds exactly when every label has an entry in the
    speaker map; when it fails, it fails with the [KeyError] of a label that
    has none. *)
Theorem rename_speakers_key_error (labels : list string) (m : gmap string string)
    (t : string) :
  ((forall lbl, lbl ∈ labels -> is_Some (m !! lbl)) <->
   exists t', rename_speakers labels m t = inr t') /\
  (forall e, rename_speakers labels m t = inl e ->
             exists lbl, e = KeyError lbl /\ lbl ∈ labels /\ m !! lbl = None).
Proof.
  revert t. induction labels as [|lbl labels IH]; intros t.
  - split; [split; [eexists; reflexivity | intros _ l Hl; now apply elem_of_nil in Hl]|].
    intros e H. discriminate.
  - rewrite rename_speakers_cons. destruct (m !! lbl) as [new_name|] eqn:El.
    + destruct (IH (PyStr.replace (lbl ++ ":") (new_name ++ ":") t)) as [[H1 H2] H3].
      split; [split|].
      * intros Hall. apply H1. intros l Hl. apply Hall. now right.
      * intros Hex l Hl. apply elem_of_cons in Hl as [->|Hl]; [now rewrite El|].
        now apply H2.
      * intros e He. destruct (H3 e He) as (l & -> & Hl & Hn).
        exists l. split; [reflexivity|]. split; [now right | assumption].
    + split; [split|].
      * intros Hall. destruct (Hall lbl) as [x Hx]; [now left | congruence].
      * intros [t' Ht']. discriminate.
      * intros e [= <-]. exists lbl. split; [reflexivity|]. split; [now left | assumption].
Qed.

Lemma rename_speakers_key_error_witness :
  exists lbl, KeyError "SPEAKER_01" = KeyError lbl /\
              lbl ∈ ["SPEAKER_00"; "SPEAKER_01"] /\
              (<["SPEAKER_00" := "Ann"]> ∅ : gmap string string) !! lbl = None.
Proof.
  apply (proj2 (rename_speakers_key_error ["SPEAKER_00"; "SPEAKER_01"]
                  (<["SPEAKER_00" := "Ann"]> ∅) "SPEAKER_00: hi")).
  vm_compute. reflexivity.
Defined.

(** ** Reruns of [main] *)

Lemma preserves_bind {A B C} (f : World -> C) (m : M A) (k : A -> M B) :
  preserves f m -> (forall a, preserves f (k a)) -> preserves f (m ≫= k).
Proof.
  intros Hm Hk w. rewrite bind_unfold. specialize (Hm w).
  destruct (m w) as [w1 [e|a]]; cbn [fst] in *; [exact Hm|].
  now rewrite Hk.
Qed.

Lemma preserves_ret {A C} (f : World -> C) (a : A) : preserves f (mret a : M A).
Proof. intros w. reflexivity. Qed.

Lemma preserves_lift {A C} (f : World -> C) (r : exn + A) : preserves f (lift_result r).
Proof. intros w. reflexivity. Qed.

Lemma preserves_get_session {C} (f : World -> C) : preserves f get_session.
Proof. intros w. reflexivity. Qed.

Lemma preserves_for_each {A S C} (f : World -> C) (body : S -> A -> M S) (l : list A) :
  (forall s x, preserves f (body s x)) -> forall s, preserves f (for_each l body s).
Proof.
  intros Hb. induction l as [|x l IH]; intros s; [apply preserves_ret|].
  cbn [for_each]. apply preserves_bind; [apply Hb | exact IH].
Qed.

Lemma outside_emit e : preserves outside (emit e).
Proof. intros w. reflexivity. Qed.

Lemma outside_put_session s : preserves outside (put_session s).
Proof. intros w. reflexivity. Qed.

Lemma outside_modify_session g : preserves outside (modify_session g).
Proof.
  apply preserves_bind; [apply preserves_get_session | intros s; apply outside_put_session].
Qed.

Create HintDb frame.

#[local] Hint Resolve preserves_ret preserves_lift preserves_get_session outside_emit
  outside_put_session outside_modify_session : frame.

Ltac frame :=
  repeat first
    [ apply preserves_bind; [|intros ?]
    | apply preserves_for_each; intros ? ?
    | progress auto with frame ].

Lemma outside_display_results text : preserves outside (display_results text).
Proof.
  unfold display_results. apply preserves_bind; [auto with frame|]. intros s.
  destruct (diarization_results s); [unfold set_final_transcript; frame|].
  apply preserves_bind; [auto with frame|]. intros _.
  apply preserves_bind; [auto with frame|]. intros _.
  apply preserves_bind.
  - destruct (transcription_segments s); [unfold set_final_transcript; frame|].
    destruct (assign_speakers_to_transcription _ _). auto with frame.
  - intros _. frame.
Qed.

Lemma outside_rename_input inp u lbl : preserves outside (rename_input inp u lbl).
Proof. unfold rename_input, set_speaker_map. frame. Qed.

Lemma outside_rename_section text inp : preserves outside (rename_section text inp).
Proof.
  unfold rename_section. apply preserves_bind; [auto with frame|]. intros s.
  destruct (speaker_labels_of (diarization_results s)) as [|lbl labels]; [auto with frame|].
  apply preserves_bind; [auto with frame|]. intros _.
  apply preserves_bind; [auto with frame|]. intros _.
  apply preserves_bind; [auto with frame|]. intros _.
  apply preserves_bind.
  { destruct (decide (speaker_map s = ∅)); unfold set_speaker_map; frame. }
  intros _. apply preserves_bind.
  { apply preserves_for_each. intros ? ?. apply outside_rename_input. }
  intros _. apply preserves_bind.
  { destruct (apply_rename_button inp); unfold set_final_transcript; frame. }
  intros _. frame.
Qed.

Lemma outside_main_rerun text load pimp pfp inp :
  transcribe_button inp = false -> preserves outside (main text load pimp pfp inp).
Proof.
  intros Hb. unfold main. rewrite Hb. apply preserves_bind.
  { intros w0. destruct (session w0); reflexivity. }
  intros _. apply preserves_bind; [auto with frame|]. intros _.
  apply preserves_bind; [auto with frame|]. intros s.
  destruct (transcription_done s); [|auto with frame].
  apply preserves_bind; [apply outside_display_results|].
  intros _. apply outside_rename_section.
Qed.

(** A run of [main] in which the transcribe button is not pressed neither
    creates, changes or removes a file nor issues a command, whatever the
    session holds and whether the run ends normally or not. *)
Theorem rerun_touches_no_file text load pimp pfp inp w :
  transcribe_button inp = false ->
  fs (main text load pimp pfp inp w).1 = fs w /\
  commands (main text load pimp pfp inp w).1 = commands w.
Proof.
  intros Hb. pose proof (outside_main_rerun text load pimp pfp inp Hb w) as H.
  unfold outside in H. now injection H.
Qed.

Lemma rerun_touches_no_file_witness :
  fs (main (fun key => key) (fun _ => inr model_ok) true (inl (ExternalError "no token"))
           swap_inputs
           (mkWorld {["in.mp3" := mkFile (Some 100%Q) 10]} [] [] (Some transcribed_session))).1
  = fs (mkWorld {["in.mp3" := mkFile (Some 100%Q) 10]} [] [] (Some transcribed_session)) /\
  commands (main (fun key => key) (fun _ => inr model_ok) true
                 (inl (ExternalError "no token")) swap_inputs
                 (mkWorld {["in.mp3" := mkFile (Some 100%Q) 10]} [] []
                          (Some transcribed_session))).1
  = commands (mkWorld {["in.mp3" := mkFile (Some 100%Q) 10]} [] []
                      (Some transcribed_session)).
Proof.
  apply (rerun_touches_no_file (fun key => key) (fun _ => inr model_ok) true
           (inl (ExternalError "no token")) swap_inputs
           (mkWorld {["in.mp3" := mkFile (Some 100%Q) 10]} [] [] (Some transcribed_session))).
  reflexivity.
Defined.

(** *** What a rerun stores *)

Lemma display_results_run text w :
  exists u',
    display_results text w
    = ({| fs := fs w; commands := commands w; ui := u';
          session := Some (displayed (session_of w)) |}, inr tt).
Proof.
  unfold display_results, displayed, session_of.
  destruct w as [f c u [s|]]; cbn [session default from_option id].
  - destruct s as [done txt segs results final m].
    destruct results as [|d results]; [eexists; mrun; reflexivity|].
    destruct segs as [|seg segs]; [eexists; mrun; reflexivity|].
    mrun.
    destruct (assign_speakers_to_transcription (seg :: segs) (d :: results)) as [segs' merged].
    eexists. mrun. reflexivity.
  - eexists. mrun. reflexivity.
Qed.

Lemma rename_inputs_run inp labels : forall f c u done txt segs results final m,
  (forall lbl, lbl ∈ labels -> is_Some (m !! lbl)) ->
  for_each labels (rename_input inp) tt
    (mkWorld f c u (Some (mkSessionState done txt segs results final m)))
  = (mkWorld f c u
       (Some (mkSessionState done txt segs results final (foldl (update_name inp) m labels))),
     inr tt).
Proof.
  induction labels as [|lbl labels IH]; intros f c u done txt segs results final m Hm;
    [reflexivity|].
  cbn [for_each foldl]. rewrite bind_unfold.
  destruct (Hm lbl) as [v Hv]; [now left|].
  unfold rename_input, set_speaker_map, dict_get. mrun. rewrite Hv. mrun.
  unfold update_name at 2. rewrite Hv.
  apply IH. intros l Hl. apply lookup_insert_is_Some'. right. apply Hm. now right.
Qed.

Lemma identity_names_covers labels : forall (m : gmap string string) lbl,
  lbl ∈ labels \/ is_Some (m !! lbl) ->
  is_Some (foldl (fun m lbl => <[lbl := lbl]> m) m labels !! lbl).
Proof.
  induction labels as [|l labels IH]; intros m lbl H; cbn [foldl].
  - destruct H as [H|H]; [now apply elem_of_nil in H | exact H].
  - apply IH. destruct H as [H|H].
    + apply elem_of_cons in H as [->|H]; [right | now left].
      rewrite lookup_insert_eq. eauto.
    + right. apply lookup_insert_is_Some'. now right.
Qed.

Lemma update_names_covers inp labels : forall (m : gmap string string) lbl,
  is_Some (m !! lbl) -> is_Some (foldl (update_name inp) m labels !! lbl).
Proof.
  induction labels as [|l labels IH]; intros m lbl H; cbn [foldl]; [exact H|].
  apply IH. unfold update_name. destruct (m !! l); [|exact H].
  apply lookup_insert_is_Some'. now right.
Qed.

Lemma typed_names_covers inp labels (m : gmap string string) :
  (m = ∅ \/ forall lbl, lbl ∈ labels -> is_Some (m !! lbl)) ->
  forall lbl, lbl ∈ labels -> is_Some (typed_names inp labels m !! lbl).
Proof.
  intros H lbl Hl. unfold typed_names. apply update_names_covers.
  destruct (decide (m = ∅)) as [->|Hne].
  - apply identity_names_covers. now left.
  - destruct H as [H|H]; [contradiction | now apply H].
Qed.

Lemma rename_speakers_defined labels (m : gmap string string) : forall t,
  (forall lbl, lbl ∈ labels -> is_Some (m !! lbl)) ->
  exists t', rename_speakers labels m t = inr t'.
Proof.
  induction labels as [|lbl labels IH]; intros t Hm; [eexists; reflexivity|].
  rewrite rename_speakers_cons. destruct (Hm lbl) as [v ->]; [now left|].
  apply IH. intros l Hl. apply Hm. now right.
Qed.

Lemma rename_section_run text inp f c u done txt segs results final m :
  map_covers (mkSessionState done txt segs results final m) ->
  speaker_labels_of results <> [] ->
  exists u' t',
    rename_section text inp
      (mkWorld f c u (Some (mkSessionState done txt segs results final m)))
    = (mkWorld f c u'
         (Some (mkSessionState done txt segs results t'
                  (typed_names inp (speaker_labels_of results) m))),
       inr tt) /\
    (apply_rename_button inp = false -> t' = final) /\
    (apply_rename_button inp = true ->
     rename_speakers (speaker_labels_of results)
       (typed_names inp (speaker_labels_of results) m) final = inr t').
Proof.
  intros Hcov Hne. unfold map_covers in Hcov. cbn [speaker_map diarization_results] in Hcov.
  pose proof (typed_names_covers inp (speaker_labels_of results) m Hcov) as Htyped.
  destruct (rename_speakers_defined (speaker_labels_of results)
              (typed_names inp (speaker_labels_of results) m) final Htyped) as [t' Ht'].
  unfold typed_names in *.
  unfold rename_section. rewrite bind_unfold. mrun.
  destruct (speaker_labels_of results) as [|lbl labels] eqn:El; [congruence|].
  mrun.
  destruct (decide (m = ∅)) as [Hm|Hm].
  - mrun. rewrite rename_inputs_run
      by (intros l Hl; apply identity_names_covers; now left).
    destruct (apply_rename_button inp).
    + mrun. rewrite Ht'. mrun. eexists _, t'. split; [reflexivity|]. split; [discriminate | auto].
    + mrun. eexists _, final. split; [reflexivity|]. split; [auto | discriminate].
  - mrun. destruct Hcov as [Hcov|Hcov]; [contradiction|].
    rewrite rename_inputs_run by assumption.
    destruct (apply_rename_button inp).
    + mrun. rewrite Ht'. mrun. eexists _, t'. split; [reflexivity|]. split; [discriminate | auto].
    + mrun. eexists _, final. split; [reflexivity|]. split; [auto | discriminate].
Qed.

Lemma insert_sorted_nonempty x l : insert_sorted x l <> [].
Proof.
  destruct l as [|y l]; [discriminate|]. cbn [insert_sorted].
  destruct (String.ltb x y); [discriminate|].
  destruct (String.eqb x y); discriminate.
Qed.

Lemma speaker_labels_nonempty d results : speaker_labels_of (d :: results) <> [].
Proof. apply insert_sorted_nonempty. Qed.

Lemma main_rerun text load pimp pfp inp w s :
  transcribe_button inp = false ->
  session w = Some s -> transcription_done s = true -> map_covers s ->
  exists w' s',
    main text load pimp pfp inp w = (w', inr tt) /\
    session w' = Some s' /\
    map_covers s' /\
    diarization_results s' = diarization_results s /\
    (apply_rename_button inp = false ->
     final_transcript s' = final_transcript (displayed s)) /\
    (apply_rename_button inp = true ->
     speaker_labels_of (diarization_results s) <> [] ->
     rename_speakers (speaker_labels_of (diarization_results s)) (speaker_map s')
       (final_transcript (displayed s)) = inr (final_transcript s')) /\
    (speaker_labels_of (diarization_results s) <> [] ->
     speaker_map s' = typed_names inp (speaker_labels_of (diarization_results s))
                        (speaker_map s)).
Proof.
  intros Hb Hs Hdone Hcov.
  destruct w as [f c u sess]. cbn [session] in Hs. subst sess.
  destruct s as [done txt segs results final m]. cbn [transcription_done] in Hdone. subst done.
  assert (Hmain :
    main text load pimp pfp inp
      (mkWorld f c u (Some (mkSessionState true txt segs results final m)))
    = (display_results text ≫= fun _ => rename_section text inp)
        (mkWorld f c u (Some (mkSessionState true txt segs results final m)))).
  { unfold main. rewrite Hb. reflexivity. }
  rewrite Hmain, bind_unfold. clear Hmain.
  destruct (display_results_run text
              (mkWorld f c u (Some (mkSessionState true txt segs results final m))))
    as [u' E].
  rewrite E. clear E. unfold session_of. cbn [session default from_option id fs commands].
  destruct results as [|d results].
  - assert (Hd : displayed (mkSessionState true txt segs [] final m)
                 = mkSessionState true txt segs [] txt m) by reflexivity.
    rewrite Hd. unfold rename_section. mrun.
    change (speaker_labels_of []) with (@nil string). mrun.
    eexists _, _. split; [reflexivity|]. split; [reflexivity|]. split; [exact Hcov|].
    split; [reflexivity|]. split; [reflexivity|].
    split; intros; cbn in *; congruence.
  - set (t1 := match segs with
               | [] => txt
               | _ :: _ => (assign_speakers_to_transcription segs (d :: results)).2
               end).
    set (segs1 := match segs with
                  | [] => segs
                  | _ :: _ => (assign_speakers_to_transcription segs (d :: results)).1
                  end).
    assert (Hd : displayed (mkSessionState true txt segs (d :: results) final m)
                 = mkSessionState true txt segs1 (d :: results) t1 m).
    { subst segs1 t1. unfold displayed. now destruct segs. }
    rewrite Hd.
    assert (Hcov1 : map_covers (mkSessionState true txt segs1 (d :: results) t1 m)) by exact Hcov.
    destruct (rename_section_run text inp f c u' true txt segs1 (d :: results) t1 m Hcov1
                (speaker_labels_nonempty d results)) as (u'' & t' & E & Hf & Ht).
    rewrite E.
    eexists _, _. split; [reflexivity|]. split; [reflexivity|]. split.
    { right. cbn [speaker_map diarization_results].
      apply typed_names_covers. exact Hcov. }
    split; [reflexivity|]. cbn [final_transcript speaker_map diarization_results].
    split; [exact Hf|]. split; [intros Ha _; now apply Ht | reflexivity].
Qed.

Lemma main_rerun_covers text load pimp pfp inp w :
  transcribe_button inp = false ->
  map_covers (session_of w) ->
  (main text load pimp pfp inp w).2 = inr tt /\
  map_covers (session_of (main text load pimp pfp inp w).1).
Proof.
  intros Hb Hcov.
  destruct (session w) as [s|] eqn:Hs.
  - destruct (transcription_done s) eqn:Hdone.
    + unfold session_of in Hcov. rewrite Hs in Hcov. cbn in Hcov.
      destruct (main_rerun text load pimp pfp inp w s Hb Hs Hdone Hcov)
        as (w' & s' & E & Hs' & Hcov' & _).
      rewrite E. cbn [fst snd]. unfold session_of. rewrite Hs'. auto.
    + destruct w as [f c u sess]. cbn [session] in Hs. subst sess.
      destruct s as [done txt segs results final m].
      cbn [transcription_done] in Hdone. subst done.
      unfold main. rewrite Hb. split; [reflexivity | exact Hcov].
  - destruct w as [f c u sess]. cbn [session] in Hs. subst sess.
    unfold main. rewrite Hb. split; [reflexivity | now left].
Qed.

(** A rerun in which neither button is pressed stores the displayed
    transcript as the final transcript: the merged transcript when there are
    diarization results and segments, the plain transcript otherwise.  What
    the final transcript was before, for instance the result of a renaming,
    is discarded. *)
Theorem rerun_discards_renaming text load pimp pfp inp w s :
  transcribe_button inp = false -> apply_rename_button inp = false ->
  session w = Some s -> transcription_done s = true -> map_covers s ->
  final_transcript (session_of (main text load pimp pfp inp w).1)
  = match diarization_results s, transcription_segments s with
    | _ :: _, _ :: _ =>
        (assign_speakers_to_transcription (transcription_segments s)
                                          (diarization_results s)).2
    | _, _ => transcription_text s
    end.
Proof.
  intros Hb Ha Hs Hdone Hcov.
  destruct (main_rerun text load pimp pfp inp w s Hb Hs Hdone Hcov)
    as (w' & s' & E & Hs' & _ & _ & Hf & _).
  rewrite E. cbn [fst]. unfold session_of. rewrite Hs'. cbn [default from_option id].
  rewrite (Hf Ha). unfold displayed.
  destruct (diarization_results s), (transcription_segments s); reflexivity.
Qed.

Lemma rerun_discards_renaming_witness :
  final_transcript
    (session_of (main (fun key => key) (fun _ => inr model_ok) true
                      (inl (ExternalError "no token")) idle_inputs
                      (mkWorld ∅ [] [] (Some renamed_session))).1)
  = match diarization_results renamed_session, transcription_segments renamed_session with
    | _ :: _, _ :: _ =>
        (assign_speakers_to_transcription (transcription_segments renamed_session)
                                          (diarization_results renamed_session)).2
    | _, _ => transcription_text renamed_session
    end.
Proof.
  apply (rerun_discards_renaming (fun key => key) (fun _ => inr model_ok) true
           (inl (ExternalError "no token")) idle_inputs
           (mkWorld ∅ [] [] (Some renamed_session)) renamed_session);
    [reflexivity | reflexivity | reflexivity | reflexivity|].
  right. intros lbl Hl. vm_compute in Hl.
  apply elem_of_cons in Hl as [->|Hl]; [vm_compute; eauto|].
  apply list_elem_of_singleton in Hl as ->. vm_compute. eauto.
Defined.

(** When the apply button is pressed in a rerun, the names that are applied
    are the stored ones overridden by what the user typed (every label its
    own name when nothing was stored), and they are applied to the displayed
    transcript of this run, not to the final transcript of the run before. *)
Theorem apply_renames_displayed text load pimp pfp inp w s :
  transcribe_button inp = false -> apply_rename_button inp = true ->
  session w = Some s -> transcription_done s = true -> map_covers s ->
  speaker_labels_of (diarization_results s) <> [] ->
  speaker_map (session_of (main text load pimp pfp inp w).1)
  = typed_names inp (speaker_labels_of (diarization_results s)) (speaker_map s) /\
  rename_speakers (speaker_labels_of (diarization_results s))
    (typed_names inp (speaker_labels_of (diarization_results s)) (speaker_map s))
    match diarization_results s, transcription_segments s with
    | _ :: _, _ :: _ =>
        (assign_speakers_to_transcription (transcription_segments s)
                                          (diarization_results s)).2
    | _, _ => transcription_text s
    end
  = inr (final_transcript (session_of (main text load pimp pfp inp w).1)).
Proof.
  intros Hb Ha Hs Hdone Hcov Hne.
  destruct (main_rerun text load pimp pfp inp w s Hb Hs Hdone Hcov)
    as (w' & s' & E & Hs' & _ & _ & _ & Hr & Hm).
  rewrite E. cbn [fst]. unfold session_of. rewrite Hs'. cbn [default from_option id].
  split; [now apply Hm|]. rewrite <- (Hm Hne), <- (Hr Ha Hne).
  f_equal. unfold displayed.
  destruct (diarization_results s), (transcription_segments s); reflexivity.
Qed.

Lemma apply_renames_displayed_witness :
  speaker_map
    (session_of (main (fun key => key) (fun _ => inr model_ok) true
                      (inl (ExternalError "no token")) swap_inputs
                      (mkWorld ∅ [] [] (Some transcribed_session))).1)
  = typed_names swap_inputs (speaker_labels_of (diarization_results transcribed_session))
      (speaker_map transcribed_session) /\
  rename_speakers (speaker_labels_of (diarization_results transcribed_session))
    (typed_names swap_inputs (speaker_labels_of (diarization_results transcribed_session))
       (speaker_map transcribed_session))
    match diarization_results transcribed_session,
          transcription_segments transcribed_session with
    | _ :: _, _ :: _ =>
        (assign_speakers_to_transcription (transcription_segments transcribed_session)
                                          (diarization_results transcribed_session)).2
    | _, _ => transcription_text transcribed_session
    end
  = inr (final_transcript
           (session_of (main (fun key => key) (fun _ => inr model_ok) true
                             (inl (ExternalError "no token")) swap_inputs
                             (mkWorld ∅ [] [] (Some transcribed_session))).1)).
Proof.
  apply (apply_renames_displayed (fun key => key) (fun _ => inr model_ok) true
           (inl (ExternalError "no token")) swap_inputs
           (mkWorld ∅ [] [] (Some transcribed_session)) transcribed_session);
    [reflexivity | reflexivity | reflexivity | reflexivity | left; reflexivity
    | vm_compute; discriminate].
Defined.

(** *** The two stages of a run *)

Lemma session_emit e : preserves session (emit e).
Proof. intros w. reflexivity. Qed.

Lemma session_subprocess_run c : preserves session (subprocess_run c).
Proof. intros w. reflexivity. Qed.

Lemma session_named_temporary_file content : preserves session (named_temporary_file content).
Proof. intros w. reflexivity. Qed.

Lemma session_os_remove path : preserves session (os_remove path).
Proof.
  intros w. unfold os_remove, get_fs. rewrite bind_unfold.
  destruct (fs w !! path); reflexivity.
Qed.

Lemma session_convert_to_wav input sr : preserves session (convert_to_wav input sr).
Proof. intros w. reflexivity. Qed.

Lemma session_transcribe_audio model fp : preserves session (transcribe_audio model fp).
Proof. intros w. apply transcribe_audio_frame. Qed.

Lemma keeps_bind {A B} (P : World -> Prop) (m : M A) (k : A -> M B) :
  keeps P m -> (forall a, keeps P (k a)) -> keeps P (m ≫= k).
Proof.
  intros Hm Hk w Hw. rewrite bind_unfold. specialize (Hm w Hw).
  destruct (m w) as [w1 [e|a]]; cbn [fst] in *; [exact Hm|].
  now apply Hk.
Qed.

Lemma establishes_bind {A B} (P : World -> Prop) (m : M A) (k : A -> M B) :
  (forall w, P (m w).1) -> (forall a, keeps P (k a)) -> forall w, P ((m ≫= k) w).1.
Proof.
  intros Hm Hk w. rewrite bind_unfold. specialize (Hm w).
  destruct (m w) as [w1 [e|a]]; cbn [fst] in *; [exact Hm|].
  now apply Hk.
Qed.

Lemma keeps_try_except {A} (P : World -> Prop) (m : M A) (h : exn -> M A) :
  keeps P m -> (forall e, keeps P (h e)) -> keeps P (try_except m h).
Proof.
  intros Hm Hh w Hw. unfold try_except. specialize (Hm w Hw).
  destruct (m w) as [w1 [e|a]]; cbn [fst] in *; [now apply Hh | exact Hm].
Qed.

Lemma keeps_map_empty_session {A} (m : M A) : preserves session m -> keeps map_empty m.
Proof. intros Hm w (s & Hs & He). exists s. now rewrite Hm. Qed.

Lemma keeps_map_empty_put s : speaker_map s = ∅ -> keeps map_empty (put_session s).
Proof. intros He w _. now exists s. Qed.

Lemma keeps_map_empty_diarization pfp fp : keeps map_empty (diarization_try pfp fp).
Proof.
  unfold diarization_try.
  apply keeps_bind; [apply keeps_map_empty_session, preserves_lift|]. intros pipeline.
  apply keeps_bind; [apply keeps_map_empty_session, session_convert_to_wav|]. intros wav.
  apply keeps_bind; [apply keeps_map_empty_session, preserves_lift|]. intros results.
  apply keeps_bind; [|intros _; apply keeps_map_empty_session, session_os_remove].
  intros w (s & Hs & He). unfold modify_session, get_session, put_session.
  rewrite bind_unfold. cbn [fst session]. rewrite Hs. cbn.
  eexists. split; [reflexivity | exact He].
Qed.

(** Once an upload is being handled, the speaker map is empty when the
    handler is left, on every path. *)
Lemma handler_empties_map text load pimp pfp inp content w :
  uploaded_file inp = Some content ->
  map_empty (transcribe_handler text load pimp pfp inp w).1.
Proof.
  intros Hu. unfold transcribe_handler. rewrite Hu. revert w.
  apply establishes_bind; [intros w; now exists cleared_session|]. intros _.
  apply keeps_bind; [apply keeps_map_empty_session, session_named_temporary_file|].
  intros fp.
  apply keeps_bind; [apply keeps_map_empty_session, session_emit|]. intros _.
  apply keeps_bind; [apply keeps_map_empty_session, session_emit|]. intros _.
  apply keeps_bind; [apply keeps_map_empty_session, preserves_lift|]. intros model.
  apply keeps_bind; [apply keeps_map_empty_session, session_transcribe_audio|].
  intros [t segs].
  apply keeps_bind; [now apply keeps_map_empty_put|]. intros _.
  apply keeps_bind.
  { destruct (enable_diarization inp && pimp).
    - apply keeps_bind; [apply keeps_map_empty_session, session_emit|]. intros _.
      apply keeps_try_except; [apply keeps_map_empty_diarization|].
      intros e. apply keeps_map_empty_session, session_emit.
    - apply keeps_map_empty_session, preserves_ret. }
  intros _.
  apply keeps_bind; [apply keeps_map_empty_session, session_os_remove|]. intros _.
  apply keeps_map_empty_session, session_emit.
Qed.

Lemma first_stage_session text load pimp pfp inp w :
  (exists s, session (first_stage text load pimp pfp inp w).1 = Some s /\
             (transcribe_button inp = false \/ uploaded_file inp = None ->
              s = session_of w)) /\
  (transcribe_button inp = true -> (exists content, uploaded_file inp = Some content) ->
   map_empty (first_stage text load pimp pfp inp w).1).
Proof.
  unfold first_stage. rewrite bind_unfold.
  set (w0 := {| fs := fs w; commands := commands w; ui := ui w;
                session := Some (session_of w) |}).
  assert (E : (match session w with
               | Some _ => (w, inr tt)
               | None => put_session cleared_session w
               end) = (w0, @inr exn unit tt)).
  { subst w0. unfold session_of. destruct w as [f c u [s|]]; reflexivity. }
  rewrite E. destruct (transcribe_button inp) eqn:Hb.
  - destruct (uploaded_file inp) as [content|] eqn:Hu.
    + pose proof (handler_empties_map text load pimp pfp inp content w0 Hu) as Hm.
      split; [|intros _ _; exact Hm].
      destruct Hm as (s & Hs & _). exists s. split; [exact Hs|].
      intros [H|H]; discriminate.
    + unfold transcribe_handler. rewrite Hu. split.
      * exists (session_of w). split; [reflexivity | auto].
      * intros _ [content H]. discriminate.
  - split; [|discriminate]. exists (session_of w). split; [reflexivity | auto].
Qed.

Lemma main_two_stages text load pimp pfp inp w :
  main text load pimp pfp inp w
  = match first_stage text load pimp pfp inp w with
    | (w1, inl e) => (w1, inl e)
    | (w1, inr _) => main text load pimp pfp (no_transcribe inp) w1
    end.
Proof.
  destruct (first_stage_session text load pimp pfp inp w) as [(s & Hs & _) _].
  unfold main, first_stage in *. rewrite !bind_unfold in *.
  destruct (match session w with
            | Some _ => (w, inr tt)
            | None => put_session cleared_session w
            end) as [w0 [e|[]]]; [reflexivity|].
  rewrite !bind_unfold.
  destruct ((if transcribe_button inp
             then transcribe_handler text load pimp pfp inp
             else mret tt) w0) as [w1 [e|[]]]; [reflexivity|].
  destruct w1 as [f1 c1 u1 s1]. cbn [fst session] in Hs. subst s1. reflexivity.
Qed.

(** The speaker map stays empty or covering through every run of [main],
    with or without a transcription, ending normally or not; and a run in
    which the transcribe button is not pressed ends normally: the lookups
    of the rename section never raise [KeyError]. *)
Theorem speaker_map_invariant text load pimp pfp inp w :
  map_covers (session_of w) ->
  map_covers (session_of (main text load pimp pfp inp w).1) /\
  (transcribe_button inp = false -> (main text load pimp pfp inp w).2 = inr tt).
Proof.
  intros Hcov. split.
  - rewrite main_two_stages.
    destruct (first_stage_session text load pimp pfp inp w) as [(s & Hs & Hsame) Hempty].
    assert (Hcov1 : map_covers (session_of (first_stage text load pimp pfp inp w).1)).
    { unfold session_of at 1. rewrite Hs. cbn [default from_option id].
      destruct (transcribe_button inp) eqn:Hb.
      - destruct (uploaded_file inp) as [content|] eqn:Hu.
        + destruct Hempty as (s' & Hs' & He); [reflexivity | eauto|].
          rewrite Hs in Hs'. injection Hs' as <-. now left.
        + rewrite Hsame by auto. exact Hcov.
      - rewrite Hsame by auto. exact Hcov. }
    destruct (first_stage text load pimp pfp inp w) as [w1 [e|[]]]; cbn [fst] in *;
      [exact Hcov1|].
    now apply main_rerun_covers.
  - intros Hb. now apply main_rerun_covers.
Qed.

Lemma speaker_map_invariant_witness :
  map_covers
    (session_of (main (fun key => key) (fun _ => inr model_ok) true
                      (inl (ExternalError "no token")) swap_inputs
                      (mkWorld ∅ [] [] (Some transcribed_session))).1) /\
  (transcribe_button swap_inputs = false ->
   (main (fun key => key) (fun _ => inr model_ok) true (inl (ExternalError "no token"))
         swap_inputs (mkWorld ∅ [] [] (Some transcribed_session))).2 = inr tt).
Proof.
  apply (speaker_map_invariant (fun key => key) (fun _ => inr model_ok) true
           (inl (ExternalError "no token")) swap_inputs
           (mkWorld ∅ [] [] (Some transcribed_session))).
  left. reflexivity.
Defined.

(** *** Files after a transcription run *)

Lemma main_outside_first_stage text load pimp pfp inp w :
  outside (main text load pimp pfp inp w).1
  = outside (first_stage text load pimp pfp inp w).1.
Proof.
  rewrite main_two_stages.
  destruct (first_stage text load pimp pfp inp w) as [w1 [e|[]]]; [reflexivity|].
  now apply outside_main_rerun.
Qed.

Lemma main_transcribed_outside text load pimp pfp inp w content model t segs w4 :
  transcribe_button inp = true -> uploaded_file inp = Some content ->
  load (model_choice inp) = inr model ->
  transcribe_audio model (fresh (dom (fs w))) (uploaded w content) = (w4, inr (t, segs)) ->
  outside (main text load pimp pfp inp w).1
  = if enable_diarization inp && pimp
    then match pfp with
         | inl _ => (delete (fresh (dom (fs w))) (fs w4), commands w4)
         | inr pipeline =>
             match pipeline (fresh (dom (fs w4))) with
             | inl _ =>
                 (delete (fresh (dom (fs w))) (<[fresh (dom (fs w4)) := empty_file]> (fs w4)),
                  (commands w4 ++ [FfmpegConvert (fresh (dom (fs w))) 16000
                                                 (fresh (dom (fs w4)))])%list)
             | inr _ =>
                 (delete (fresh (dom (fs w))) (fs w4),
                  (commands w4 ++ [FfmpegConvert (fresh (dom (fs w))) 16000
                                                 (fresh (dom (fs w4)))])%list)
             end
         end
    else (delete (fresh (dom (fs w))) (fs w4), commands w4).
Proof.
  intros Hb Hu Hl Ht. rewrite main_outside_first_stage.
  destruct (transcribe_audio_frame model (fresh (dom (fs w))) (uploaded w content))
    as [Hfile _].
  rewrite Ht in Hfile. cbn [fst] in Hfile.
  unfold uploaded in Ht, Hfile.
  destruct w4 as [f4 c4 u4 s4]. cbn [fs commands] in *.
  rewrite lookup_insert_eq in Hfile.
  assert (Hwav : <[fresh (dom f4) := empty_file]> f4 !! fresh (dom (fs w)) = Some content).
  { rewrite lookup_insert_ne; [assumption|].
    intros Heq. pose proof (fresh_lookup f4) as Hn. rewrite Heq in Hn. congruence. }
  assert (Hdel : delete (fresh (dom f4)) (<[fresh (dom f4) := empty_file]> f4) = f4).
  { apply delete_insert_id, fresh_lookup. }
  unfold first_stage, transcribe_handler, outside. rewrite Hb, Hu.
  unfold diarization_try.
  destruct w as [f c u s]. cbn [fs commands ui session] in *.
  destruct (enable_diarization inp && pimp); [destruct pfp as [e|pipeline]|].
  - destruct s; mrun; rewrite Hl; mrun; rewrite Ht; mrun; rewrite Hfile; reflexivity.
  - destruct (pipeline (fresh (dom f4))) as [e|results] eqn:Hp;
      destruct s; mrun; rewrite Hl; mrun; rewrite Ht; mrun; rewrite Hp; mrun;
      rewrite ?lookup_insert_eq; mrun; rewrite ?Hdel, ?Hwav, ?Hfile; reflexivity.
  - destruct s; mrun; rewrite Hl; mrun; rewrite Ht; mrun; rewrite Hfile; reflexivity.
Qed.

(** After a successful transcription the temporary copy of the upload is
    removed before the run ends, whether diarization is skipped, succeeds or
    fails. *)
Theorem upload_copy_removed text load pimp pfp inp w content model t segs w4 :
  transcribe_button inp = true -> uploaded_file inp = Some content ->
  load (model_choice inp) = inr model ->
  transcribe_audio model (fresh (dom (fs w))) (uploaded w content) = (w4, inr (t, segs)) ->
  fs w !! fresh (dom (fs w)) = None /\
  fs (main text load pimp pfp inp w).1 !! fresh (dom (fs w)) = None.
Proof.
  intros Hb Hu Hl Ht. split; [apply fresh_lookup|].
  pose proof (main_transcribed_outside text load pimp pfp inp w content model t segs w4
                Hb Hu Hl Ht) as H.
  change (fs (main text load pimp pfp inp w).1)
    with (outside (main text load pimp pfp inp w).1).1.
  rewrite H.
  destruct (enable_diarization inp && pimp); [destruct pfp as [e|pipeline]|];
    [| destruct (pipeline (fresh (dom (fs w4)))) |]; cbn [fst]; apply lookup_delete_eq.
Qed.

Lemma upload_copy_removed_witness :
  fs fresh_world !! fresh (dom (fs fresh_world)) = None /\
  fs (main (fun key => key) (fun _ => inr model_ok) true (inl (ExternalError "no token"))
           upload_inputs fresh_world).1 !! fresh (dom (fs fresh_world)) = None.
Proof.
  apply (upload_copy_removed (fun key => key) (fun _ => inr model_ok) true
           (inl (ExternalError "no token")) upload_inputs fresh_world
           (mkFile (Some 100%Q) 10) model_ok "ok" []
           (transcribe_audio model_ok (fresh (dom (fs fresh_world)))
              (uploaded fresh_world (mkFile (Some 100%Q) 10))).1);
    [reflexivity | reflexivity | reflexivity | vm_compute; reflexivity].
Defined.

(** The wav file that is made for the diarization is a new file.  It is
    removed when the pipeline returns, and it is left behind when the
    pipeline raises: the removal is inside the [try] block, after the call. *)
Theorem diarization_wav_fate text load pipeline inp w content model t segs w4 :
  transcribe_button inp = true -> uploaded_file inp = Some content ->
  enable_diarization inp = true ->
  load (model_choice inp) = inr model ->
  transcribe_audio model (fresh (dom (fs w))) (uploaded w content) = (w4, inr (t, segs)) ->
  fs w4 !! fresh (dom (fs w4)) = None /\
  match pipeline (fresh (dom (fs w4))) with
  | inl _ =>
      fs (main text load true (inr pipeline) inp w).1 !! fresh (dom (fs w4))
      = Some empty_file
  | inr _ =>
      fs (main text load true (inr pipeline) inp w).1 = delete (fresh (dom (fs w))) (fs w4)
  end.
Proof.
  intros Hb Hu He Hl Ht. split; [apply fresh_lookup|].
  pose proof (main_transcribed_outside text load true (inr pipeline) inp w content model
                t segs w4 Hb Hu Hl Ht) as H.
  rewrite He in H. cbn [andb] in H.
  change (fs (main text load true (inr pipeline) inp w).1)
    with (outside (main text load true (inr pipeline) inp w).1).1.
  rewrite H.
  destruct (pipeline (fresh (dom (fs w4)))); cbn [fst]; [|reflexivity].
  destruct (transcribe_audio_frame model (fresh (dom (fs w))) (uploaded w content))
    as [Hfile _].
  rewrite Ht in Hfile. cbn [fst uploaded fs] in Hfile. rewrite lookup_insert_eq in Hfile.
  rewrite lookup_delete_ne, lookup_insert_eq; [reflexivity|].
  intros Heq. pose proof (fresh_lookup (fs w4)) as Hn. rewrite <- Heq in Hn. congruence.
Qed.

Lemma diarization_wav_fate_witness :
  fs transcribed_upload !! fresh (dom (fs transcribed_upload)) = None /\
  fs (main (fun key => key) (fun _ => inr model_ok) true
           (inr (fun _ => inl (ExternalError "no speech"))) upload_inputs fresh_world).1
    !! fresh (dom (fs transcribed_upload))
  = Some empty_file.
Proof.
  apply (diarization_wav_fate (fun key => key) (fun _ => inr model_ok)
           (fun _ => inl (ExternalError "no speech")) upload_inputs fresh_world
           (mkFile (Some 100%Q) 10) model_ok "ok" [] transcribed_upload);
    [reflexivity | reflexivity | reflexivity | reflexivity | vm_compute; reflexivity].
Defined.

(** When the transcription raises, the run ends at once and the temporary
    copy of the upload, a file that did not exist before the run, is left
    behind with the uploaded content. *)
Theorem failed_transcription_keeps_copy text load pimp pfp inp w content model e w4 :
  transcribe_button inp = true -> uploaded_file inp = Some content ->
  load (model_choice inp) = inr model ->
  transcribe_audio model (fresh (dom (fs w))) (uploaded w content) = (w4, inl e) ->
  fs w !! fresh (dom (fs w)) = None /\
  fs (main text load pimp pfp inp w).1 !! fresh (dom (fs w)) = Some content.
Proof.
  intros Hb Hu Hl Ht. split; [apply fresh_lookup|].
  destruct (main_transcription_fatal text load pimp pfp inp w content model e w4
              Hb Hu Hl Ht) as [E _].
  rewrite E. cbn [fst].
  destruct (transcribe_audio_frame model (fresh (dom (fs w))) (uploaded w content))
    as [Hfile _].
  rewrite Ht in Hfile. cbn [fst uploaded fs] in Hfile.
  now rewrite lookup_insert_eq in Hfile.
Qed.

Lemma failed_transcription_keeps_copy_witness :
  fs fresh_world !! fresh (dom (fs fresh_world)) = None /\
  fs (main (fun key => key)
           (fun _ => inr (model_failing_on (fresh (dom (fs fresh_world)))))
           true (inl (ExternalError "no token")) upload_inputs fresh_world).1
    !! fresh (dom (fs fresh_world))
  = Some (mkFile (Some 100%Q) 10).
Proof.
  apply (failed_transcription_keeps_copy (fun key => key)
           (fun _ => inr (model_failing_on (fresh (dom (fs fresh_world)))))
           true (inl (ExternalError "no token")) upload_inputs fresh_world
           (mkFile (Some 100%Q) 10)
           (model_failing_on (fresh (dom (fs fresh_world))))
           (ExternalError "out of memory")
           (transcribe_audio (model_failing_on (fresh (dom (fs fresh_world))))
              (fresh (dom (fs fresh_world)))
              (uploaded fresh_world (mkFile (Some 100%Q) 10))).1);
    [reflexivity | reflexivity | reflexivity | vm_compute; reflexivity].
Defined.

(** A run on an upload within both bounds, in which the model transcribes
    the upload and the diarization pipeline, if it is loaded at all, returns,
    leaves the file system exactly as it found it: the copy of the upload
    and the diarization wav are both removed. *)
Theorem clean_run_leaves_no_file text load pimp pfp inp w d sz model r :
  transcribe_button inp = true -> uploaded_file inp = Some (mkFile (Some d) sz) ->
  (d <= default_max_duration)%Q -> (sz <= default_max_file_size)%Z ->
  load (model_choice inp) = inr model ->
  model (fresh (dom (fs w))) = inr r ->
  (forall pipeline wav, pfp = inr pipeline -> exists results, pipeline wav = inr results) ->
  fs (main text load pimp pfp inp w).1 = fs w.
Proof.
  intros Hb Hu Hd Hsz Hl Hm Hp.
  assert (Hfile : fs (uploaded w (mkFile (Some d) sz)) !! fresh (dom (fs w))
                  = Some (mkFile (Some d) sz)) by apply lookup_insert_eq.
  assert (Hwhole : segment_audio (fresh (dom (fs w))) default_max_duration
                     default_max_file_size (uploaded w (mkFile (Some d) sz))
                   = (uploaded w (mkFile (Some d) sz), inr [(fresh (dom (fs w)), 0%Q)])).
  { apply (segment_audio_whole _ _ _ _ d sz Hfile).
    apply andb_true_iff. split; [now apply Qle_bool_iff | now apply Z.leb_le]. }
  destruct (transcribe_audio_one_chunk model _ _ _ _ Hwhole) as (Hr & Hfs & _).
  rewrite Hm in Hr.
  destruct (transcribe_audio model (fresh (dom (fs w))) (uploaded w (mkFile (Some d) sz)))
    as [w4 r4] eqn:Ht.
  cbn [fst snd] in Hr, Hfs. subst r4.
  pose proof (main_transcribed_outside text load pimp pfp inp w (mkFile (Some d) sz) model
                _ _ w4 Hb Hu Hl Ht) as H.
  change (fs (main text load pimp pfp inp w).1)
    with (outside (main text load pimp pfp inp w).1).1.
  rewrite H, Hfs. cbn [uploaded fs].
  assert (Hdel : delete (fresh (dom (fs w))) (<[fresh (dom (fs w)) := mkFile (Some d) sz]> (fs w))
                 = fs w) by apply delete_insert_id, fresh_lookup.
  destruct (enable_diarization inp && pimp); [destruct pfp as [e|pipeline]|];
    cbn [fst]; try exact Hdel.
  destruct (Hp pipeline (fresh (dom (<[fresh (dom (fs w)) := mkFile (Some d) sz]> (fs w))))
              eq_refl) as [results ->].
  exact Hdel.
Qed.

Lemma clean_run_leaves_no_file_witness :
  fs (main (fun key => key) (fun _ => inr model_ok) true (inr (fun _ => inr two_speakers))
           upload_inputs fresh_world).1
  = fs fresh_world.
Proof.
  apply (clean_run_leaves_no_file (fun key => key) (fun _ => inr model_ok) true
           (inr (fun _ => inr two_speakers)) upload_inputs fresh_world 100 10 model_ok
           (mkWhisperResult "ok" (Some [])));
    [reflexivity | reflexivity | discriminate | discriminate | reflexivity | reflexivity|].
  intros pipeline wav [= <-]. eexists. reflexivity.
Defined.

(** Pressing the transcribe button without an upload only shows a warning:
    nothing is cleared, and the run goes on as a rerun would. *)
Theorem transcribe_without_upload text load pimp pfp inp w s :
  transcribe_button inp = true -> uploaded_file inp = None ->
  session w = Some s ->
  main text load pimp pfp inp w
  = main text load pimp pfp (no_transcribe inp)
      {| fs := fs w; commands := commands w;
         ui := ui w ++ [StWarning (text "warn_upload")]; session := Some s |}.
Proof.
  intros Hb Hu Hs. rewrite main_two_stages.
  unfold first_stage, transcribe_handler. rewrite Hb, Hu.
  destruct w as [f c u sess]. cbn [session] in Hs. subst sess. reflexivity.
Qed.

Lemma transcribe_without_upload_witness :
  main (fun key => key) (fun _ => inr model_ok) true (inl (ExternalError "no token"))
       (mkInputs None "base" true true false (fun _ => None))
       (mkWorld ∅ [] [] (Some renamed_session))
  = main (fun key => key) (fun _ => inr model_ok) true (inl (ExternalError "no token"))
         (no_transcribe (mkInputs None "base" true true false (fun _ => None)))
         {| fs := fs (mkWorld ∅ [] [] (Some renamed_session));
            commands := commands (mkWorld ∅ [] [] (Some renamed_session));
            ui := ui (mkWorld ∅ [] [] (Some renamed_session))
                  ++ [StWarning ((fun key : string => key) "warn_upload")];
            session := Some renamed_session |}.
Proof.
  apply (transcribe_without_upload (fun key => key) (fun _ => inr model_ok) true
           (inl (ExternalError "no token"))
           (mkInputs None "base" true true false (fun _ => None))
           (mkWorld ∅ [] [] (Some renamed_session)) renamed_session);
    reflexivity.
Defined.

(** ** The documents *)

Lemma split_scan_piece x : forall cur rest,
  free_of_newline x = true ->
  split_scan blank_line 0 cur (x ++ rest) = split_scan blank_line 0 (cur ++ x) rest.
Proof.
  induction x as [|c x IH]; intros cur rest Hx.
  - now rewrite string_app_nil_r.
  - cbn [free_of_newline] in Hx. apply andb_true_iff in Hx as [Hc Hx].
    rewrite string_app_cons. cbn [split_scan].
    assert (Hp : String.prefix blank_line (String c (x ++ rest)) = false).
    { unfold blank_line. cbn [String.prefix].
      destruct (ascii_dec "010" c) as [<-|]; [discriminate | reflexivity]. }
    rewrite Hp, IH by assumption.
    now rewrite string_app_assoc.
Qed.

Lemma split_scan_separator cur rest :
  split_scan blank_line 0 cur (blank_line ++ rest)
  = cur :: split_scan blank_line 0 "" rest.
Proof.
  assert (Hp : String.prefix blank_line (String "010" (String "010" rest)) = true)
    by apply (prefix_app blank_line rest).
  change (blank_line ++ rest) with (String "010" (String "010" rest)).
  cbn [split_scan]. rewrite Hp. reflexivity.
Qed.

Lemma split_join lines : forall cur,
  Forall (fun l => free_of_newline l = true) lines ->
  split_scan blank_line 0 cur (PyStr.join blank_line lines)
  = match lines with
    | [] => [cur]
    | x :: rest => (cur ++ x) :: rest
    end.
Proof.
  induction lines as [|x [|y lines] IH]; intros cur Hall; [reflexivity | |].
  - apply Forall_inv in Hall. cbn [PyStr.join].
    rewrite <- (string_app_nil_r x) at 1. now rewrite split_scan_piece.
  - apply Forall_cons in Hall as [Hx Hall].
    change (PyStr.join blank_line (x :: y :: lines))
      with (x ++ blank_line ++ PyStr.join blank_line (y :: lines)).
    rewrite split_scan_piece, split_scan_separator by assumption.
    now rewrite IH.
Qed.

Lemma foldl_snoc {A B} (f : A -> list B) (l : list A) : forall init,
  foldl (fun acc x => (acc ++ f x)%list) init l = (init ++ concat (map f l))%list.
Proof.
  induction l as [|x l IH]; intros init; cbn [foldl map concat].
  - now rewrite app_nil_r.
  - now rewrite IH, app_assoc.
Qed.

(** A text made of paragraphs without line breaks, joined by blank lines, is
    cut back into exactly these paragraphs: the DOCX gets one paragraph per
    paragraph of the text after its heading and date line, and the PDF one
    paragraph and one spacer per paragraph after its title, date line and
    spacer.  The empty text gives one empty paragraph. *)
Theorem documents_keep_paragraphs (now : string) (lines : list string) :
  Forall (fun l => free_of_newline l = true) lines ->
  let paragraphs := match lines with [] => [""] | _ => lines end in
  str_split blank_line (PyStr.join blank_line lines) = paragraphs /\
  docx_blocks now (PyStr.join blank_line lines)
  = ([DocxHeading "Audio Transcription" 0; DocxParagraph ("Generated on " ++ now)]
     ++ map DocxParagraph paragraphs)%list /\
  pdf_elements now (PyStr.join blank_line lines)
  = ([PdfParagraph "Audio Transcription" StyleTitle;
      PdfParagraph ("Generated on " ++ now) StyleNormal; PdfSpacer 1 20]
     ++ concat (map (fun para => [PdfParagraph para StyleBody; PdfSpacer 1 12]) paragraphs))%list.
Proof.
  intros Hall paragraphs.
  assert (Hs : str_split blank_line (PyStr.join blank_line lines) = paragraphs).
  { unfold str_split. rewrite split_join by assumption. subst paragraphs.
    now destruct lines. }
  split; [exact Hs|]. unfold docx_blocks, pdf_elements. rewrite Hs. split.
  - rewrite (foldl_snoc (fun para => [DocxParagraph para])). f_equal.
    clear. induction paragraphs as [|x l IH]; [reflexivity|]. cbn. now rewrite IH.
  - rewrite <- (foldl_snoc (fun para => [PdfParagraph para StyleBody; PdfSpacer 1 12])).
    clear. generalize [PdfParagraph "Audio Transcription" StyleTitle;
                       PdfParagraph ("Generated on " ++ now) StyleNormal; PdfSpacer 1 20].
    induction paragraphs as [|x l IH]; intros init; [reflexivity|].
    cbn [foldl]. rewrite IH. now rewrite <- app_assoc.
Qed.

Lemma documents_keep_paragraphs_witness :
  str_split blank_line (PyStr.join blank_line ["A: hi"; "B: there"]) = ["A: hi"; "B: there"] /\
  docx_blocks "2024-01-01 10:00" (PyStr.join blank_line ["A: hi"; "B: there"])
  = ([DocxHeading "Audio Transcription" 0;
      DocxParagraph ("Generated on " ++ "2024-01-01 10:00")]
     ++ map DocxParagraph ["A: hi"; "B: there"])%list /\
  pdf_elements "2024-01-01 10:00" (PyStr.join blank_line ["A: hi"; "B: there"])
  = ([PdfParagraph "Audio Transcription" StyleTitle;
      PdfParagraph ("Generated on " ++ "2024-01-01 10:00") StyleNormal; PdfSpacer 1 20]
     ++ concat (map (fun para => [PdfParagraph para StyleBody; PdfSpacer 1 12])
                    ["A: hi"; "B: there"]))%list.
Proof.
  apply (documents_keep_paragraphs "2024-01-01 10:00" ["A: hi"; "B: there"]).
  repeat constructor.
Defined.

Section DocumentFiles.

Variable pdf_build : list Flowable -> exn + string.
Variable docx_save : list DocxBlock -> exn + string.

Lemma rendered_file_removed (f : gmap string File) (content : File) :
  delete (fresh (dom f)) (<[fresh (dom f) := content]> (<[fresh (dom f) := empty_file]> f)) = f.
Proof. rewrite insert_insert_eq. apply delete_insert_id, fresh_lookup. Qed.

Lemma generate_pdf_run (now text : string) (w : World) :
  generate_pdf pdf_build now text w
  = match pdf_build (pdf_elements now text) with
    | inr pdf_bytes => (w, inr pdf_bytes)
    | inl e =>
        ({| fs := <[fresh (dom (fs w)) := empty_file]> (fs w);
            commands := commands w; ui := ui w; session := session w |}, inl e)
    end.
Proof.
  unfold generate_pdf, write_file. destruct w as [f c u s]. mrun.
  destruct (pdf_build (pdf_elements now text)) as [e|pdf_bytes]; [reflexivity|].
  mrun. rewrite lookup_insert_eq. mrun. now rewrite rendered_file_removed.
Qed.

Lemma generate_docx_run (now text : string) (w : World) :
  generate_docx docx_save now text w
  = match docx_save (docx_blocks now text) with
    | inr docx_bytes => (w, inr docx_bytes)
    | inl e =>
        ({| fs := <[fresh (dom (fs w)) := empty_file]> (fs w);
            commands := commands w; ui := ui w; session := session w |}, inl e)
    end.
Proof.
  unfold generate_docx, write_file. destruct w as [f c u s]. mrun.
  destruct (docx_save (docx_blocks now text)) as [e|docx_bytes]; [reflexivity|].
  mrun. rewrite lookup_insert_eq. mrun. now rewrite rendered_file_removed.
Qed.

(** [generate_pdf] and [generate_docx] return the bytes of their renderer
    and leave the world as it was: the temporary file is removed again.
    When the renderer raises, the exception goes on to the caller and the
    temporary file that was created for the document stays behind. *)
Theorem documents_temporary_files (now text : string) (w : World) :
  generate_pdf pdf_build now text w
  = match pdf_build (pdf_elements now text) with
    | inr pdf_bytes => (w, inr pdf_bytes)
    | inl e =>
        ({| fs := <[fresh (dom (fs w)) := empty_file]> (fs w);
            commands := commands w; ui := ui w; session := session w |}, inl e)
    end /\
  generate_docx docx_save now text w
  = match docx_save (docx_blocks now text) with
    | inr docx_bytes => (w, inr docx_bytes)
    | inl e =>
        ({| fs := <[fresh (dom (fs w)) := empty_file]> (fs w);
            commands := commands w; ui := ui w; session := session w |}, inl e)
    end /\
  fs w !! fresh (dom (fs w)) = None.
Proof.
  split; [apply generate_pdf_run|]. split; [apply generate_docx_run | apply fresh_lookup].
Qed.

Lemma downloads_outside now_pdf now_docx :
  (forall els, exists b, pdf_build els = inr b) ->
  (forall blocks, exists b, docx_save blocks = inr b) ->
  preserves outside (downloads pdf_build docx_save now_pdf now_docx) /\
  forall w, exists r, (downloads pdf_build docx_save now_pdf now_docx w).2 = inr r.
Proof.
  intros Hpdf Hdocx.
  assert (H : forall w, exists r, downloads pdf_build docx_save now_pdf now_docx w = (w, inr r)).
  { intros w. unfold downloads, get_session. rewrite bind_unfold. cbn [fst snd].
    destruct (transcription_done (default cleared_session (session w))); [|eexists; reflexivity].
    rewrite bind_unfold, generate_pdf_run.
    destruct (Hpdf (pdf_elements now_pdf
                      (final_transcript (default cleared_session (session w))))) as [b ->].
    rewrite bind_unfold, generate_docx_run.
    destruct (Hdocx (docx_blocks now_docx
                       (final_transcript (default cleared_session (session w))))) as [b' ->].
    eexists. reflexivity. }
  split.
  - intros w. destruct (H w) as [r ->]. reflexivity.
  - intros w. destruct (H w) as [r ->]. eexists. reflexivity.
Qed.

(** With renderers that do not fail, a run of the whole script in which the
    transcribe button is not pressed, download section included, leaves the
    files and the issued commands as they were; and it ends normally when
    the speaker map is empty or covers the labels. *)
Theorem full_rerun_touches_no_file text load pimp pfp now_pdf now_docx inp w :
  (forall els, exists b, pdf_build els = inr b) ->
  (forall blocks, exists b, docx_save blocks = inr b) ->
  transcribe_button inp = false ->
  fs (main_with_downloads pdf_build docx_save text load pimp pfp now_pdf now_docx inp w).1
  = fs w /\
  commands (main_with_downloads pdf_build docx_save text load pimp pfp now_pdf now_docx inp w).1
  = commands w /\
  (map_covers (session_of w) ->
   exists r,
     (main_with_downloads pdf_build docx_save text load pimp pfp now_pdf now_docx inp w).2
     = inr r).
Proof.
  intros Hpdf Hdocx Hb.
  destruct (downloads_outside now_pdf now_docx Hpdf Hdocx) as [Hout Hret].
  assert (H : preserves outside
                (main_with_downloads pdf_build docx_save text load pimp pfp
                   now_pdf now_docx inp)).
  { unfold main_with_downloads.
    apply preserves_bind; [now apply outside_main_rerun | intros _; exact Hout]. }
  specialize (H w). unfold outside in H. injection H as H1 H2.
  split; [exact H1|]. split; [exact H2|].
  intros Hcov. unfold main_with_downloads. rewrite bind_unfold.
  destruct (main_rerun_covers text load pimp pfp inp w Hb Hcov) as [Hr _].
  destruct (main text load pimp pfp inp w) as [w1 r1]. cbn [snd] in Hr. subst r1.
  apply Hret.
Qed.

End DocumentFiles.

Lemma full_rerun_touches_no_file_witness :
  fs (main_with_downloads pdf_ok docx_ok (fun key => key) (fun _ => inr model_ok) true
        (inl (ExternalError "no token")) "2024-01-01 10:00" "2024-01-01 10:00"
        idle_inputs (mkWorld ∅ [] [] (Some renamed_session))).1
  = fs (mkWorld ∅ [] [] (Some renamed_session)) /\
  commands (main_with_downloads pdf_ok docx_ok (fun key => key) (fun _ => inr model_ok) true
              (inl (ExternalError "no token")) "2024-01-01 10:00" "2024-01-01 10:00"
              idle_inputs (mkWorld ∅ [] [] (Some renamed_session))).1
  = commands (mkWorld ∅ [] [] (Some renamed_session)) /\
  (map_covers (session_of (mkWorld ∅ [] [] (Some renamed_session))) ->
   exists r,
     (main_with_downloads pdf_ok docx_ok (fun key => key) (fun _ => inr model_ok) true
        (inl (ExternalError "no token")) "2024-01-01 10:00" "2024-01-01 10:00"
        idle_inputs (mkWorld ∅ [] [] (Some renamed_session))).2
     = inr r).
Proof.
  apply (full_rerun_touches_no_file pdf_ok docx_ok (fun key => key)
           (fun _ => inr model_ok) true (inl (ExternalError "no token"))
           "2024-01-01 10:00" "2024-01-01 10:00" idle_inputs
           (mkWorld ∅ [] [] (Some renamed_session)));
    [intros els; eexists; reflexivity | intros blocks; eexists; reflexivity | reflexivity].
Defined.


(** *** The paragraphs of a merged transcript *)

Lemma free_app a b :
  free_of_newline (a ++ b) = free_of_newline a && free_of_newline b.
Proof.
  induction a as [|c a IH]; [reflexivity|].
  rewrite string_app_cons. cbn [free_of_newline]. now rewrite IH, andb_assoc.
Qed.

Lemma free_lstrip s : free_of_newline s = true -> free_of_newline (PyStr.lstrip s) = true.
Proof.
  induction s as [|c s IH]; [reflexivity|]. intros H.
  cbn [PyStr.lstrip]. destruct (PyStr.is_space c); [|exact H].
  cbn [free_of_newline] in H. apply andb_true_iff in H as [_ H]. now apply IH.
Qed.

Lemma free_rstrip s : free_of_newline s = true -> free_of_newline (PyStr.rstrip s) = true.
Proof.
  induction s as [|c s IH]; [reflexivity|]. intros H.
  cbn [free_of_newline] in H. apply andb_true_iff in H as [Hc H].
  rewrite rstrip_cons. specialize (IH H).
  destruct (PyStr.rstrip s) as [|a r].
  - destruct (PyStr.is_space c); [reflexivity|]. cbn [free_of_newline]. now rewrite Hc.
  - change (free_of_newline (String c (String a r)))
      with (negb (Ascii.eqb c "010") && free_of_newline (String a r)).
    now rewrite Hc, IH.
Qed.

Lemma free_strip s : free_of_newline s = true -> free_of_newline (PyStr.strip s) = true.
Proof. intros H. unfold PyStr.strip. now apply free_lstrip, free_rstrip. Qed.

Lemma free_join ts :
  Forall (fun t => free_of_newline t = true) ts ->
  free_of_newline (PyStr.join " " ts) = true.
Proof.
  induction ts as [|t [|t' ts] IH]; intros Hall; [reflexivity | |].
  - now apply Forall_inv in Hall.
  - apply Forall_cons in Hall as [Ht Hall].
    change (PyStr.join " " (t :: t' :: ts)) with (t ++ " " ++ PyStr.join " " (t' :: ts)).
    rewrite !free_app, Ht, IH by assumption. reflexivity.
Qed.

Lemma runs_speakers (P : string -> Prop) (l : list (string * string)) :
  Forall (fun e => P e.1) l -> Forall (fun r => P r.1) (runs l).
Proof.
  induction 1 as [|[sp t] l Hp _ IH]; [constructor|].
  change (runs ((sp, t) :: l)) with (cons_run (sp, [t]) (runs l)).
  unfold cons_run. destruct (runs l) as [|[sp' ts'] rest]; cbn [fst snd] in *.
  - now repeat constructor.
  - apply Forall_cons in IH as [Hsp Hrest]. case_decide; now repeat constructor.
Qed.

Lemma runs_nonempty (l : list (string * string)) : l <> [] -> runs l <> [].
Proof.
  destruct l as [|[sp t] l]; [congruence|]. intros _.
  change (runs ((sp, t) :: l)) with (cons_run (sp, [t]) (runs l)).
  destruct (cons_run_head (sp, [t]) (runs l)) as (ts & rest & ->). discriminate.
Qed.

Lemma free_speaker_or_unknown m ds :
  Forall (fun d => free_of_newline (d_speaker d) = true) ds ->
  free_of_newline (speaker_or_unknown (scan_intervals m ds)) = true.
Proof.
  intros Hall. destruct (scan_intervals m ds) as [[|c s]|] eqn:E; try reflexivity.
  apply scan_intervals_label in E. apply list_elem_of_fmap in E as (d & Hd & Hin).
  rewrite Forall_forall in Hall. cbn [speaker_or_unknown]. rewrite Hd. now apply Hall.
Qed.

(** When no speaker label and no segment text contains a line break,
    cutting the merged transcript at its blank lines, as the documents do,
    gives back exactly its paragraphs, one per run of segments with the same
    speaker. *)
Theorem transcript_paragraphs_exported (segs : list Segment) (ds : list Interval) :
  segs <> [] ->
  Forall (fun d => free_of_newline (d_speaker d) = true) ds ->
  Forall (fun seg => free_of_newline (default "" (seg_text seg)) = true) segs ->
  str_split blank_line (assign_speakers_to_transcription segs ds).2
  = map paragraph_trimmed
        (runs (map labelled (assign_speakers_to_transcription segs ds).1)).
Proof.
  intros Hne Hds Hsegs.
  assert (E : (assign_speakers_to_transcription segs ds).2
              = coalesce paragraph_trimmed (assign_speakers_to_transcription segs ds).1).
  { destruct segs; [congruence|]. apply merge_segments_coalesce. }
  rewrite E, assign_speakers_segments. unfold coalesce, str_split.
  set (l := map labelled (map (assign_speaker ds) segs)).
  assert (Hl : l <> []) by (subst l; destruct segs; [congruence | discriminate]).
  assert (Hsp : Forall (fun e : string * string => free_of_newline e.1 = true) l).
  { subst l. apply Forall_fmap, Forall_fmap, Forall_forall. intros seg _. cbn.
    now apply free_speaker_or_unknown. }
  assert (Htx : Forall (fun e : string * string => free_of_newline e.2 = true) l).
  { subst l. apply Forall_fmap, Forall_fmap. eapply Forall_impl; [exact Hsegs|].
    intros seg H. cbn. now apply free_strip. }
  rewrite split_join.
  - pose proof (runs_nonempty l Hl) as Hr. destruct (runs l); [congruence | reflexivity].
  - apply Forall_fmap.
    pose proof (runs_speakers (fun s => free_of_newline s = true) l Hsp) as H1.
    pose proof (runs_texts (fun s => free_of_newline s = true) l Htx) as H2.
    rewrite Forall_forall in H1, H2. apply Forall_forall. intros r Hr.
    unfold paragraph_trimmed, compose. rewrite !free_app.
    rewrite (H1 r Hr). destruct (H2 r Hr) as [_ Hts].
    rewrite free_strip by now apply free_join. reflexivity.
Qed.

Lemma transcript_paragraphs_exported_witness :
  str_split blank_line (assign_speakers_to_transcription two_segments two_speakers).2
  = map paragraph_trimmed
        (runs (map labelled (assign_speakers_to_transcription two_segments two_speakers).1)).
Proof.
  apply (transcript_paragraphs_exported two_segments two_speakers);
    [discriminate | repeat constructor | repeat constructor].
Defined.
